(** * Maek: a shallow embedding of [Maekfile.js] and its specification

    The development follows the layout of [init_maek] in [Maekfile.js]:
    strings and digests (what node's [crypto] provides), the dep-file
    parser [loadDeps], the hash cache and [hashFiles], the registry of
    tasks built by [RULE], [CPP] and [LINK], the resolver [updateTargets],
    the job limiter [job], and the driver [maek.update].

    Conventions of the embedding.
    - A JavaScript string is a [string]; its characters stand for the code
      units of the source string.
    - A JavaScript object used as a dictionary keyed by strings is a finite
      map ([gmap string _]), except [maek.tasks], whose keys are enumerated
      with [Object.keys]: it is an association list in insertion order.
    - Task objects are shared between the targets they are registered for;
      they live in a store ([list Task]) and the registry holds references.
    - A promise is an entry of a promise table holding its settled outcome;
      asynchronous code is run under one deterministic schedule, in which
      every promise runs to completion when it is created.
    - The trace of a world lists, in program order, the effects the code
      performs (console output, spawned commands, hash cache deletions,
      directory creation, task calls, file writes, process exit). *)

From Stdlib Require Import ZArith Lia Ascii String.
From stdpp Require Import gmap strings list fin_maps sorting.

Set Warnings "-register-all".

Local Open Scope string_scope.
Local Open Scope list_scope.
Local Open Scope Z_scope.

(** ** Strings *)

Module Str.

Definition chars (s : string) : list ascii := list_ascii_of_string s.
Definition of_chars (l : list ascii) : string := string_of_list_ascii l.

Definition code (c : ascii) : Z := Z.of_N (N_of_ascii c).
Definition char_of_code (z : Z) : ascii := ascii_of_N (Z.to_N (z mod 256)).

Definition bytes (s : string) : list Z := code <$> chars s.
Definition of_bytes (l : list Z) : string := of_chars (char_of_code <$> l).

(** [Array.prototype.join]. *)
Fixpoint join (sep : string) (l : list string) : string :=
  match l with
  | [] => ""
  | [x] => x
  | x :: rest => x +:+ sep +:+ join sep rest
  end.

(** [s[0] === c]. *)
Definition starts_with_char (c : ascii) (s : string) : bool :=
  match s with
  | String c' _ => bool_decide (c' = c)
  | EmptyString => false
  end.

(** The double quote, as a character and as a string. *)
Definition DQUOTE : ascii := "034"%char.
Definition dq : string := String DQUOTE EmptyString.

(** Decimal rendering of an integer, as template literals do. *)
Fixpoint digits_of (fuel : nat) (n : Z) (acc : list ascii) : list ascii :=
  match fuel with
  | O => acc
  | S fuel' =>
      let d := char_of_code (48 + n mod 10) in
      if n / 10 =? 0 then d :: acc else digits_of fuel' (n / 10) (d :: acc)
  end.

Definition of_Z (z : Z) : string :=
  if z <? 0
  then String "-" (of_chars (digits_of (Z.to_nat (- z)) (- z) []))
  else of_chars (digits_of (S (Z.to_nat z)) z []).

End Str.

(** ** MD5 and base64, as [crypto.createHash('md5')] and [digest('base64')] *)

Module MD5.

Definition mask32 (x : Z) : Z := Z.land x 4294967295.

Definition rotl32 (x : Z) (n : Z) : Z :=
  mask32 (Z.lor (Z.shiftl x n) (Z.shiftr (mask32 x) (32 - n))).

Definition K : list Z :=
  [ 3614090360; 3905402710; 606105819; 3250441966;
    4118548399; 1200080426; 2821735955; 4249261313;
    1770035416; 2336552879; 4294925233; 2304563134;
    1804603682; 4254626195; 2792965006; 1236535329;
    4129170786; 3225465664; 643717713; 3921069994;
    3593408605; 38016083; 3634488961; 3889429448;
    568446438; 3275163606; 4107603335; 1163531501;
    2850285829; 4243563512; 1735328473; 2368359562;
    4294588738; 2272392833; 1839030562; 4259657740;
    2763975236; 1272893353; 4139469664; 3200236656;
    681279174; 3936430074; 3572445317; 76029189;
    3654602809; 3873151461; 530742520; 3299628645;
    4096336452; 1126891415; 2878612391; 4237533241;
    1700485571; 2399980690; 4293915773; 2240044497;
    1873313359; 4264355552; 2734768916; 1309151649;
    4149444226; 3174756917; 718787259; 3951481745 ].

Definition S_ : list Z :=
  [ 7; 12; 17; 22; 7; 12; 17; 22; 7; 12; 17; 22; 7; 12; 17; 22;
    5; 9; 14; 20; 5; 9; 14; 20; 5; 9; 14; 20; 5; 9; 14; 20;
    4; 11; 16; 23; 4; 11; 16; 23; 4; 11; 16; 23; 4; 11; 16; 23;
    6; 10; 15; 21; 6; 10; 15; 21; 6; 10; 15; 21; 6; 10; 15; 21 ].

Definition nthZ (l : list Z) (i : Z) : Z := nth (Z.to_nat i) l 0.

(** Little-endian bytes of a word, [n] of them. *)
Fixpoint le_bytes (n : nat) (x : Z) : list Z :=
  match n with
  | O => []
  | S n' => Z.land x 255 :: le_bytes n' (Z.shiftr x 8)
  end.

Fixpoint le_word (bs : list Z) : Z :=
  match bs with
  | [] => 0
  | b :: rest => Z.lor b (Z.shiftl (le_word rest) 8)
  end.

Definition pad (msg : list Z) : list Z :=
  let len := Z.of_nat (length msg) in
  let zeros := Z.to_nat ((55 - len) mod 64) in
  msg ++ [128] ++ replicate zeros 0 ++ le_bytes 8 (8 * len).

Fixpoint words (n : nat) (bs : list Z) : list Z :=
  match n with
  | O => []
  | S n' => le_word (take 4 bs) :: words n' (drop 4 bs)
  end.

Record state := St { sa : Z; sb : Z; sc : Z; sd : Z }.

Definition init : state := St 1732584193 4023233417 2562383102 271733878.

Definition round (M : list Z) (s : state) (i : Z) : state :=
  let '(St a b c d) := s in
  let '(f, g) :=
    if i <? 16 then (Z.lor (Z.land b c) (Z.land (Z.lxor b 4294967295) d), i)
    else if i <? 32 then (Z.lor (Z.land d b) (Z.land (Z.lxor d 4294967295) c), (5 * i + 1) mod 16)
    else if i <? 48 then (Z.lxor (Z.lxor b c) d, (3 * i + 5) mod 16)
    else (Z.lxor c (Z.lor b (Z.lxor d 4294967295)), (7 * i) mod 16) in
  let f' := mask32 (f + a + nthZ K i + nthZ M g) in
  St d (mask32 (b + rotl32 f' (nthZ S_ i))) b c.

Definition block (s : state) (M : list Z) : state :=
  let '(St a b c d) := fold_left (round M) (Z.of_nat <$> seq 0 64) s in
  St (mask32 (sa s + a)) (mask32 (sb s + b)) (mask32 (sc s + c)) (mask32 (sd s + d)).

Fixpoint blocks (n : nat) (s : state) (bs : list Z) : state :=
  match n with
  | O => s
  | S n' => blocks n' (block s (words 16 (take 64 bs))) (drop 64 bs)
  end.

Definition digest (msg : list Z) : list Z :=
  let p := pad msg in
  let '(St a b c d) := blocks (length p / 64)%nat init p in
  le_bytes 4 a ++ le_bytes 4 b ++ le_bytes 4 c ++ le_bytes 4 d.

End MD5.

Module Base64.

Definition alphabet : list ascii :=
  Str.chars "ABCDEFGHIJKLMNOPQRSTUVWXYZabcdefghijklmnopqrstuvwxyz0123456789+/".

Definition sextet (n : Z) : ascii := nth (Z.to_nat n) alphabet "A"%char.

Fixpoint encode_chars (fuel : nat) (bs : list Z) : list ascii :=
  match fuel with
  | O => []
  | S fuel' =>
      match bs with
      | [] => []
      | [a] =>
          [sextet (Z.shiftr a 2); sextet (Z.shiftl (Z.land a 3) 4); "="%char; "="%char]
      | [a; b] =>
          [sextet (Z.shiftr a 2);
           sextet (Z.lor (Z.shiftl (Z.land a 3) 4) (Z.shiftr b 4));
           sextet (Z.shiftl (Z.land b 15) 2); "="%char]
      | a :: b :: c :: rest =>
          sextet (Z.shiftr a 2)
          :: sextet (Z.lor (Z.shiftl (Z.land a 3) 4) (Z.shiftr b 4))
          :: sextet (Z.lor (Z.shiftl (Z.land b 15) 2) (Z.shiftr c 6))
          :: sextet (Z.land c 63)
          :: encode_chars fuel' rest
      end
  end.

Definition encode (bs : list Z) : string :=
  Str.of_chars (encode_chars (S (length bs)) bs).

End Base64.

(** [hash.update(data); hash.digest('base64')] for the bytes of a file. *)
Definition md5_base64 (data : string) : string :=
  Base64.encode (MD5.digest (Str.bytes data)).

(** ** The dep-file tokenizer of [loadDeps] (inside [maek.CPP]) *)

Module DepFile.

Definition SPACE : ascii := " "%char.
Definition TAB : ascii := "009"%char.
Definition NEWLINE : ascii := "010"%char.
Definition DOLLAR : ascii := "$"%char.
Definition BACKSLASH : ascii := "\"%char.

(** [c === ' ' || c === '\t' || c === '\n'] *)
Definition is_space (c : ascii) : bool :=
  Ascii.eqb c SPACE || Ascii.eqb c TAB || Ascii.eqb c NEWLINE.

(** [tokens[tokens.length-1] !== ''] *)
Definition last_nonempty (tokens : list string) : bool :=
  match last tokens with
  | Some EmptyString => false
  | _ => true
  end.

(** [tokens[tokens.length-1] += c] *)
Fixpoint append_last (tokens : list string) (c : ascii) : list string :=
  match tokens with
  | [] => []
  | [t] => [t +:+ String c ""]
  | t :: rest => t :: append_last rest c
  end.

(** The body of [for (let i = 0; i < text.length; ++i)]: the index [i] and
    the array [tokens] are the loop state; every iteration moves [i]
    forward, so [length text] iterations are enough. *)
Fixpoint scan (fuel : nat) (text : list ascii) (i : nat) (tokens : list string)
  : list string :=
  match fuel with
  | O => tokens
  | S fuel' =>
      match text !! i with
      | None => tokens
      | Some c =>
          if is_space c then
            scan fuel' text (S i)
              (if last_nonempty tokens then tokens ++ [""] else tokens)
          else if Ascii.eqb c DOLLAR
                  && bool_decide (text !! S i = Some DOLLAR) then
            scan fuel' text (S (S i)) (append_last tokens DOLLAR)
          else if Ascii.eqb c BACKSLASH && bool_decide (S i < length text)%nat then
            match text !! S i with
            | Some d =>
                if Ascii.eqb d NEWLINE then scan fuel' text (S i) tokens
                else scan fuel' text (S (S i)) (append_last tokens d)
            | None => tokens
            end
          else scan fuel' text (S i) (append_last tokens c)
      end
  end.

(** [if (tokens[tokens.length-1] === '') tokens.pop();] *)
Definition pop_empty (tokens : list string) : list string :=
  if last_nonempty tokens then tokens else removelast tokens.

(** The value of [tokens] just before the two [console.assert] calls. *)
Definition tokenize (text : string) : list string :=
  let cs := Str.chars text in
  pop_empty (scan (length cs) cs 0 [""]).

(** [tokens.sort()]: the default comparison orders strings by their code
    units. *)
Definition str_le (s t : string) : Prop := String.leb s t = true.

#[global] Instance str_le_dec s t : Decision (str_le s t).
Proof. unfold str_le. apply _. Defined.

#[global] Instance str_le_total : Total str_le.
Proof. intros s t. apply String.leb_total. Qed.

Definition js_sort (l : list string) : list string := merge_sort str_le l.

(** [tokens = tokens.slice(2).sort();
     tokens.filter(target => !(target in inDepends))] *)
Definition extraDepends (inDepends : gmap string bool) (tokens : list string)
  : list string :=
  filter (fun target => inDepends !! target = None) (js_sort (drop 2 tokens)).

(** *** The format in the words of the specification

    Space, tab and newline separate tokens; [$$] stands for [$]; a
    backslash before a newline continues the line (the pair acts as white
    space); a backslash before any other character stands for that
    character. *)

Inductive piece := Gap | Chr (c : ascii).

Fixpoint pieces (text : list ascii) : list piece :=
  match text with
  | [] => []
  | c :: rest =>
      match rest with
      | d :: rest' =>
          if Ascii.eqb c DOLLAR && Ascii.eqb d DOLLAR then Chr DOLLAR :: pieces rest'
          else if Ascii.eqb c BACKSLASH then
            if Ascii.eqb d NEWLINE then Gap :: pieces rest'
            else Chr d :: pieces rest'
          else if is_space c then Gap :: pieces rest
          else Chr c :: pieces rest
      | [] => if is_space c then [Gap] else [Chr c]
      end
  end.

(** Tokens are the maximal runs of characters between gaps; [cur] is the
    run being read. *)
Fixpoint runs (ps : list piece) (cur : string) : list string :=
  match ps with
  | [] => match cur with EmptyString => [] | _ => [cur] end
  | Gap :: ps' =>
      match cur with EmptyString => runs ps' "" | _ => cur :: runs ps' "" end
  | Chr c :: ps' => runs ps' (cur +:+ String c "")
  end.

Definition spec_tokens (text : string) : list string :=
  runs (pieces (Str.chars text)) "".

End DepFile.

(** ** JSON values, [JSON.stringify] and [JSON.parse]

    Cache keys are arrays of strings and of arrays of strings; the cache
    file is an object from targets to keys.  Numbers are integers: a number
    with a fraction or an exponent, which maek never writes, is not read. *)

Inductive json :=
| JNull
| JBool (b : bool)
| JNum (n : Z)
| JStr (s : string)
| JArr (items : list json)
| JObj (fields : list (string * json)).

Module Json.

Definition hex_digit (n : Z) : ascii :=
  nth (Z.to_nat n) (Str.chars "0123456789abcdef") "0"%char.

(** One code unit of a string inside the quotes. *)
Definition escape (c : ascii) : string :=
  let n := Str.code c in
  if n =? 34 then "\" +:+ Str.dq
  else if n =? 92 then "\\"
  else if n =? 8 then "\b"
  else if n =? 12 then "\f"
  else if n =? 10 then "\n"
  else if n =? 13 then "\r"
  else if n =? 9 then "\t"
  else if n <? 32 then "\u00" +:+ String (hex_digit (n / 16)) (String (hex_digit (n mod 16)) "")
  else String c "".

Fixpoint escape_all (s : string) : string :=
  match s with
  | EmptyString => ""
  | String c rest => escape c +:+ escape_all rest
  end.

Definition quote (s : string) : string := Str.dq +:+ escape_all s +:+ Str.dq.

Fixpoint stringify (j : json) : string :=
  match j with
  | JNull => "null"
  | JBool true => "true"
  | JBool false => "false"
  | JNum n => Str.of_Z n
  | JStr s => quote s
  | JArr items => "[" +:+ Str.join "," (map stringify items) +:+ "]"
  | JObj fields =>
      "{" +:+ Str.join "," (map (fun kv => quote (fst kv) +:+ ":" +:+ stringify (snd kv)) fields)
      +:+ "}"
  end.

(** Assignment to a property of an object: an existing key keeps its
    place, a new key goes last. *)
Fixpoint obj_set {A} (k : string) (v : A) (o : list (string * A)) : list (string * A) :=
  match o with
  | [] => [(k, v)]
  | (k', v') :: rest =>
      if String.eqb k' k then (k, v) :: rest else (k', v') :: obj_set k v rest
  end.

Fixpoint obj_get {A} (k : string) (o : list (string * A)) : option A :=
  match o with
  | [] => None
  | (k', v) :: rest => if String.eqb k' k then Some v else obj_get k rest
  end.

Definition is_ws (c : ascii) : bool :=
  let n := Str.code c in (n =? 32) || (n =? 9) || (n =? 10) || (n =? 13).

Fixpoint skip_ws (s : list ascii) : list ascii :=
  match s with
  | c :: rest => if is_ws c then skip_ws rest else s
  | [] => []
  end.

Definition digit_val (c : ascii) : option Z :=
  let n := Str.code c in
  if (48 <=? n) && (n <=? 57) then Some (n - 48) else None.

Definition hex_val (c : ascii) : option Z :=
  let n := Str.code c in
  if (48 <=? n) && (n <=? 57) then Some (n - 48)
  else if (97 <=? n) && (n <=? 102) then Some (n - 87)
  else if (65 <=? n) && (n <=? 70) then Some (n - 55)
  else None.

(** The characters of a string literal after the opening quote. *)
Fixpoint parse_string (s : list ascii) (acc : list ascii) : option (string * list ascii) :=
  match s with
  | [] => None
  | c :: rest =>
      let n := Str.code c in
      if n =? 34 then Some (Str.of_chars (rev acc), rest)
      else if n =? 92 then
        match rest with
        | e :: rest' =>
            let m := Str.code e in
            let simple (z : Z) := parse_string rest' (Str.char_of_code z :: acc) in
            if m =? 34 then simple 34
            else if m =? 92 then simple 92
            else if m =? 47 then simple 47
            else if m =? 98 then simple 8
            else if m =? 102 then simple 12
            else if m =? 110 then simple 10
            else if m =? 114 then simple 13
            else if m =? 116 then simple 9
            else if m =? 117 then
              match rest' with
              | a :: b :: c' :: d :: rest'' =>
                  match hex_val a, hex_val b, hex_val c', hex_val d with
                  | Some 0, Some 0, Some h, Some l =>
                      parse_string rest'' (Str.char_of_code (16 * h + l) :: acc)
                  | _, _, _, _ => None
                  end
              | _ => None
              end
            else None
        | [] => None
        end
      else if n <? 32 then None
      else parse_string rest (c :: acc)
  end.

Fixpoint parse_digits (s : list ascii) (acc : Z) : Z * list ascii :=
  match s with
  | c :: rest =>
      match digit_val c with
      | Some d => parse_digits rest (10 * acc + d)
      | None => (acc, s)
      end
  | [] => (acc, [])
  end.

Definition parse_number (s : list ascii) : option (json * list ascii) :=
  let '(neg, s1) :=
    match s with
    | c :: rest => if Str.code c =? 45 then (true, rest) else (false, s)
    | [] => (false, s)
    end in
  match s1 with
  | c :: rest =>
      match digit_val c with
      | Some d =>
          let '(n, s2) :=
            if d =? 0 then (0, rest) else parse_digits rest d in
          match s2 with
          | c2 :: _ =>
              let m := Str.code c2 in
              if (m =? 46) || (m =? 101) || (m =? 69) || (48 <=? m) && (m <=? 57)
              then None
              else Some (JNum (if neg then - n else n), s2)
          | [] => Some (JNum (if neg then - n else n), s2)
          end
      | None => None
      end
  | [] => None
  end.

Fixpoint parse_value (fuel : nat) (s : list ascii) : option (json * list ascii) :=
  match fuel with
  | O => None
  | S fuel' =>
      match skip_ws s with
      | [] => None
      | c :: rest =>
          let n := Str.code c in
          if n =? 34 then
            match parse_string rest [] with
            | Some (str, rest') => Some (JStr str, rest')
            | None => None
            end
          else if n =? 91 then
            match skip_ws rest with
            | c' :: rest' =>
                if Str.code c' =? 93 then Some (JArr [], rest')
                else parse_items fuel' rest []
            | [] => None
            end
          else if n =? 123 then
            match skip_ws rest with
            | c' :: rest' =>
                if Str.code c' =? 125 then Some (JObj [], rest')
                else parse_fields fuel' rest []
            | [] => None
            end
          else
            match c :: rest with
            | "n"%char :: "u"%char :: "l"%char :: "l"%char :: r => Some (JNull, r)
            | "t"%char :: "r"%char :: "u"%char :: "e"%char :: r => Some (JBool true, r)
            | "f"%char :: "a"%char :: "l"%char :: "s"%char :: "e"%char :: r =>
                Some (JBool false, r)
            | _ => parse_number (c :: rest)
            end
      end
  end
with parse_items (fuel : nat) (s : list ascii) (acc : list json)
  : option (json * list ascii) :=
  match fuel with
  | O => None
  | S fuel' =>
      match parse_value fuel' s with
      | Some (v, rest) =>
          match skip_ws rest with
          | c :: rest' =>
              if Str.code c =? 44 then parse_items fuel' rest' (acc ++ [v])
              else if Str.code c =? 93 then Some (JArr (acc ++ [v]), rest')
              else None
          | [] => None
          end
      | None => None
      end
  end
with parse_fields (fuel : nat) (s : list ascii) (acc : list (string * json))
  : option (json * list ascii) :=
  match fuel with
  | O => None
  | S fuel' =>
      match skip_ws s with
      | q :: s1 =>
          if Str.code q =? 34 then
            match parse_string s1 [] with
            | Some (k, s2) =>
                match skip_ws s2 with
                | colon :: s3 =>
                    if Str.code colon =? 58 then
                      match parse_value fuel' s3 with
                      | Some (v, rest) =>
                          match skip_ws rest with
                          | c :: rest' =>
                              if Str.code c =? 44
                              then parse_fields fuel' rest' (obj_set k v acc)
                              else if Str.code c =? 125
                              then Some (JObj (obj_set k v acc), rest')
                              else None
                          | [] => None
                          end
                      | None => None
                      end
                    else None
                | [] => None
                end
            | None => None
            end
          else None
      | [] => None
      end
  end.

(** [JSON.parse(text)]; [None] when it throws a [SyntaxError]. *)
Definition parse (text : string) : option json :=
  let s := Str.chars text in
  match parse_value (2 * length s + 2) s with
  | Some (v, rest) =>
      match skip_ws rest with
      | [] => Some v
      | _ => None
      end
  | None => None
  end.

End Json.

(** ** The world: file system, registry, caches, promises, trace *)

Inductive Node := File (data : string) | Dir.

Inductive os := windows | macos | linux.

Definition os_name (o : os) : string :=
  match o with windows => "windows" | macos => "macos" | linux => "linux" end.

(** [class BuildError extends Error]; every other exception is an [Error]. *)
Inductive Err :=
| BuildError (message : string)
| Error (message : string).

(** The result of running a piece of code: it returns, it throws, or it
    recurses deeper than the fuel allows (a call stack that does not
    unwind). *)
Inductive Outcome (A : Type) :=
| Ok (a : A)
| Throw (e : Err)
| Diverge.
Arguments Ok {A} a.
Arguments Throw {A} e.
Arguments Diverge {A}.

(** A settled promise. *)
Inductive Settled :=
| Fulfilled
| Failed (e : Err).

Inductive Event :=
| ConsoleLog (text : string)
| ConsoleError (text : string)
| ConsoleWarn (text : string)
| Spawn (command : list string)
| Delete (file : string)
| Mkdir (dir : string)
| Call (ref : nat)
| WriteFile (path data : string)
| Exit (code : Z).

#[global] Instance Event_eq_dec : EqDecision Event.
Proof. solve_decision. Defined.

(** What the closure of a task captures. *)
Inductive Kind :=
| Rule (targets prerequisites : list string) (recipe : list (list string))
| Cpp (objFile depsFile : string) (depends : list string)
      (objCommand depsCommand : list string)
| Link (exeFile : string) (depends : list string) (linkCommand : list string).

(** A task object: the closure, [label], whether [keyFn] is defined, and
    the properties set while building. *)
Record Task := mkTask {
  kind : Kind;
  label : string;
  keyFn : bool;
  cachedKey : option json;
  pending : option nat;
  from : option string
}.

Record Options := mkOptions {
  objPrefix : string;
  objSuffix : string;
  exeSuffix : string;
  depends : list string;
  CPPFlags : list string;
  LINKLibs : list string
}.

Record World := mkWorld {
  OS : os;
  CPUS : nat;
  options : Options;
  files : gmap string Node;
  tasks : list (string * nat);
  store : list Task;
  hashCache : gmap string string;
  hashCacheHits : nat;
  promises : list Settled;
  trace : list Event
}.

Definition set_options (o : Options) (w : World) : World :=
  mkWorld (OS w) (CPUS w) o (files w) (tasks w) (store w) (hashCache w)
          (hashCacheHits w) (promises w) (trace w).
Definition set_files (f : gmap string Node) (w : World) : World :=
  mkWorld (OS w) (CPUS w) (options w) f (tasks w) (store w) (hashCache w)
          (hashCacheHits w) (promises w) (trace w).
Definition set_tasks (t : list (string * nat)) (w : World) : World :=
  mkWorld (OS w) (CPUS w) (options w) (files w) t (store w) (hashCache w)
          (hashCacheHits w) (promises w) (trace w).
Definition set_store (s : list Task) (w : World) : World :=
  mkWorld (OS w) (CPUS w) (options w) (files w) (tasks w) s (hashCache w)
          (hashCacheHits w) (promises w) (trace w).
Definition set_hashCache (h : gmap string string) (w : World) : World :=
  mkWorld (OS w) (CPUS w) (options w) (files w) (tasks w) (store w) h
          (hashCacheHits w) (promises w) (trace w).
Definition set_hashCacheHits (n : nat) (w : World) : World :=
  mkWorld (OS w) (CPUS w) (options w) (files w) (tasks w) (store w) (hashCache w)
          n (promises w) (trace w).
Definition set_promises (p : list Settled) (w : World) : World :=
  mkWorld (OS w) (CPUS w) (options w) (files w) (tasks w) (store w) (hashCache w)
          (hashCacheHits w) p (trace w).
Definition set_trace (t : list Event) (w : World) : World :=
  mkWorld (OS w) (CPUS w) (options w) (files w) (tasks w) (store w) (hashCache w)
          (hashCacheHits w) (promises w) t.

Definition set_cachedKey (k : option json) (t : Task) : Task :=
  mkTask (kind t) (label t) (keyFn t) k (pending t) (from t).
Definition set_pending (p : option nat) (t : Task) : Task :=
  mkTask (kind t) (label t) (keyFn t) (cachedKey t) p (from t).
Definition set_from (f : option string) (t : Task) : Task :=
  mkTask (kind t) (label t) (keyFn t) (cachedKey t) (pending t) f.

(** [const JOBS = require('os').cpus().length + 1;] *)
Definition JOBS (w : World) : nat := CPUS w + 1.

Definition CACHE_FILE : string := "maek-cache.json".

(** ** Code with effects: a state and exception monad over the world *)

Definition M (A : Type) : Type := World -> Outcome A * World.

Definition ret {A} (a : A) : M A := fun w => (Ok a, w).

Definition bind {A B} (m : M A) (k : A -> M B) : M B := fun w =>
  match m w with
  | (Ok a, w') => k a w'
  | (Throw e, w') => (Throw e, w')
  | (Diverge, w') => (Diverge, w')
  end.

Notation "'let*' x := m 'in' k" := (bind m (fun x => k))
  (at level 10, x name, m at level 200, k at level 200).

Definition throw {A} (e : Err) : M A := fun w => (Throw e, w).
Definition gets {A} (f : World -> A) : M A := fun w => (Ok (f w), w).
Definition modify (f : World -> World) : M unit := fun w => (Ok tt, f w).
Definition emit (e : Event) : M unit :=
  modify (fun w => set_trace (trace w ++ [e]) w).

(** [for (const x of l) { body(x) }] *)
Fixpoint for_each {A} (l : list A) (body : A -> M unit) : M unit :=
  match l with
  | [] => ret tt
  | x :: rest => let* _ := body x in for_each rest body
  end.

(** The task object behind a reference. *)
Definition get_task (ref : nat) : M Task := fun w =>
  match store w !! ref with
  | Some t => (Ok t, w)
  | None => (Throw (Error "TypeError: task is undefined"), w)
  end.

Definition update_task (ref : nat) (f : Task -> Task) : M unit :=
  modify (fun w => set_store (alter f ref (store w)) w).

(** [delete hashCache[file]] *)
Definition delete_hash (file : string) : M unit :=
  let* _ := emit (Delete file) in
  modify (fun w => set_hashCache (delete file (hashCache w)) w).

(** ** [hashFiles] *)

(** [target[0] === ':'] *)
Definition is_abstract (target : string) : bool :=
  Str.starts_with_char ":"%char target.

(** What [fs.readFile] and the digest give for [file]: the callback of
    [hashFile]. *)
Definition hash_record (fs : gmap string Node) (file : string) : string :=
  match fs !! file with
  | Some (File data) => file +:+ ":" +:+ md5_base64 data
  | _ => file +:+ ":x"
  end.

(** [hashFile] up to its [await]: a file in the cache is a hit and its
    record is returned; for any other file the read is started. *)
Definition hashFile_begin (file : string) : M (option string) := fun w =>
  match hashCache w !! file with
  | Some h => (Ok (Some h), set_hashCacheHits (hashCacheHits w + 1) w)
  | None => (Ok None, w)
  end.

(** [hashFile] after its [await]: the read is over, the record is stored
    in the cache and returned. *)
Definition hashFile_end (file : string) : M string := fun w =>
  let hash := hash_record (files w) file in
  (Ok hash, set_hashCache (<[file := hash]> (hashCache w)) w).

Fixpoint hashFiles_begin (fs : list string) : M (list (string * option string)) :=
  match fs with
  | [] => ret []
  | file :: rest =>
      let* r := hashFile_begin file in
      let* rs := hashFiles_begin rest in
      ret ((file, r) :: rs)
  end.

Fixpoint hashFiles_end (started : list (string * option string)) : M (list string) :=
  match started with
  | [] => ret []
  | (file, Some h) :: rest =>
      let* hs := hashFiles_end rest in
      ret (h :: hs)
  | (file, None) :: rest =>
      let* h := hashFile_end file in
      let* hs := hashFiles_end rest in
      ret (h :: hs)
  end.

(** [files.map(hashFile)] calls every [hashFile] before any read
    completes; [Promise.all] keeps the order of [files]. *)
Definition hashFiles (targets : list string) : M (list string) :=
  let fs := filter (fun target => is_abstract target = false) targets in
  let* started := hashFiles_begin fs in
  hashFiles_end started.

(** ** Options and paths *)

(** [DEFAULT_OPTIONS] *)
Definition DEFAULT_OPTIONS (o : os) : Options :=
  mkOptions "objs/"
            (match o with windows => ".obj" | _ => ".o" end)
            (match o with windows => ".exe" | _ => "" end)
            [] [] [].

(** The options object given to one rule: the keys it sets.  (A key that
    [DEFAULT_OPTIONS] does not have cannot be written in this type; the
    source throws for it.) *)
Record LocalOptions := mkLocal {
  l_objPrefix : option string;
  l_objSuffix : option string;
  l_exeSuffix : option string;
  l_depends : option (list string);
  l_CPPFlags : option (list string);
  l_LINKLibs : option (list string)
}.

Definition no_options : LocalOptions := mkLocal None None None None None None.

(** [combineOptions(localOptions)]: [maek.options] holds every key, so it
    overrides the whole copy of [DEFAULT_OPTIONS]; [localOptions] then
    overrides the keys it sets. *)
Definition combineOptions (l : LocalOptions) : M Options :=
  let* g := gets options in
  ret (mkOptions (default (objPrefix g) (l_objPrefix l))
                 (default (objSuffix g) (l_objSuffix l))
                 (default (exeSuffix g) (l_exeSuffix l))
                 (default (depends g) (l_depends l))
                 (default (CPPFlags g) (l_CPPFlags l))
                 (default (LINKLibs g) (l_LINKLibs l))).

Module Path.

Definition SLASH : ascii := "/"%char.
Definition DOT : ascii := "."%char.

(** The loop of node's [posix.dirname], over the characters at indices
    [i], [i-1], ..., [1]. *)
Fixpoint dirname_end (back : list ascii) (i : nat) (matchedSlash : bool) : option nat :=
  match back with
  | [] => None
  | c :: rest =>
      if Ascii.eqb c SLASH then
        if matchedSlash then dirname_end rest (i - 1) true else Some i
      else dirname_end rest (i - 1) false
  end.

Definition dirname (path : string) : string :=
  match Str.chars path with
  | [] => "."
  | c :: rest =>
      let hasRoot := Ascii.eqb c SLASH in
      match dirname_end (rev rest) (length rest) true with
      | None => if hasRoot then "/" else "."
      | Some e =>
          if hasRoot && Nat.eqb e 1 then "//"
          else Str.of_chars (take e (c :: rest))
      end
  end.

(** [s.replace(/\.[^.]*$/, '')]: drop the last dot and what follows it. *)
Fixpoint strip_ext_rev (back : list ascii) : option (list ascii) :=
  match back with
  | [] => None
  | c :: rest => if Ascii.eqb c DOT then Some rest else strip_ext_rev rest
  end.

Definition strip_ext (s : string) : string :=
  match strip_ext_rev (rev (Str.chars s)) with
  | Some front => Str.of_chars (rev front)
  | None => s
  end.

End Path.

(** ** Build rules: [RULE], [CPP], [LINK] add tasks to [maek.tasks] *)

(** A new task object. *)
Definition new_task (t : Task) : M nat := fun w =>
  (Ok (length (store w)), set_store (store w ++ [t]) w).

(** [maek.tasks[target] = task] *)
Definition register (target : string) (ref : nat) : M unit :=
  modify (fun w => set_tasks (Json.obj_set target ref (tasks w)) w).

(** [target in maek.tasks] and [maek.tasks[target]] *)
Definition lookup_task (w : World) (target : string) : option nat :=
  Json.obj_get target (tasks w).

Definition quoted_list (l : list string) : string :=
  "'" +:+ Str.join "', '" l +:+ "'".

Definition RULE (targets prerequisites : list string) (recipe : list (list string))
  : M unit :=
  let task :=
    mkTask (Rule targets prerequisites recipe)
           ("RULE " +:+ quoted_list prerequisites +:+ " -> " +:+ quoted_list targets)
           (negb (existsb is_abstract targets))
           None None None in
  let* ref := new_task task in
  for_each targets (fun target => register target ref).

(** [maek.CPP(cppFile, objFileBase, localOptions)].  Without [objFileBase]
    the source takes [path.relative('', objPrefix + stem)], which is that
    path itself when it is relative and has no [.], [..] or empty
    segment; other prefixes are outside the model. *)
Definition CPP (cppFile : string) (objFileBase : option string) (l : LocalOptions)
  : M string :=
  let* opts := combineOptions l in
  let base :=
    default (objPrefix opts +:+ Path.strip_ext cppFile) objFileBase in
  let objFile := base +:+ objSuffix opts in
  let depsFile := base +:+ ".d" in
  let deps := cppFile :: depends opts in
  let* o := gets OS in
  let* cc :=
    match o with
    | linux => ret (["g++"; "-std=c++20"; "-Wall"; "-Werror"; "-g"] ++ CPPFlags opts)
    | macos => ret (["clang++"; "-std=c++20"; "-Wall"; "-Werror"; "-g"] ++ CPPFlags opts)
    | windows => throw (Error ("TODO: write CPP rule for " +:+ os_name o +:+ "."))
    end in
  let depsCommand := cc ++ ["-E"; "-M"; "-MG"; "-MT"; "x "; "-MF"; depsFile; cppFile] in
  let objCommand := cc ++ ["-c"; "-o"; objFile; cppFile] in
  let task :=
    mkTask (Cpp objFile depsFile deps objCommand depsCommand)
           ("CPP " +:+ quoted_list deps +:+ " -> '" +:+ objFile +:+ "'")
           true None None None in
  let* ref := new_task task in
  let* _ := register objFile ref in
  ret objFile.

(** [maek.LINK(objFiles, exeFileBase, localOptions)] *)
Definition LINK (objFiles : list string) (exeFileBase : string) (l : LocalOptions)
  : M string :=
  let* opts := combineOptions l in
  let exeFile := exeFileBase +:+ exeSuffix opts in
  let* o := gets OS in
  let* link :=
    match o with
    | linux => ret ["g++"; "-std=c++20"; "-Wall"; "-Werror"; "-g"]
    | macos => ret ["g++"; "-std=c++20"; "-Wall"; "-Werror"; "-g"]
    | windows => throw (Error ("TODO: write LINK rule for " +:+ os_name o +:+ "."))
    end in
  let linkCommand := link ++ ["-o"; exeFile] ++ objFiles ++ LINKLibs opts in
  let deps := objFiles ++ depends opts in
  let task :=
    mkTask (Link exeFile deps linkCommand)
           ("LINK " +:+ quoted_list deps +:+ " -> '" +:+ exeFile +:+ "'")
           true None None None in
  let* ref := new_task task in
  let* _ := register exeFile ref in
  ret exeFile.

(** The state [init_maek] returns: no task, empty caches. *)
Definition init_maek (o : os) (cpus : nat) (fs : gmap string Node) : World :=
  mkWorld o cpus (DEFAULT_OPTIONS o) fs [] [] ∅ 0 [] [].

(** ** Helper functions used by the build rules *)

(** How a child process ends: the [exit] event with its code ([None] is
    the [null] of a process killed by a signal), or the [error] event. *)
Inductive ChildResult :=
| Exited (code : option Z)
| SpawnError (message : string).

(** The character class of the test in [runCommand]: space, tab, newline,
    double quote and the punctuation below. *)
Definition shell_special (c : ascii) : bool :=
  existsb (Ascii.eqb c)
    (DepFile.TAB :: DepFile.NEWLINE :: Str.DQUOTE :: Str.chars " !'$&()*,;<>?[\]^`{|}~").

Definition needs_quote (token : string) : bool :=
  existsb shell_special (Str.chars token)
  || Str.starts_with_char "="%char token
  || Str.starts_with_char "#"%char token.

(** [token.replace(/'/g, "'\\''")] *)
Fixpoint escape_quotes (token : string) : string :=
  match token with
  | EmptyString => ""
  | String c rest =>
      (if Ascii.eqb c "'"%char then "'\''" else String c "") +:+ escape_quotes rest
  end.

(** The command as it can be pasted into a shell. *)
Definition prettyCommand (command : list string) : string :=
  fold_left
    (fun pretty token =>
       let pretty := if String.eqb pretty "" then pretty else pretty +:+ " " in
       if needs_quote token
       then pretty +:+ "'" +:+ escape_quotes token +:+ "'"
       else pretty +:+ token)
    command "".

Definition code_text (code : option Z) : string :=
  match code with Some n => Str.of_Z n | None => "null" end.

(** [console.assert(cond)] *)
Definition console_assert (cond : bool) : M unit :=
  if cond then ret tt else emit (ConsoleError "Assertion failed").

(** [loadDeps()] of the task made by [maek.CPP]. *)
Definition loadDeps (depsFile : string) (deps : list string) : M (list string) :=
  let inDepends : gmap string bool :=
    fold_left (fun m d => <[d := true]> m) deps ∅ in
  let* fs := gets files in
  match fs !! depsFile with
  | Some (File text) =>
      let tokens := DepFile.tokenize text in
      let* _ := console_assert (bool_decide (tokens !! 0%nat = Some "x")) in
      let* _ := console_assert (bool_decide (tokens !! 1%nat = Some ":")) in
      ret (DepFile.extraDepends inDepends tokens)
  | _ => ret []
  end.

(** [assertNontargets(prerequisites, ruleName)]; the test of the loop is
    [('target' in maek.tasks)]. *)
Definition assertNontargets (prerequisites : list string) (ruleName : string) : M unit :=
  let* w := gets id in
  let errorFiles :=
    filter (fun target => is_Some (lookup_task w "target")) prerequisites in
  match errorFiles with
  | [] => ret tt
  | _ =>
      throw (BuildError
        ("the following *generated* files are required but not mentioned as dependancies:"
         +:+ String DepFile.NEWLINE "  "
         +:+ Str.join (String DepFile.NEWLINE "  ") errorFiles))
  end.

(** [fsPromises.mkdir(dir, {recursive:true})]: fails when a file is in
    the way. *)
Definition mkdir (dir : string) : M unit :=
  let* _ := emit (Mkdir dir) in
  let* fs := gets files in
  match fs !! dir with
  | Some (File _) => throw (Error ("EEXIST: file already exists, mkdir '" +:+ dir +:+ "'"))
  | _ => modify (set_files (<[dir := Dir]> fs))
  end.

Section Engine.

(** What running a command does to the files, and how the command ends. *)
Variable exec : list string -> gmap string Node -> ChildResult * gmap string Node.

(** [runCommand(command, message)]; the job limiter is modelled apart
    (module [JobLimiter]), here the job runs at once. *)
Definition runCommand (command : list string) (message : string) : M unit :=
  let* _ := emit (ConsoleLog message) in
  let pretty := prettyCommand command in
  let* _ := emit (ConsoleLog ("   " +:+ pretty)) in
  let* _ := emit (Spawn command) in
  let* fs := gets files in
  let '(result, fs') := exec command fs in
  let* _ := modify (set_files fs') in
  match result with
  | Exited (Some 0) => ret tt
  | Exited code =>
      throw (BuildError ("command exited with code " +:+ code_text code +:+ "."
                         +:+ String DepFile.NEWLINE "  " +:+ pretty))
  | SpawnError msg =>
      throw (BuildError ("command error (" +:+ msg +:+ ")."
                         +:+ String DepFile.NEWLINE "  " +:+ pretty))
  end.

(** The recipe of a [RULE], command [step] of [total] first. *)
Fixpoint run_recipe (lbl : string) (total : nat) (step : nat) (recipe : list (list string))
  : M unit :=
  match recipe with
  | [] => ret tt
  | command :: rest =>
      let* _ :=
        runCommand command
          (lbl +:+ " (" +:+ Str.of_Z (Z.of_nat step) +:+ "/"
               +:+ Str.of_Z (Z.of_nat total) +:+ ")") in
      run_recipe lbl total (S step) rest
  end.

Definition command_json (command : list string) : json := JArr (JStr <$> command).

Section Step.

(** [updateTargets], as the code under definition calls it. *)
Variable updateTargets : list string -> string -> M unit.

(** The body of [task]: the closure that the rule made. *)
Definition task_body (t : Task) : M unit :=
  match kind t with
  | Rule targets prerequisites recipe =>
      let* _ := updateTargets prerequisites (label t) in
      let* _ := run_recipe (label t) (length recipe) 1 recipe in
      for_each targets delete_hash
  | Cpp objFile depsFile deps objCommand depsCommand =>
      let* _ := updateTargets deps (label t) in
      let* _ := delete_hash objFile in
      let* _ := mkdir (Path.dirname objFile) in
      let* _ := runCommand objCommand (label t +:+ ": compile") in
      let* _ := delete_hash depsFile in
      let* _ := mkdir (Path.dirname depsFile) in
      let* _ := runCommand depsCommand (label t +:+ ": prerequisites") in
      let* extraDepends := loadDeps depsFile deps in
      assertNontargets extraDepends (label t)
  | Link exeFile deps linkCommand =>
      let* _ := updateTargets deps (label t) in
      let* _ := delete_hash exeFile in
      let* _ := mkdir (Path.dirname exeFile) in
      runCommand linkCommand (label t +:+ ": link")
  end.

(** [task()]: the call is recorded in the trace. *)
Definition run_task (ref : nat) (t : Task) : M unit :=
  let* _ := emit (Call ref) in
  task_body t.

(** [task.keyFn()] *)
Definition run_keyFn (t : Task) : M json :=
  match kind t with
  | Rule targets prerequisites recipe =>
      let* _ := updateTargets prerequisites (label t +:+ " (keyFn)") in
      let* hashes := hashFiles (targets ++ prerequisites) in
      ret (JArr ((command_json <$> recipe) ++ (JStr <$> hashes)))
  | Cpp objFile depsFile deps objCommand depsCommand =>
      let* _ := updateTargets deps (label t +:+ " (keyFn)") in
      let* extraDepends := loadDeps depsFile deps in
      let* _ := assertNontargets extraDepends (label t) in
      let* hashes := hashFiles ([objFile; depsFile] ++ deps ++ extraDepends) in
      ret (JArr ([command_json objCommand; command_json depsCommand] ++ (JStr <$> hashes)))
  | Link exeFile deps linkCommand =>
      let* _ := updateTargets deps (label t +:+ " (keyFn)") in
      let* hashes := hashFiles (exeFile :: deps) in
      ret (JArr (command_json linkCommand :: (JStr <$> hashes)))
  end.

(** The [try] block of the function behind [task.pending]. *)
Definition attempt (ref : nat) (t : Task) : M unit :=
  let* hit :=
    match cachedKey t, keyFn t with
    | Some cached, true =>
        let* key := run_keyFn t in
        ret (String.eqb (Json.stringify key) (Json.stringify cached))
    | _, _ => ret false
    end in
  if hit then ret tt
  else
    let* _ := run_task ref t in
    if keyFn t then
      let* key := run_keyFn t in
      update_task ref (set_cachedKey (Some key))
    else ret tt.

(** The function behind [task.pending]: the [try] block and its [catch]. *)
Definition launch (ref : nat) (t : Task) (requester : string) : M unit := fun w =>
  match attempt ref t w with
  | (Throw (BuildError message), w') =>
      (let* _ :=
         emit (ConsoleError ("FAILED: " +:+ label t +:+ " (requested by " +:+ requester
                             +:+ "): " +:+ message)) in
       throw (BuildError "prerequisite failed.")) w'
  | r => r
  end.

(** A promise for code that is run to its end: its handle is the index of
    the settled outcome in the promise table. *)
Definition promise (m : M unit) : M nat := fun w =>
  match m w with
  | (Ok _, w') => (Ok (length (promises w')), set_promises (promises w' ++ [Fulfilled]) w')
  | (Throw e, w') => (Ok (length (promises w')), set_promises (promises w' ++ [Failed e]) w')
  | (Diverge, w') => (Diverge, w')
  end.

(** [fsPromises.access(target, fs.constants.R_OK).catch(...)] *)
Definition check_exists (target requester : string) : M unit :=
  let* fs := gets files in
  match fs !! target with
  | Some _ => ret tt
  | None =>
      throw (BuildError ("Target '" +:+ target +:+ "' (requested by " +:+ requester
                         +:+ ") doesn't exist and doesn't have a task to make it."))
  end.

(** The [for] loop of [updateTargets]; [handles] is the array [pending]. *)
Fixpoint request (targets : list string) (requester : string) (handles : list nat)
  : M (list nat) :=
  match targets with
  | [] => ret handles
  | target :: rest =>
      let* w := gets id in
      match lookup_task w target with
      | Some ref =>
          let* t := get_task ref in
          match pending t with
          | Some h => request rest requester (handles ++ [h])
          | None =>
              let* _ := update_task ref (set_from (Some requester)) in
              let* h := promise (launch ref (set_from (Some requester) t) requester) in
              let* _ := update_task ref (set_pending (Some h)) in
              request rest requester (handles ++ [h])
          end
      | None =>
          if is_abstract target then
            throw (BuildError ("Target '" +:+ target +:+ "' (requested by " +:+ requester
                               +:+ ") is abstract but doesn't have a task."))
          else
            let* h := promise (check_exists target requester) in
            request rest requester (handles ++ [h])
      end
  end.

(** [await Promise.all(pending)] over settled promises. *)
Fixpoint await_all (handles : list nat) : M unit :=
  match handles with
  | [] => ret tt
  | h :: rest =>
      let* ps := gets promises in
      match ps !! h with
      | Some (Failed e) => throw e
      | _ => await_all rest
      end
  end.

Definition updateTargets_body (targets : list string) (requester : string) : M unit :=
  let* handles := request targets requester [] in
  await_all handles.

End Step.

(** [updateTargets(targets, from)], to a depth of [fuel] nested calls. *)
Fixpoint updateTargets (fuel : nat) (targets : list string) (requester : string) : M unit :=
  match fuel with
  | O => fun w => (Diverge, w)
  | S fuel' => updateTargets_body (updateTargets fuel') targets requester
  end.

(** ** Public interface: [maek.update] *)

(** How a run of the driver ends: [maek.update] returns, the process
    exits, the promise of [maek.update] is rejected, or no result. *)
Inductive DriverOutcome :=
| Finished
| ProcessExit (code : Z)
| Rejected (e : Err)
| NoResult.

(** [for (const target of Object.keys(maek.tasks)) delete maek.tasks[target].cachedKey;] *)
Definition clear_cachedKeys : M unit :=
  let* regs := gets tasks in
  for_each regs (fun entry => update_task (snd entry) (set_cachedKey None)).

(** [Object.keys(cache)] with [cache[key]] for each key; [None] when
    [Object.keys] throws.  (Keys that look like array indices are not
    moved to the front.) *)
Definition entries (cache : json) : option (list (string * json)) :=
  match cache with
  | JObj fields => Some fields
  | JArr items => Some (imap (fun i v => (Str.of_Z (Z.of_nat i), v)) items)
  | JStr s =>
      Some (imap (fun i c => (Str.of_Z (Z.of_nat i), JStr (String c ""))) (Str.chars s))
  | JNull => None
  | JBool _ | JNum _ => Some []
  end.

(** The loop over [Object.keys(cache)], counting [assigned] and [removed]. *)
Fixpoint assign_cache (es : list (string * json)) (assigned removed : nat)
  : M (nat * nat) :=
  match es with
  | [] => ret (assigned, removed)
  | (target, value) :: rest =>
      let* w := gets id in
      match lookup_task w target with
      | Some ref =>
          let* _ := update_task ref (set_cachedKey (Some value)) in
          assign_cache rest (S assigned) removed
      | None => assign_cache rest assigned (S removed)
      end
  end.

Definition start_fresh (unexpected : bool) : M unit :=
  let* _ := emit (ConsoleLog "   No cache loaded; starting fresh.") in
  if unexpected
  then emit (ConsoleWarn
         "By the way, the reason the loading failed was the following unexpected error:")
  else ret tt.

(** The [try] / [catch] that loads [cachedKey] values from the cache file. *)
Definition load_cache : M unit :=
  let* fs := gets files in
  match fs !! CACHE_FILE with
  | None => start_fresh false
  | Some Dir => start_fresh true
  | Some (File text) =>
      match Json.parse text with
      | None => start_fresh true
      | Some cache =>
          match entries cache with
          | None => start_fresh true
          | Some es =>
              let* counts := assign_cache es 0 0 in
              emit (ConsoleLog
                ("   Loaded cache from '" +:+ CACHE_FILE +:+ "'; assigned "
                 +:+ Str.of_Z (Z.of_nat (fst counts)) +:+ " targets and removed "
                 +:+ Str.of_Z (Z.of_nat (snd counts)) +:+ " stale entries."))
          end
      end
  end.

(** ['cachedKey' in maek.tasks[target]] *)
Definition has_cachedKey (w : World) (ref : nat) : Prop :=
  exists t key, store w !! ref = Some t /\ cachedKey t = Some key.

#[global] Instance has_cachedKey_dec w ref : Decision (has_cachedKey w ref).
Proof.
  unfold has_cachedKey.
  destruct (store w !! ref) as [t|]; [destruct (cachedKey t) as [k|] eqn:Hk|].
  - left. exists t, k. split; [reflexivity | exact Hk].
  - right. intros (t' & k & Ht & Hk'). injection Ht as <-. congruence.
  - right. intros (t' & k & Ht & _). discriminate.
Defined.

(** The object [cache] built from the tasks that have a [cachedKey]. *)
Definition collect_cache (w : World) : list (string * json) :=
  fold_left
    (fun cache entry =>
       match store w !! snd entry with
       | Some t =>
           match cachedKey t with
           | Some key => Json.obj_set (fst entry) key cache
           | None => cache
           end
       | None => cache
       end)
    (tasks w) [].

(** The pairs of a target and the [cachedKey] of its task, for the tasks
    that have one, in the order of [Object.keys(maek.tasks)]. *)
Definition cached_entries (w : World) : list (string * json) :=
  omap (fun entry =>
          match store w !! snd entry with
          | Some t =>
              match cachedKey t with
              | Some key => Some (fst entry, key)
              | None => None
              end
          | None => None
          end)
       (tasks w).

(** [fs.writeFileSync(path, data)] *)
Definition writeFileSync (path data : string) : M unit :=
  let* fs := gets files in
  match fs !! path with
  | Some Dir => throw (Error ("EISDIR: illegal operation on a directory, open '" +:+ path +:+ "'"))
  | _ =>
      let* _ := emit (WriteFile path data) in
      modify (set_files (<[path := File data]> fs))
  end.

(** The end of [maek.update]: store [cachedKey] values. *)
Definition store_cache : M unit :=
  let* w := gets id in
  let cache := collect_cache w in
  let stored := length (filter (fun entry => has_cachedKey w (snd entry)) (tasks w)) in
  let* _ :=
    emit (ConsoleLog ("Writing cache with " +:+ Str.of_Z (Z.of_nat stored)
                      +:+ " entries to '" +:+ CACHE_FILE +:+ "'...")) in
  let* _ := writeFileSync CACHE_FILE (Json.stringify (JObj cache)) in
  let* w' := gets id in
  emit (ConsoleLog ("hashCache ended up with "
                    +:+ Str.of_Z (Z.of_nat (size (hashCache w')))
                    +:+ " items and handled "
                    +:+ Str.of_Z (Z.of_nat (hashCacheHits w')) +:+ " hits.")).

Definition banner (targets : list string) : M unit :=
  let* w := gets id in
  emit (ConsoleLog ("Maek v0.0 on " +:+ os_name (OS w) +:+ " with "
                    +:+ Str.of_Z (Z.of_nat (JOBS w)) +:+ " max jobs updating "
                    +:+ quoted_list targets +:+ "...")).

Definition settle (r : Outcome unit * World) : DriverOutcome * World :=
  match r with
  | (Ok _, w) => (Finished, w)
  | (Throw e, w) => (Rejected e, w)
  | (Diverge, w) => (NoResult, w)
  end.

(** [maek.update(targets)] before the build: the banner, and the cached
    keys cleared and loaded. *)
Definition prepare (targets : list string) : M unit :=
  let* _ := banner targets in
  let* _ := clear_cachedKeys in
  load_cache.

(** [maek.update(targets)] *)
Definition update (fuel : nat) (targets : list string) (w : World)
  : DriverOutcome * World :=
  match prepare targets w with
  | (Ok _, w1) =>
      match updateTargets fuel targets "user" w1 with
      | (Throw (BuildError message), w2) =>
          (ProcessExit 1,
           snd ((let* _ := emit (ConsoleError ("FAILED: " +:+ message)) in
                 emit (Exit 1)) w2))
      | (Ok _, w2) => settle (store_cache w2)
      | r => settle r
      end
  | r => settle r
  end.

End Engine.

(** ** Reading the trace *)

(** The commands spawned so far, in order. *)
Definition spawned (w : World) : list (list string) :=
  omap (fun e => match e with Spawn c => Some c | _ => None end) (trace w).

(** The files written with [fs.writeFileSync] so far. *)
Definition written (w : World) : list (string * string) :=
  omap (fun e => match e with WriteFile p d => Some (p, d) | _ => None end) (trace w).

(** The spawned commands and the deletions from the hash cache, in the
    order in which they happen. *)
Inductive Mark :=
| Ran (command : list string)
| Invalidated (file : string).

#[global] Instance Mark_eq_dec : EqDecision Mark.
Proof. solve_decision. Defined.

Definition marks (w : World) : list Mark :=
  omap (fun e =>
          match e with
          | Spawn c => Some (Ran c)
          | Delete f => Some (Invalidated f)
          | _ => None
          end)
       (trace w).

(** The targets a task waits for before it runs, and the files it makes. *)
Definition prerequisites_of (k : Kind) : list string :=
  match k with
  | Rule _ prerequisites _ => prerequisites
  | Cpp _ _ deps _ _ => deps
  | Link _ deps _ => deps
  end.

Definition produced (k : Kind) : list string :=
  match k with
  | Rule targets _ _ => targets
  | Cpp objFile depsFile _ _ _ => [objFile; depsFile]
  | Link exeFile _ _ => [exeFile]
  end.

(** How often [task()] was called for the task object [ref]. *)
Definition calls (ref : nat) (w : World) : nat :=
  length (filter (fun e => e = Call ref) (trace w)).

(** ** What code with effects keeps

    The part of the world that building does not change: the registry and,
    for every task object, its closure, label and [keyFn]. *)
Definition skeleton (w : World) : list (string * nat) * list (Kind * string * bool) :=
  (tasks w, (fun t => (kind t, label t, keyFn t)) <$> store w).

(** From [w] to [w']: the trace and the promise table are extended and the
    skeleton stays. *)
Definition grows (w w' : World) : Prop :=
  trace w `prefix_of` trace w'
  /\ promises w `prefix_of` promises w'
  /\ skeleton w' = skeleton w.

Definition growing {A} (m : M A) : Prop := forall w, grows w (snd (m w)).

(** ** One call of each task

    The bookkeeping of [task.pending] relies on the graph of prerequisites
    having no cycle: [rank] gives every task object a number above the
    numbers of the tasks of its prerequisites. *)

(** The outcome an awaiter of a settled promise sees. *)
Definition outcome_of (s : Settled) : Outcome unit :=
  match s with
  | Fulfilled => Ok tt
  | Failed e => Throw e
  end.

(** Code that changes neither tasks nor promises, calls no task, and
    returns or throws. *)
Definition ctl (w w' : World) : Prop :=
  store w' = store w
  /\ tasks w' = tasks w
  /\ promises w' = promises w
  /\ forall ref, calls ref w' = calls ref w.

Definition quiet {A} (m : M A) : Prop :=
  forall w, ctl w (snd (m w)) /\ fst (m w) <> Diverge.

(** The worlds with the skeleton of [w0]. *)
Definition shaped (w0 w : World) : Prop := skeleton w = skeleton w0.

(** The task object [ref] and the count of its calls are the same in [w]
    and [w']. *)
Definition same (ref : nat) (w w' : World) : Prop :=
  store w' !! ref = store w !! ref /\ calls ref w' = calls ref w.

Definition is_pending (w : World) (ref : nat) : Prop :=
  exists t h, store w !! ref = Some t /\ pending t = Some h.

(** From [w] to [w'] only task objects in [U] that are not pending in [w]
    may change or be called. *)
Definition keeps (U : nat -> Prop) (w w' : World) : Prop :=
  forall ref, ~ U ref \/ is_pending w ref -> same ref w w'.

(** A task that is not pending has not been called; a pending task has
    been called at most once and its promise is settled. *)
Definition once_task (w : World) (ref : nat) (t : Task) : bool :=
  match pending t with
  | None => (calls ref w =? 0)%nat
  | Some h => (calls ref w <=? 1)%nat && bool_decide (is_Some (promises w !! h))
  end.

Definition once (w : World) : bool :=
  forallb (fun entry => once_task w (fst entry) (snd entry)) (imap pair (store w)).

Definition Once_at (w : World) (ref : nat) : Prop :=
  forall t, store w !! ref = Some t -> once_task w ref t = true.

Section Ranked.

Variable rank : nat -> nat.

Definition acyclic_task (regs : list (string * nat)) (ref : nat) (k : Kind) : bool :=
  forallb
    (fun p =>
       match Json.obj_get p regs with
       | Some ref' => (rank ref' <? rank ref)%nat
       | None => true
       end)
    (prerequisites_of k).

(** Every prerequisite that has a task has a task of smaller rank. *)
Definition acyclic (w : World) : bool :=
  forallb (fun entry => acyclic_task (tasks w) (fst entry) (kind (snd entry)))
          (imap pair (store w)).

Definition Acyclic (w : World) : Prop :=
  forall ref t p ref',
    store w !! ref = Some t ->
    p ∈ prerequisites_of (kind t) ->
    lookup_task w p = Some ref' ->
    (rank ref' < rank ref)%nat.

(** The targets whose tasks have a rank below [k]. *)
Definition below (k : nat) (w : World) (targets : list string) : Prop :=
  forall target ref,
    target ∈ targets -> lookup_task w target = Some ref -> (rank ref < k)%nat.

(** The task objects of rank below [k], and the worlds in which each of
    them satisfies [Once_at]. *)
Definition Below (k : nat) (ref : nat) : Prop := (rank ref < k)%nat.

Definition Once_below (k : nat) (w : World) : Prop :=
  forall ref, Below k ref -> Once_at w ref.

(** While the task object [ref0] is being launched: it is not pending;
    it and the tasks below it may change; the other tasks below [k]
    satisfy [Once_at]. *)
Definition Idle (w0 : World) (ref0 : nat) (w : World) : Prop :=
  shaped w0 w /\ ~ is_pending w ref0.

Definition Self_or_below (ref0 : nat) (ref : nat) : Prop :=
  ref = ref0 \/ Below (rank ref0) ref.

Definition Once_others (k : nat) (ref0 : nat) (w : World) : Prop :=
  forall ref, ref <> ref0 -> Below k ref -> Once_at w ref.

(** Code that, run in a world that satisfies [Inv], keeps [Inv] and what
    [keeps U] says, and keeps [K] when it does not diverge. *)
Definition careful (Inv : World -> Prop) (U : nat -> Prop) (K : World -> Prop)
    {A} (m : M A) : Prop :=
  forall w, Inv w ->
    Inv (snd (m w))
    /\ keeps U w (snd (m w))
    /\ (K w -> fst (m w) <> Diverge -> K (snd (m w))).

(** Code that calls the task [ref] at most [n] times. *)
Definition calls_at_most (n : nat) (ref : nat) (Inv : World -> Prop) {A} (m : M A) : Prop :=
  forall w, Inv w ->
    Inv (snd (m w)) /\ (calls ref (snd (m w)) <= calls ref w + n)%nat.

(** Code that returns or throws in every world that satisfies [Inv]. *)
Definition settles (Inv : World -> Prop) {A} (m : M A) : Prop :=
  forall w, Inv w -> fst (m w) <> Diverge.

(** One more than the greatest rank of a registered task. *)
Definition height (w : World) : nat := S (max_list (rank <$> (snd <$> tasks w))).

End Ranked.

(** Code that always returns. *)
Definition total {A} (m : M A) : Prop := forall w, exists a w', m w = (Ok a, w').

(** ** The job limiter: [job(jobFn)] and its helper [schedule]

    The limiter is a machine with three kinds of turns: a call of
    [job(jobFn)], a turn in which one queued [schedule] callback runs, and
    the moment the promise of a running [jobFn] settles, when the rest of
    that [schedule] runs. *)

Module JobLimiter.

Section Jobs.

(** What is pushed on [job.pending]: [{jobFn, resolve, reject}]. *)
Context {J : Type}.

(** [JOBS] *)
Variable limit : nat.

(** [job.active], [job.pending], the [schedule] callbacks queued with
    [process.nextTick], the jobs whose [jobFn] has been called and has not
    settled; and, as history, the jobs in the order of their submission
    and in the order in which their [jobFn] was called. *)
Record State := mkState {
  active : nat;
  pending : list J;
  ticks : nat;
  running : list J;
  submitted : list J;
  started : list J
}.

Definition initial : State := mkState 0 [] 0 [] [] [].

Inductive Turn :=
| Submit (j : J)
| Tick
| Settle (i : nat).

(** [job(jobFn)]: [process.nextTick(schedule)], then
    [job.pending.push({jobFn, resolve, reject})]. *)
Definition job (j : J) (s : State) : State :=
  mkState (active s) (pending s ++ [j]) (S (ticks s)) (running s)
          (submitted s ++ [j]) (started s).

(** [schedule()] up to [await next.jobFn()]. *)
Definition schedule (s : State) : State :=
  match pending s with
  | next :: rest =>
      if bool_decide (active s < limit)%nat
      then mkState (active s + 1) rest (ticks s) (running s ++ [next])
                   (submitted s) (started s ++ [next])
      else s
  | [] => s
  end.

(** [schedule()] after the [await]: [job.active -= 1;
    process.nextTick(schedule);] for the running job at position [i]. *)
Definition settled (i : nat) (s : State) : State :=
  mkState (active s - 1) (pending s) (S (ticks s)) (delete i (running s))
          (submitted s) (started s).

(** One turn, when it can happen: a [schedule] callback must be queued,
    a job must be running to settle. *)
Definition step (s : State) (t : Turn) : option State :=
  match t with
  | Submit j => Some (job j s)
  | Tick =>
      match ticks s with
      | O => None
      | S n =>
          Some (schedule (mkState (active s) (pending s) n (running s)
                                  (submitted s) (started s)))
      end
  | Settle i =>
      match running s !! i with
      | Some _ => Some (settled i s)
      | None => None
      end
  end.

Fixpoint run (s : State) (turns : list Turn) : option State :=
  match turns with
  | [] => Some s
  | t :: rest =>
      match step s t with
      | Some s' => run s' rest
      | None => None
      end
  end.

(** What holds between turns: [job.active] counts the running jobs, at
    most [limit] of them, and the jobs submitted so far are the ones
    started, in that order, followed by the queue. *)
Definition consistent (s : State) : Prop :=
  active s = length (running s)
  /\ (active s <= limit)%nat
  /\ submitted s = started s ++ pending s.

End Jobs.

Arguments State J : clear implicits.
Arguments Turn J : clear implicits.

End JobLimiter.

(** ** A sample build: the rules at the top of [Maekfile.js] and a toy
    compiler *)

Module Demo.

(** The argument that follows [flag], if any. *)
Fixpoint arg_after (flag : string) (command : list string) : option string :=
  match command with
  | f :: (a :: _) as rest => if String.eqb f flag then Some a else arg_after flag rest
  | _ => None
  end.

Definition data_of (fs : gmap string Node) (file : string) : option string :=
  match fs !! file with
  | Some (File data) => Some data
  | _ => None
  end.

(** The contents of all of [inputs], or [None] if one cannot be read. *)
Fixpoint read_all (fs : gmap string Node) (inputs : list string) : option string :=
  match inputs with
  | [] => Some ""
  | file :: rest =>
      match data_of fs file, read_all fs rest with
      | Some d, Some ds => Some (d +:+ ds)
      | _, _ => None
      end
  end.

(** A toy [g++]: [-MF deps ... src] writes a dep-file that lists the
    source and [common.hpp]; [-c -o obj src] writes an object made from the
    source; [-o exe objs...] writes an executable made from the objects;
    a missing input gives exit code 1.  Any other program exits with 0 and
    writes nothing, except [false], which exits with 1. *)
Definition toy_exec (command : list string) (fs : gmap string Node)
  : ChildResult * gmap string Node :=
  match command with
  | "false" :: _ => (Exited (Some 1), fs)
  | "g++" :: args =>
      match arg_after "-MF" args, arg_after "-o" args, last args with
      | Some deps, _, Some src =>
          match data_of fs src with
          | Some _ => (Exited (Some 0), <[deps := File ("x : " +:+ src +:+ " common.hpp")]> fs)
          | None => (Exited (Some 1), fs)
          end
      | None, Some out, Some src =>
          if bool_decide ("-c" ∈ args) then
            match data_of fs src with
            | Some d => (Exited (Some 0), <[out := File ("obj(" +:+ d +:+ ")")]> fs)
            | None => (Exited (Some 1), fs)
            end
          else
            match read_all fs (filter (fun a => a ≠ out ∧ Str.starts_with_char "-"%char a = false) args) with
            | Some d => (Exited (Some 0), <[out := File ("exe(" +:+ d +:+ ")")]> fs)
            | None => (Exited (Some 1), fs)
            end
      | _, _, _ => (Exited (Some 2), fs)
      end
  | _ => (Exited (Some 0), fs)
  end.

Definition sources : gmap string Node :=
  {[ "Player.cpp" := File "player";
     "game.cpp" := File "game";
     "common.hpp" := File "common" ]}.

(** [maek.CPP('Player.cpp'); maek.CPP('game.cpp');
     maek.LINK([game_obj, Player_obj], 'dist/game');
     maek.RULE([':test'], [game_exe], [[game_exe, '--all-tests']]);] *)
Definition rules : M unit :=
  let* Player_obj := CPP "Player.cpp" None no_options in
  let* game_obj := CPP "game.cpp" None no_options in
  let* game_exe := LINK [game_obj; Player_obj] "dist/game" no_options in
  RULE [":test"] [game_exe] [[game_exe; "--all-tests"]].

(** The world when [maek.update] is called, over the files [fs]. *)
Definition start (fs : gmap string Node) : World :=
  snd (rules (init_maek linux 3 fs)).

(** The next process: the files stay, everything in memory is new. *)
Definition restart (w : World) : World := start (files w).

(** The same rules and a rule that generates [common.hpp], the header the
    toy compiler lists in every dep-file. *)
Definition rules_with_generated_header : M unit :=
  let* _ := rules in
  RULE ["common.hpp"] [] [["touch"; "common.hpp"]].

Definition start_with_generated_header : World :=
  snd (rules_with_generated_header (init_maek linux 3 sources)).

(** A world in which [objs/a.o] was hashed before it existed and was then
    written by the compiler. *)
Definition hashed_then_compiled : World :=
  let w0 := init_maek linux 1 {[ "a.cpp" := File "a" ]} in
  let w1 := snd (hashFiles ["objs/a.o"] w0) in
  snd (runCommand toy_exec ["g++"; "-c"; "-o"; "objs/a.o"; "a.cpp"] "compile" w1).

(** The files after a first build of [dist/game], and the next process
    once [Player.cpp] has been deleted. *)
Definition after_build : World :=
  snd (update toy_exec 10 ["dist/game"] (start sources)).

Definition player_deleted : World :=
  start (delete "Player.cpp" (files after_build)).

(** The next process after the first build, once [maek.update] has loaded
    the cached keys. *)
Definition second_run : World :=
  snd (prepare ["dist/game"] (restart after_build)).

(** The task object of [dist/game] and its link command. *)
Definition link_command : list string :=
  ["g++"; "-std=c++20"; "-Wall"; "-Werror"; "-g"; "-o"; "dist/game";
   "objs/game.o"; "objs/Player.o"].

(** [maek.RULE([':loop'], [':loop'], []);]: a task that is its own
    prerequisite. *)
Definition self_dependent : World :=
  snd (RULE [":loop"] [":loop"] [] (init_maek linux 3 ∅)).

Definition link_task : Task :=
  mkTask (Link "dist/game" ["objs/game.o"; "objs/Player.o"] link_command)
         "LINK 'objs/game.o', 'objs/Player.o' -> 'dist/game'"
         true None None None.

End Demo.

(** ** The shape of cache keys

    The values that [keyFn] returns, and what [JSON.parse] needs to read
    them back. *)

Module JsonKey.

(** Values without numbers in which no object names a key twice. *)
Fixpoint plain (j : json) : bool :=
  match j with
  | JNull | JBool _ | JStr _ => true
  | JNum _ => false
  | JArr items => forallb plain items
  | JObj fields =>
      bool_decide (NoDup (fst <$> fields))
      && forallb (fun kv => plain (snd kv)) fields
  end.

(** A bound on the depth of the calls of the parser on the text of a
    value. *)
Fixpoint cost (j : json) : nat :=
  match j with
  | JArr items => S (length items + list_sum (map cost items))
  | JObj fields => S (length fields + list_sum (map (fun kv => cost (snd kv)) fields))
  | _ => 1
  end.

End JsonKey.

(** The commands that the closure of a task runs, in the order in which
    its [keyFn] lists them. *)
Definition commands_of (k : Kind) : list (list string) :=
  match k with
  | Rule _ _ recipe => recipe
  | Cpp _ _ _ objCommand depsCommand => [objCommand; depsCommand]
  | Link _ _ linkCommand => [linkCommand]
  end.

(** ** [update-Maekfile.js]

    The script that copies the preamble and [init_maek] of the
    [Maekfile.js] beside it into another [Maekfile.js]. *)

Module UpdateMaekfile.

(** [text.split(separator)] for a separator that is not empty: the pieces
    between the occurrences of the separator, found from left to right.
    [skip] counts the characters of an occurrence still to be passed,
    [cur] holds the piece being read, last character first. *)
Fixpoint split_go (sep : list ascii) (s : list ascii) (skip : nat) (cur : list ascii)
  : list string :=
  match s with
  | [] => [Str.of_chars (rev cur)]
  | c :: rest =>
      match skip with
      | S n => split_go sep rest n cur
      | O =>
          if bool_decide (sep `prefix_of` s)
          then Str.of_chars (rev cur) :: split_go sep rest (length sep - 1) []
          else split_go sep rest 0 (c :: cur)
      end
  end.

Definition split (text separator : string) : list string :=
  split_go (Str.chars separator) (Str.chars text) 0 [].

(** ['='.repeat(n)] *)
Fixpoint repeat_eq (n : nat) : string :=
  match n with
  | O => ""
  | S n' => String "="%char (repeat_eq n')
  end.

(** [const divider = '//' + '='.repeat(70) + '\n';] *)
Definition divider : string := "//" +:+ repeat_eq 70 +:+ String DepFile.NEWLINE "".

(** [text[i]] inside a concatenation: the code unit at [i], or the text
    of [undefined]. *)
Definition char_at (text : string) (i : nat) : string :=
  match Str.chars text !! i with
  | Some c => String c ""
  | None => "undefined"
  end.

(** [fs.readFileSync(path, {encoding: 'utf8'})] *)
Definition readFileSync (path : string) : M string :=
  let* fs := gets files in
  match fs !! path with
  | Some (File data) => ret data
  | Some Dir => throw (Error "EISDIR: illegal operation on a directory, read")
  | None => throw (Error ("ENOENT: no such file or directory, open '" +:+ path +:+ "'"))
  end.

Definition usage : string :=
  "Usage:" +:+ String DepFile.NEWLINE ""
  +:+ "    node update-Maekfile.js <path/to/Maekfile.js>" +:+ String DepFile.NEWLINE ""
  +:+ "update target Maekfile.js with the init_make and preamble"
  +:+ String DepFile.NEWLINE ""
  +:+ "from the Maekfile.js is this directory.".

(** [process.exit(1)] after a message. *)
Definition exit_with (message : Event) (w : World) : DriverOutcome * World :=
  (ProcessExit 1, snd ((let* _ := emit message in emit (Exit 1)) w)).

(** The script, run with [process.argv = argv] from the directory
    [dirname]. *)
Definition main (dirname : string) (argv : list string) (w : World)
  : DriverOutcome * World :=
  match argv with
  | [_; _; targetFile] =>
      let sourceFile := dirname +:+ "/Maekfile.js" in
      let run :=
        let* _ := emit (ConsoleLog ("Updating " +:+ targetFile +:+ " with code from "
                                    +:+ sourceFile +:+ "...")) in
        let* sourceText := readFileSync sourceFile in
        let* targetText := readFileSync targetFile in
        ret (sourceText, targetText) in
      match run w with
      | (Ok (sourceText, targetText), w1) =>
          let sourceSplit := split sourceText divider in
          let targetSplit := split sourceText divider in
          if negb (length sourceSplit =? 3)%nat then
            exit_with (ConsoleError
              "Maekfile.js in this directory doesn't have exactly two '='*72 division comments.")
              w1
          else if negb (length targetSplit =? 3)%nat then
            exit_with (ConsoleError
              "Target Maekfile.js doesn't have exactly two '='*72 division comments.") w1
          else
            let finalText :=
              char_at sourceText 0 +:+ divider +:+ char_at targetText 1 +:+ divider
              +:+ char_at sourceText 2 in
            settle ((let* _ := writeFileSync targetFile finalText in
                     emit (ConsoleLog
                       "   done (but remember to check `git diff` and if the project builds)."))
                      w1)
      | (Throw e, w1) => (Rejected e, w1)
      | (Diverge, w1) => (NoResult, w1)
      end
  | _ => exit_with (ConsoleLog usage) w
  end.

End UpdateMaekfile.

(** ** What is added to the trace *)

(** Code that adds to the trace a list of events with the property [P]. *)
Definition tracing (P : list Event -> Prop) {A} (m : M A) : Prop :=
  forall w, exists evs, trace (snd (m w)) = trace w ++ evs /\ P evs.

(** Every command in the list is spawned right after the line that
    [runCommand] prints for it. *)
Definition announced (evs : list Event) : Prop :=
  forall before command after,
    evs = before ++ Spawn command :: after ->
    exists before',
      before = before' ++ [ConsoleLog ("   " +:+ prettyCommand command)].

(** * Properties *)

(** ** Digests and the tokenizer on examples *)

Example md5_base64_empty : md5_base64 "" = "1B2M2Y8AsgTpgAmY7PhCfg==".
Proof. vm_compute. reflexivity. Qed.

Example md5_base64_abc : md5_base64 "abc" = "kAFQmDzST7DWlj99KOF/cg==".
Proof. vm_compute. reflexivity. Qed.

Example md5_base64_two_blocks :
  md5_base64 "aaaaaaaaaaaaaaaaaaaaaaaaaaaaaaaaaaaaaaaaaaaaaaaaaaaaaaaaaaaaaaaaaaaaaa"
  = "D1xsTnQL/MCMPCbMsmc9Rg==".
Proof. vm_compute. reflexivity. Qed.

Example of_Z_examples : Str.of_Z 0 = "0" /\ Str.of_Z 127 = "127" /\ Str.of_Z (-3) = "-3".
Proof. vm_compute. auto. Qed.

Example tokenize_make_output :
  DepFile.tokenize ("x : Player.cpp \" +:+ String DepFile.NEWLINE " Player.hpp my\ file.h a$$b")
  = ["x"; ":"; "Player.cpp"; "Player.hpp"; "my file.h"; "a$b"].
Proof. vm_compute. reflexivity. Qed.

Example spec_tokens_make_output :
  DepFile.spec_tokens ("x : Player.cpp \" +:+ String DepFile.NEWLINE " Player.hpp my\ file.h a$$b")
  = ["x"; ":"; "Player.cpp"; "Player.hpp"; "my file.h"; "a$b"].
Proof. vm_compute. reflexivity. Qed.

Example tokenize_trailing_backslash : DepFile.tokenize "x : a\" = ["x"; ":"; "a\"].
Proof. vm_compute. reflexivity. Qed.

Example extraDepends_example :
  DepFile.extraDepends {[ "b.cpp" := true ]} ["x"; ":"; "z.h"; "b.cpp"; "a.h"]
  = ["a.h"; "z.h"].
Proof. vm_compute. reflexivity. Qed.

(** ** The tokenizer against the format of the specification *)

Module DepFileFacts.
Import DepFile.

Lemma last_nonempty_snoc (done : list string) (cur : string) :
  last_nonempty (done ++ [cur]) = match cur with EmptyString => false | _ => true end.
Proof. unfold last_nonempty. rewrite last_snoc. by destruct cur. Qed.

Lemma append_last_snoc (done : list string) (cur : string) (c : ascii) :
  append_last (done ++ [cur]) c = done ++ [cur +:+ String c ""].
Proof.
  induction done as [|t done IH]; [done|].
  simpl. rewrite IH. by destruct done.
Qed.

Lemma pop_empty_snoc (done : list string) (cur : string) :
  pop_empty (done ++ [cur]) = done ++ runs [] cur.
Proof.
  unfold pop_empty. rewrite last_nonempty_snoc. destruct cur; simpl.
  - by rewrite removelast_last, app_nil_r.
  - done.
Qed.

Lemma is_space_not_special (c : ascii) :
  is_space c = true -> Ascii.eqb c DOLLAR = false /\ Ascii.eqb c BACKSLASH = false.
Proof.
  unfold is_space. rewrite !orb_true_iff, !Ascii.eqb_eq.
  intros [[-> | ->] | ->]; by vm_compute.
Qed.

Lemma pieces_space (c : ascii) (rest : list ascii) :
  is_space c = true -> pieces (c :: rest) = Gap :: pieces rest.
Proof.
  intros Hc. destruct (is_space_not_special c Hc) as [Hd Hb].
  destruct rest as [|d rest]; simpl; rewrite ?Hc, ?Hd, ?Hb; done.
Qed.

Lemma pieces_cons2 (c d : ascii) (rest : list ascii) :
  pieces (c :: d :: rest) =
    if Ascii.eqb c DOLLAR && Ascii.eqb d DOLLAR then Chr DOLLAR :: pieces rest
    else if Ascii.eqb c BACKSLASH then
      if Ascii.eqb d NEWLINE then Gap :: pieces rest else Chr d :: pieces rest
    else if is_space c then Gap :: pieces (d :: rest)
    else Chr c :: pieces (d :: rest).
Proof. reflexivity. Qed.

Lemma pieces_single (c : ascii) :
  pieces [c] = if is_space c then [Gap] else [Chr c].
Proof. reflexivity. Qed.

(** One turn of the loop at index [i] consumes the pieces of the text from
    [i] on; [done ++ [cur]] is the array of tokens. *)
Lemma scan_runs (n : nat) : forall (text : list ascii) (i : nat) (done : list string) (cur : string),
  (length text - i <= n)%nat ->
  pop_empty (scan n text i (done ++ [cur])) = done ++ runs (pieces (drop i text)) cur.
Proof.
  induction n as [|n IH]; intros text i done cur Hn.
  - simpl. rewrite drop_ge by lia. apply pop_empty_snoc.
  - simpl. destruct (text !! i) as [c|] eqn:Hi.
    2:{ apply lookup_ge_None in Hi. rewrite drop_ge by lia. apply pop_empty_snoc. }
    pose proof (lookup_lt_Some _ _ _ Hi) as Hlt.
    rewrite (drop_S _ _ _ Hi).
    destruct (is_space c) eqn:Hsp.
    { rewrite (pieces_space _ _ Hsp), last_nonempty_snoc.
      destruct cur as [|a cur].
      - rewrite IH by lia. done.
      - rewrite (IH text (S i) (done ++ [String a cur]) "") by lia.
        simpl. by rewrite <- app_assoc. }
    destruct (text !! S i) as [d|] eqn:Hi'.
    + rewrite (drop_S _ _ _ Hi'), pieces_cons2.
      destruct (Ascii.eqb c DOLLAR) eqn:Hd; simpl andb.
      * destruct (Ascii.eqb d DOLLAR) eqn:Hd'.
        -- apply Ascii.eqb_eq in Hd'. subst d.
           rewrite bool_decide_eq_true_2 by done.
           rewrite append_last_snoc, IH by lia. done.
        -- rewrite bool_decide_eq_false_2.
           2:{ intros [= ->]. by rewrite Ascii.eqb_refl in Hd'. }
           apply Ascii.eqb_eq in Hd. subst c.
           change (Ascii.eqb DOLLAR BACKSLASH) with false. simpl andb. cbv iota.
           rewrite Hsp, append_last_snoc, IH by lia.
           rewrite (drop_S _ _ _ Hi'). done.
      * destruct (Ascii.eqb c BACKSLASH) eqn:Hb; simpl andb.
        -- rewrite bool_decide_eq_true_2 by (apply lookup_lt_Some in Hi'; lia).
           destruct (Ascii.eqb d NEWLINE) eqn:Hnl.
           ++ rewrite IH by lia. rewrite (drop_S _ _ _ Hi').
              apply Ascii.eqb_eq in Hnl. subst d.
              rewrite pieces_space by done. done.
           ++ rewrite append_last_snoc, IH by lia. done.
        -- rewrite Hsp, append_last_snoc, IH by lia.
           rewrite (drop_S _ _ _ Hi'). done.
    + apply lookup_ge_None in Hi'.
      rewrite (drop_ge _ (S i)) by lia. rewrite pieces_single, Hsp.
      rewrite (bool_decide_eq_false_2 (S i < length text)%nat) by lia.
      rewrite !andb_false_r.
      rewrite append_last_snoc, IH by lia.
      rewrite drop_ge by lia. done.
Qed.

(** The loop of [loadDeps] computes the tokens of the specified format. *)
Lemma tokenize_spec (text : string) : tokenize text = spec_tokens text.
Proof.
  unfold tokenize, spec_tokens.
  rewrite (scan_runs _ _ 0 [] "") by lia. done.
Qed.

End DepFileFacts.

(** ** JSON on examples *)

Example stringify_key :
  Json.stringify (JArr [JArr [JStr "g++"; JStr "-o"; JStr "a b"]; JStr ("x.o:kAFQ" +:+ Str.dq +:+ "\")])
  = "[[" +:+ Json.quote "g++" +:+ "," +:+ Json.quote "-o" +:+ "," +:+ Json.quote "a b" +:+ "],"
    +:+ Str.dq +:+ "x.o:kAFQ\" +:+ Str.dq +:+ "\\" +:+ Str.dq +:+ "]".
Proof. vm_compute. reflexivity. Qed.

Example parse_cache_file :
  Json.parse ("{ " +:+ Json.quote "objs/a.o" +:+ " : [[" +:+ Json.quote "g++" +:+ "," +:+ Json.quote "-c" +:+ "], "
              +:+ Str.dq +:+ "a.cpp:x\n" +:+ Str.dq +:+ "], " +:+ Json.quote "n" +:+ ": [null, true, -12] }")
  = Some (JObj [("objs/a.o", JArr [JArr [JStr "g++"; JStr "-c"];
                                   JStr ("a.cpp:x" +:+ String DepFile.NEWLINE "")]);
                ("n", JArr [JNull; JBool true; JNum (-12)])]).
Proof. vm_compute. reflexivity. Qed.

Example parse_rejects_garbage : Json.parse ("{" +:+ Json.quote "a" +:+ ": [1,}") = None.
Proof. vm_compute. reflexivity. Qed.

Example parse_stringify_example :
  let k := JObj [("t", JArr [JArr [JStr "cc"; JStr ("a" +:+ Str.dq +:+ "b\c")]; JStr "t:x"])] in
  Json.parse (Json.stringify k) = Some k.
Proof. vm_compute. reflexivity. Qed.

(** ** The sample build on the toy compiler *)

Module DemoFacts.
Import Demo.

Example cold_build :
  let r := update toy_exec 10 ["dist/game"] (start sources) in
  fst r = Finished /\
  length (spawned (snd r)) = 5%nat /\
  data_of (files (snd r)) "dist/game" = Some "exe(obj(game)obj(player))".
Proof. vm_compute. auto. Qed.

Example noop_rebuild :
  let first := update toy_exec 10 ["dist/game"] (start sources) in
  let second := update toy_exec 10 ["dist/game"] (restart (snd first)) in
  fst second = Finished /\ spawned (snd second) = [].
Proof. vm_compute. auto. Qed.

Example abstract_phase_always_runs :
  let first := update toy_exec 10 [":test"] (start sources) in
  let second := update toy_exec 10 [":test"] (restart (snd first)) in
  fst second = Finished /\ spawned (snd second) = [["dist/game"; "--all-tests"]].
Proof. vm_compute. auto. Qed.

Example missing_source_fails :
  let r := update toy_exec 10 ["dist/game"] (start (delete "Player.cpp" sources)) in
  fst r = ProcessExit 1 /\ files (snd r) !! CACHE_FILE = None.
Proof. vm_compute. auto. Qed.

End DemoFacts.

(** ** Claim C4: the dep-file parser *)

Module LoadDepsFacts.
Import DepFile.

Lemma ascii_compare_N (a b : ascii) :
  Ascii.compare a b = N.compare (N_of_ascii a) (N_of_ascii b).
Proof. reflexivity. Qed.

Lemma string_compare_cons (a b : ascii) (s t : string) :
  String.compare (String a s) (String b t) =
    match Ascii.compare a b with
    | Eq => String.compare s t
    | Lt => Lt
    | Gt => Gt
    end.
Proof. reflexivity. Qed.

#[global] Instance str_le_trans : Transitive str_le.
Proof.
  unfold str_le, String.leb. intros s.
  induction s as [|a s IH]; intros t u Hst Htu.
  - by destruct u.
  - destruct t as [|b t]; [done|]. destruct u as [|c u]; [by destruct t|].
    rewrite string_compare_cons in *.
    rewrite !ascii_compare_N in *.
    destruct (N.compare_spec (N_of_ascii a) (N_of_ascii b)) as [Hab|Hab|Hab];
      destruct (N.compare_spec (N_of_ascii b) (N_of_ascii c)) as [Hbc|Hbc|Hbc];
      try done.
    + rewrite Hab, Hbc, N.compare_refl. by apply (IH t u).
    + rewrite Hab. by apply N.compare_lt_iff in Hbc as ->.
    + rewrite <- Hbc. by apply N.compare_lt_iff in Hab as ->.
    + assert (N_of_ascii a < N_of_ascii c)%N as Hac by lia.
      by apply N.compare_lt_iff in Hac as ->.
Qed.

(** The object [inDepends] has exactly the explicit prerequisites as keys. *)
Lemma inDepends_lookup (deps : list string) (m : gmap string bool) (p : string) :
  ((fold_left (fun m d => <[d := true]> m) deps m) !! p = None)
  <-> ((p ∉ deps) /\ (m !! p = None)).
Proof.
  revert m. induction deps as [|d deps IH]; intros m; simpl.
  - split; [intros H; split; [apply not_elem_of_nil | done] | by intros [_ H]].
  - rewrite IH, not_elem_of_cons, lookup_insert_None.
    split; [intros (? & ? & ?) | intros ((? & ?) & ?)]; auto.
Qed.

Lemma StronglySorted_filter {A} (R : relation A) (P : A -> Prop)
    `{forall x, Decision (P x)} (l : list A) :
  StronglySorted R l -> StronglySorted R (filter P l).
Proof.
  induction 1 as [|x l Hl IH Hx]; [constructor|].
  rewrite filter_cons. case_decide; [|done].
  constructor; [done|].
  apply Forall_forall. intros y [_ Hy]%list_elem_of_filter.
  by eapply Forall_forall in Hx.
Qed.

Lemma set_trace_same (w : World) : set_trace (trace w ++ [] ++ []) w = w.
Proof. destruct w. unfold set_trace. simpl. by rewrite app_nil_r. Qed.

End LoadDepsFacts.


(** ** Claims C5 and C10: [hashFiles] and the hash cache *)

Module HashFacts.

Lemma set_hits_id (w : World) : set_hashCacheHits (hashCacheHits w + 0) w = w.
Proof. destruct w. unfold set_hashCacheHits. simpl. f_equal. lia. Qed.

Lemma set_hashCache_id (w : World) : set_hashCache (hashCache w) w = w.
Proof. by destruct w. Qed.

(** The first phase only counts the hits. *)
Lemma hashFiles_begin_spec (fs : list string) (w : World) :
  hashFiles_begin fs w =
    (Ok ((fun f => (f, hashCache w !! f)) <$> fs),
     set_hashCacheHits
       (hashCacheHits w + length (filter (fun f => is_Some (hashCache w !! f)) fs)) w).
Proof.
  revert w. induction fs as [|f fs IH]; intros w.
  - simpl. unfold ret. by rewrite set_hits_id.
  - simpl. unfold bind, hashFile_begin.
    destruct (hashCache w !! f) as [h|] eqn:Hf.
    + rewrite IH. unfold ret. simpl. rewrite filter_cons_True by (rewrite Hf; eauto).
      f_equal. destruct w. unfold set_hashCacheHits. simpl. f_equal. lia.
    + rewrite IH. unfold ret. simpl.
      rewrite filter_cons_False by (rewrite Hf; apply is_Some_None). done.
Qed.

(** The second phase stores a record for every file that was not in the
    cache when [hashFiles] was called. *)
Lemma hashFiles_end_spec (c0 : gmap string string) (fs : list string) : forall w,
  (forall f h, c0 !! f = Some h -> hashCache w !! f = Some h) ->
  exists c',
    hashFiles_end ((fun f => (f, c0 !! f)) <$> fs) w
    = (Ok ((fun f => default (hash_record (files w) f) (c0 !! f)) <$> fs),
       set_hashCache c' w)
    /\ forall f, c' !! f =
         if decide (f ∈ fs /\ c0 !! f = None)
         then Some (hash_record (files w) f)
         else hashCache w !! f.
Proof.
  induction fs as [|f fs IH]; intros w Hext.
  - exists (hashCache w). split.
    + simpl. unfold ret. by rewrite set_hashCache_id.
    + intros f. case_decide as H; [|done]. destruct H as [H _]. inversion H.
  - rewrite fmap_cons. cbn [hashFiles_end]. destruct (c0 !! f) as [h|] eqn:Hf.
    + destruct (IH w Hext) as (c' & Hrun & Hc'). exists c'. split.
      * unfold bind. rewrite Hrun. unfold ret. rewrite fmap_cons, Hf. done.
      * intros g. rewrite Hc'.
        destruct (decide (g ∈ fs /\ c0 !! g = None)) as [[Hin Hg]|Hn].
        -- rewrite decide_True; [done|]. split; [by apply list_elem_of_further|done].
        -- rewrite decide_False; [done|].
           intros [[->|Hin]%elem_of_cons Hg]; [congruence|]. apply Hn. done.
    + set (w1 := set_hashCache (<[f := hash_record (files w) f]> (hashCache w)) w).
      assert (files w1 = files w) as Hfiles by by destruct w.
      assert (hashCache w1 = <[f := hash_record (files w) f]> (hashCache w)) as Hcache
        by by destruct w.
      destruct (IH w1) as (c' & Hrun & Hc').
      { intros g h Hg. rewrite Hcache.
        rewrite lookup_insert_ne by congruence. by apply Hext. }
      exists c'. split.
      * unfold bind, hashFile_end. fold w1. rewrite Hrun. unfold ret.
        rewrite fmap_cons, Hf, Hfiles. simpl. by destruct w.
      * intros g. rewrite Hc', Hfiles, Hcache.
        destruct (decide (g = f)) as [->|Hne].
        -- rewrite lookup_insert_eq. rewrite (decide_True (P := f ∈ f :: fs /\ _)).
           2:{ split; [apply list_elem_of_here | done]. }
           by case_decide.
        -- rewrite lookup_insert_ne by done.
           destruct (decide (g ∈ fs /\ c0 !! g = None)) as [[Hin Hg]|Hn].
           ++ rewrite decide_True; [done|]. split; [by apply list_elem_of_further|done].
           ++ rewrite decide_False; [done|].
              intros [[->|Hin]%elem_of_cons Hg]; [done|]. apply Hn. done.
Qed.


End HashFacts.
Module HashFilesFacts.

(** What [hashFiles] returns and how it leaves the hash cache. *)
Lemma hashFiles_records (targets : list string) (w : World) :
  let fs := filter (fun target => is_abstract target = false) targets in
  let record (f : string) : string :=
    match hashCache w !! f with
    | Some cached => cached
    | None =>
        match files w !! f with
        | Some (File data) => f +:+ ":" +:+ md5_base64 data
        | _ => f +:+ ":x"
        end
    end in
  exists c',
    hashFiles targets w
    = (Ok (record <$> fs),
       set_hashCache c'
         (set_hashCacheHits
            (hashCacheHits w + length (filter (fun f => is_Some (hashCache w !! f)) fs)) w))
    /\ (forall f, f ∈ fs -> c' !! f = Some (record f))
    /\ (forall f, f ∉ fs -> c' !! f = hashCache w !! f).
Proof.
  intros fs record. unfold hashFiles, bind. fold fs.
  rewrite HashFacts.hashFiles_begin_spec.
  set (w1 := set_hashCacheHits _ w).
  assert (hashCache w1 = hashCache w) as Hc by by destruct w.
  assert (files w1 = files w) as Hf by by destruct w.
  destruct (HashFacts.hashFiles_end_spec (hashCache w) fs w1) as (c' & Hrun & Hc').
  { intros f h. by rewrite Hc. }
  assert ((fun f => default (hash_record (files w1) f) (hashCache w !! f)) <$> fs
          = record <$> fs) as Hrec.
  { apply list_fmap_ext. intros _ f _. unfold record, hash_record.
    rewrite Hf. by destruct (hashCache w !! f). }
  exists c'. rewrite Hrun, Hrec. split; [done|split].
  - intros f Hin. rewrite Hc', Hc, Hf. unfold record, hash_record.
    destruct (hashCache w !! f) eqn:Hl.
    + by rewrite decide_False by (intros [_ ?]; congruence).
    + by rewrite decide_True by done.
  - intros f Hin. rewrite Hc', Hc. by rewrite decide_False by (intros [? _]; done).
Qed.

End HashFilesFacts.





(** ** Claim C2: dynamic prerequisites that are targets of other tasks *)

Module AssertFacts.

(** The loop of [assertNontargets] tests the key ['target'], whatever the
    prerequisite is: without a task for a target of that name nothing is
    reported. *)
Lemma assertNontargets_tests_literal (prerequisites : list string) (ruleName : string)
    (w : World) :
  lookup_task w "target" = None ->
  assertNontargets prerequisites ruleName w = (Ok tt, w).
Proof.
  intros Hnone. unfold assertNontargets, bind, gets. simpl.
  assert (filter (fun _ : string => is_Some (lookup_task w "target")) prerequisites = [])
    as ->; [|done].
  induction prerequisites as [|p ps IH]; [done|].
  rewrite filter_cons_False; [done|]. rewrite Hnone. apply is_Some_None.
Qed.

End AssertFacts.

(** C2, evaluated on the code.  [common.hpp] is the target of a [RULE];
    the dep-file of [objs/game.o] lists it, so it is a dynamically
    discovered prerequisite of the compile task.  The check accepts it,
    in the task and in [keyFn], and the build finishes without a
    [BuildError]. *)
Lemma C2_generated_header_accepted :
  let w := Demo.start_with_generated_header in
  let r := update Demo.toy_exec 10 ["objs/game.o"] w in
  is_Some (lookup_task w "common.hpp")
  /\ fst r = Finished
  /\ fst (loadDeps "objs/game.d" ["game.cpp"] (snd r)) = Ok ["common.hpp"]
  /\ fst (assertNontargets ["common.hpp"] "CPP 'game.cpp' -> 'objs/game.o'" (snd r)) = Ok tt.
Proof. vm_compute. repeat split; eauto. Qed.

(** ** Claim C7: the job limiter *)

Module JobLimiterFacts.
Import JobLimiter.

Section Facts.

Context {J : Type}.
Variable limit : nat.

Lemma initial_consistent : consistent limit (initial (J := J)).
Proof. unfold consistent. simpl. repeat split; lia. Qed.

Lemma job_consistent (j : J) (s : State J) : consistent limit s -> consistent limit (job j s).
Proof.
  intros (Ha & Hl & Hs). unfold consistent, job. simpl.
  repeat split; [done..|]. by rewrite Hs, app_assoc.
Qed.

Lemma schedule_consistent (s : State J) : consistent limit s -> consistent limit (schedule limit s).
Proof.
  intros (Ha & Hl & Hs). unfold schedule.
  destruct (pending s) as [|next rest] eqn:Hp.
  { unfold consistent. by rewrite Hp. }
  case_bool_decide as Hlt.
  - unfold consistent. simpl. rewrite length_app. simpl.
    repeat split; [lia | lia |]. by rewrite Hs, <- app_assoc.
  - unfold consistent. by rewrite Hp.
Qed.

Lemma settled_consistent (i : nat) (s : State J) (j : J) :
  running s !! i = Some j -> consistent limit s -> consistent limit (settled i s).
Proof.
  intros Hi (Ha & Hl & Hs). unfold consistent, settled. simpl.
  pose proof (lookup_lt_Some _ _ _ Hi) as Hlt.
  rewrite length_delete by eauto. repeat split; [lia | lia | done].
Qed.

Lemma step_consistent (s s' : State J) (t : Turn J) :
  consistent limit s -> step limit s t = Some s' -> consistent limit s'.
Proof.
  intros Hs. destruct t as [j| |i]; simpl.
  - intros [= <-]. by apply job_consistent.
  - destruct (ticks s) as [|n] eqn:Ht; [done|]. intros [= <-].
    apply schedule_consistent. by destruct s.
  - destruct (running s !! i) as [j|] eqn:Hi; [|done]. intros [= <-].
    by eapply settled_consistent.
Qed.

Lemma run_consistent (turns : list (Turn J)) : forall (s s' : State J),
  consistent limit s -> run limit s turns = Some s' -> consistent limit s'.
Proof.
  induction turns as [|t turns IH]; intros s s' Hs; simpl.
  - by intros [= <-].
  - destruct (step limit s t) as [s1|] eqn:Hstep; [|done].
    intros Hrun. eapply IH; [|done]. by eapply step_consistent.
Qed.

(** A burst of submissions only enqueues. *)
Lemma run_submissions (js : list J) : forall (s : State J),
  exists s', run limit s (Submit <$> js) = Some s'
    /\ running s' = running s /\ started s' = started s
    /\ active s' = active s
    /\ pending s' = pending s ++ js
    /\ ticks s' = (ticks s + length js)%nat.
Proof.
  induction js as [|j js IH]; intros s.
  - exists s. simpl. rewrite app_nil_r. repeat split; lia.
  - destruct (IH (job j s)) as (s' & Hrun & Hr & Hst & Ha & Hp & Ht).
    exists s'. rewrite fmap_cons. cbn [run step]. rewrite Hrun, Hr, Hst, Ha, Hp, Ht.
    cbn [job running started active pending ticks length].
    rewrite <- app_assoc. repeat split; lia.
Qed.

(** A job is started only by a turn of [schedule]. *)
Lemma started_by_tick (s s' : State J) (t : Turn J) :
  step limit s t = Some s' -> started s' <> started s -> t = Tick.
Proof.
  destruct t as [j| |i]; simpl; [|done|].
  - by intros [= <-].
  - destruct (running s !! i); [|done]. by intros [= <-].
Qed.

End Facts.

End JobLimiterFacts.

(** C7.  In every state the job limiter reaches, by any sequence of
    submissions, [schedule] turns and settled jobs, at most
    [JOBS = CPU_COUNT + 1] jobs are running; the jobs that were started are
    the first of the submitted jobs, in the order of submission; and a
    submission, or a burst of them, starts no job: it only queues the job
    and one [schedule] callback, so the job can start in a later turn
    only. *)
Theorem C7_job_limiter {J : Type} (w : World) (turns : list (JobLimiter.Turn J))
    (s : JobLimiter.State J) :
  JobLimiter.run (JOBS w) JobLimiter.initial turns = Some s ->
  (length (JobLimiter.running s) <= CPUS w + 1)%nat
  /\ JobLimiter.active s = length (JobLimiter.running s)
  /\ JobLimiter.submitted s = JobLimiter.started s ++ JobLimiter.pending s
  /\ (forall js, exists s',
        JobLimiter.run (JOBS w) s (JobLimiter.Submit <$> js) = Some s'
        /\ JobLimiter.running s' = JobLimiter.running s
        /\ JobLimiter.started s' = JobLimiter.started s
        /\ JobLimiter.pending s' = JobLimiter.pending s ++ js)
  /\ (forall t s', JobLimiter.step (JOBS w) s t = Some s' ->
        JobLimiter.started s' <> JobLimiter.started s -> t = JobLimiter.Tick).
Proof.
  intros Hrun.
  destruct (JobLimiterFacts.run_consistent (JOBS w) turns _ _
              (JobLimiterFacts.initial_consistent (JOBS w)) Hrun) as (Ha & Hl & Hs).
  unfold JOBS in Hl. repeat split; [lia | done | done | |].
  - intros js.
    destruct (JobLimiterFacts.run_submissions (JOBS w) js s)
      as (s' & Hr & Hrun' & Hst & _ & Hp & _).
    exists s'. done.
  - intros t s'. apply JobLimiterFacts.started_by_tick.
Qed.

Lemma C7_witness :
  let w := init_maek linux 1 ∅ in
  let turns := [JobLimiter.Submit 1%nat; JobLimiter.Submit 2%nat; JobLimiter.Submit 3%nat;
                JobLimiter.Tick; JobLimiter.Tick; JobLimiter.Tick;
                JobLimiter.Settle 0; JobLimiter.Tick] in
  exists s, JobLimiter.run (JOBS w) JobLimiter.initial turns = Some s
    /\ JobLimiter.running s = [2%nat; 3%nat]
    /\ (length (JobLimiter.running s) <= CPUS w + 1)%nat.
Proof.
  intros w turns.
  eexists. split; [reflexivity|]. split; [reflexivity|].
  eapply (C7_job_limiter w turns). reflexivity.
Defined.

(** ** Claim C3: the driver when the build fails *)

Module DriverFacts.

Lemma total_ret {A} (a : A) : total (ret a).
Proof. intros w. by exists a, w. Qed.

Lemma total_bind {A B} (m : M A) (k : A -> M B) :
  total m -> (forall a, total (k a)) -> total (bind m k).
Proof.
  intros Hm Hk w. destruct (Hm w) as (a & w1 & Hrun).
  destruct (Hk a w1) as (b & w2 & Hrun').
  exists b, w2. unfold bind. by rewrite Hrun.
Qed.

Lemma total_gets {A} (f : World -> A) : total (gets f).
Proof. intros w. by exists (f w), w. Qed.

Lemma total_modify (f : World -> World) : total (modify f).
Proof. intros w. by exists tt, (f w). Qed.

Lemma total_emit (e : Event) : total (emit e).
Proof. apply total_modify. Qed.

Lemma total_for_each {A} (l : list A) (body : A -> M unit) :
  (forall x, total (body x)) -> total (for_each l body).
Proof.
  intros Hbody. induction l as [|x l IH]; simpl.
  - apply total_ret.
  - apply total_bind; [apply Hbody | intros ?; apply IH].
Qed.

Lemma total_assign_cache (es : list (string * json)) :
  forall assigned removed, total (assign_cache es assigned removed).
Proof.
  induction es as [|[target value] es IH]; intros assigned removed; simpl.
  - apply total_ret.
  - apply total_bind; [apply total_gets|]. intros w.
    destruct (lookup_task w target); [|apply IH].
    apply total_bind; [apply total_modify | intros ?; apply IH].
Qed.

Lemma total_start_fresh (unexpected : bool) : total (start_fresh unexpected).
Proof.
  apply total_bind; [apply total_emit|]. intros ?.
  destruct unexpected; [apply total_emit | apply total_ret].
Qed.

Lemma total_load_cache : total load_cache.
Proof.
  apply total_bind; [apply total_gets|]. intros fs.
  destruct (fs !! CACHE_FILE) as [[text|]|]; try apply total_start_fresh.
  destruct (Json.parse text) as [cache|]; [|apply total_start_fresh].
  destruct (entries cache) as [es|]; [|apply total_start_fresh].
  apply total_bind; [apply total_assign_cache | intros ?; apply total_emit].
Qed.

(** Nothing before the build can fail. *)
Lemma prepare_returns (targets : list string) (w : World) :
  exists w1, prepare targets w = (Ok tt, w1).
Proof.
  assert (total (prepare targets)) as Ht.
  { apply total_bind; [|intros ?; apply total_bind; [|intros ?; apply total_load_cache]].
    - apply total_bind; [apply total_gets | intros ?; apply total_emit].
    - apply total_bind; [apply total_gets|]. intros regs.
      apply total_for_each. intros x. apply total_modify. }
  destruct (Ht w) as ([] & w1 & Hrun). by exists w1.
Qed.

Lemma obj_set_fresh {A} (k : string) (v : A) (o : list (string * A)) :
  k ∉ o.*1 -> Json.obj_set k v o = o ++ [(k, v)].
Proof.
  induction o as [|[k' v'] o IH]; [done|].
  rewrite fmap_cons, not_elem_of_cons. simpl. intros [Hne Hnot].
  destruct (String.eqb_spec k' k) as [->|_]; [done|]. by rewrite IH.
Qed.

(** With one entry per target in [maek.tasks], the object that is written
    lists the cached key of every task that has one. *)
Lemma collect_cache_entries (w : World) :
  NoDup (tasks w).*1 -> collect_cache w = cached_entries w.
Proof.
  unfold collect_cache, cached_entries.
  change (omap _ (tasks w)) with ([] ++ omap
    (fun entry : string * nat =>
       match store w !! entry.2 with
       | Some t => match cachedKey t with Some key => Some (entry.1, key) | None => None end
       | None => None
       end) (tasks w)).
  assert (forall k, k ∈ (tasks w).*1 -> k ∉ ([] : list (string * json)).*1) as Hfresh
    by (intros k _; apply not_elem_of_nil).
  revert Hfresh. generalize ([] : list (string * json)) as acc.
  induction (tasks w) as [|[k ref] l IH]; intros acc Hfresh Hnd.
  - simpl. by rewrite app_nil_r.
  - apply NoDup_cons in Hnd as [Hk Hnd]. simpl.
    destruct (store w !! ref) as [t|] eqn:Hs; [destruct (cachedKey t) as [key|] eqn:Hkey|].
    + rewrite obj_set_fresh by (apply Hfresh; apply list_elem_of_here).
      rewrite IH; [by rewrite <- app_assoc | | done].
      intros k' Hk'. rewrite fmap_app, elem_of_app. intros [Hin|Hin].
      * revert Hin. apply Hfresh. by apply list_elem_of_further.
      * apply list_elem_of_singleton in Hin. simpl in Hin. subst k'. by apply Hk.
    + apply IH; [|done]. intros k' Hk'. apply Hfresh. by apply list_elem_of_further.
    + apply IH; [|done]. intros k' Hk'. apply Hfresh. by apply list_elem_of_further.
Qed.

End DriverFacts.

Lemma store_cache_writes (w : World) :
  files w !! CACHE_FILE <> Some Dir ->
  exists w',
    store_cache w = (Ok tt, w')
    /\ files w' !! CACHE_FILE = Some (File (Json.stringify (JObj (collect_cache w))))
    /\ written w' = written w ++ [(CACHE_FILE, Json.stringify (JObj (collect_cache w)))].
Proof.
  intros Hdir. unfold store_cache, writeFileSync, bind, gets, emit, modify. simpl.
  destruct (files w !! CACHE_FILE) as [[data|]|] eqn:Hf; try done.
  - eexists. split; [reflexivity|]. simpl. rewrite lookup_insert_eq. split; [done|].
    unfold written. simpl. rewrite !omap_app. simpl. by rewrite !app_nil_r.
  - eexists. split; [reflexivity|]. simpl. rewrite lookup_insert_eq. split; [done|].
    unfold written. simpl. rewrite !omap_app. simpl. by rewrite !app_nil_r.
Qed.

(** C3, as amended.  When [updateTargets] fails with a [BuildError], the
    driver prints [FAILED: message] and exits with status 1 at once:
    nothing is written, the cache file stays as it was.  The cache file is
    rewritten, with the cached key of every task that has one, only when
    [updateTargets] returns.  Any other error rejects the promise of
    [maek.update]. *)
Theorem C3_exit_before_cache_is_stored
    (exec : list string -> gmap string Node -> ChildResult * gmap string Node)
    (fuel : nat) (targets : list string) (w : World) :
  let w1 := snd (prepare targets w) in
  match updateTargets exec fuel targets "user" w1 with
  | (Throw (BuildError message), w2) =>
      update exec fuel targets w
      = (ProcessExit 1,
         set_trace (trace w2 ++ [ConsoleError ("FAILED: " +:+ message); Exit 1]) w2)
  | (Throw e, w2) => update exec fuel targets w = (Rejected e, w2)
  | (Diverge, w2) => update exec fuel targets w = (NoResult, w2)
  | (Ok _, w2) =>
      update exec fuel targets w = settle (store_cache w2)
      /\ (files w2 !! CACHE_FILE <> Some Dir ->
          exists w3,
            store_cache w2 = (Ok tt, w3)
            /\ files w3 !! CACHE_FILE
               = Some (File (Json.stringify (JObj (collect_cache w2))))
            /\ written w3
               = written w2 ++ [(CACHE_FILE, Json.stringify (JObj (collect_cache w2)))])
      /\ (NoDup (tasks w2).*1 -> collect_cache w2 = cached_entries w2)
  end.
Proof.
  intros w1. unfold update.
  destruct (DriverFacts.prepare_returns targets w) as (w1' & Hprep).
  assert (w1 = w1') as Hw1 by (unfold w1; by rewrite Hprep). rewrite Hprep, <- Hw1.
  destruct (updateTargets exec fuel targets "user" w1) as [[[]|[message|message]|] w2];
    [|try reflexivity..].
  2:{ unfold bind, emit, modify. destruct w2. unfold set_trace. simpl.
      by rewrite <- app_assoc. }
  split; [reflexivity|]. split.
  - apply store_cache_writes.
  - apply DriverFacts.collect_cache_entries.
Qed.

Lemma C3_witness :
  fst (update Demo.toy_exec 10 ["dist/game"] Demo.player_deleted) = ProcessExit 1.
Proof.
  pose proof (C3_exit_before_cache_is_stored Demo.toy_exec 10 ["dist/game"]
                Demo.player_deleted) as H.
  cbv zeta in H.
  set (r := updateTargets _ _ _ _ _) in H.
  vm_compute in (value of r). subst r. cbv iota beta in H.
  rewrite H. reflexivity.
Defined.

(** C3 as stated fails: after a build that stored its cache, [Player.cpp]
    is deleted; the next [maek.update] fails and exits with status 1, three
    tasks have a cached key (loaded from the file), and the driver wrote no
    file: the cache file is not rewritten. *)
Lemma C3_counterexample_cache_not_rewritten :
  let r := update Demo.toy_exec 10 ["dist/game"] Demo.player_deleted in
  fst r = ProcessExit 1
  /\ length (cached_entries (snd r)) = 3%nat
  /\ written (snd r) = [].
Proof. vm_compute. repeat split. Qed.

(** ** The resolver: stepping through code with effects *)

Module EngineFacts.

Lemma bind_Ok {A B} (m : M A) (k : A -> M B) (w : World) (a : A) :
  fst (m w) = Ok a -> bind m k w = k a (snd (m w)).
Proof. unfold bind. destruct (m w) as [[a'|e|] w1]; simpl; congruence. Qed.

Lemma bind_Throw {A B} (m : M A) (k : A -> M B) (w : World) (e : Err) :
  fst (m w) = Throw e -> bind m k w = (Throw e, snd (m w)).
Proof. unfold bind. destruct (m w) as [[a'|e'|] w1]; simpl; congruence. Qed.

Lemma bind_Diverge {A B} (m : M A) (k : A -> M B) (w : World) :
  fst (m w) = Diverge -> bind m k w = (Diverge, snd (m w)).
Proof. unfold bind. destruct (m w) as [[a'|e'|] w1]; simpl; congruence. Qed.

(** If the whole returns, so did the first part. *)
Lemma bind_Ok_inv {A B} (m : M A) (k : A -> M B) (w : World) (b : B) :
  fst (bind m k w) = Ok b ->
  exists a, fst (m w) = Ok a /\ fst (k a (snd (m w))) = Ok b.
Proof.
  unfold bind. destruct (m w) as [[a|e|] w1]; simpl; try done. intros H. by exists a.
Qed.

Section WithExec.

Variable exec : list string -> gmap string Node -> ChildResult * gmap string Node.

Lemma run_keyFn_from (rec : list string -> string -> M unit) (t : Task) (f : option string) :
  run_keyFn rec (set_from f t) = run_keyFn rec t.
Proof. by destruct t. Qed.

Lemma run_task_from (rec : list string -> string -> M unit) (ref : nat) (t : Task)
    (f : option string) :
  run_task exec rec ref (set_from f t) = run_task exec rec ref t.
Proof. by destruct t. Qed.

(** A request for one target whose task is not pending yet: the task is
    launched, its promise is stored in [task.pending] and awaited. *)
Lemma request_launches (rec : list string -> string -> M unit) (target requester : string)
    (w : World) (ref : nat) (t : Task) :
  lookup_task w target = Some ref ->
  store w !! ref = Some t ->
  pending t = None ->
  let w0 := snd (update_task ref (set_from (Some requester)) w) in
  let r := launch exec rec ref (set_from (Some requester) t) requester w0 in
  let stored (s : Settled) :=
    snd (update_task ref (set_pending (Some (length (promises (snd r)))))
           (set_promises (promises (snd r) ++ [s]) (snd r))) in
  updateTargets_body exec rec [target] requester w =
    match fst r with
    | Ok _ => (Ok tt, stored Fulfilled)
    | Throw e => (Throw e, stored (Failed e))
    | Diverge => (Diverge, snd r)
    end.
Proof.
  intros Hl Hs Hp w0 r stored. subst stored r w0.
  unfold updateTargets_body. cbn [request].
  unfold bind, gets, get_task, update_task, modify, promise, id. cbn beta iota.
  rewrite Hl, Hs. cbn beta iota. rewrite Hp. cbn [snd].
  match goal with
  | |- context [launch ?a ?b ?c ?d ?e ?f] =>
      destruct (launch a b c d e f) as [[[]|e'|] w1] eqn:Hr
  end; cbn [fst snd]; try done.
  - unfold ret, await_all, bind, gets. cbn.
    by rewrite lookup_app_r, Nat.sub_diag by lia.
  - unfold ret, await_all, bind, gets, throw. cbn.
    by rewrite lookup_app_r, Nat.sub_diag by lia.
Qed.

End WithExec.

End EngineFacts.

(** ** What the helpers do to the trace and to the hash cache *)

Module EffectFacts.
Import EngineFacts.

Lemma marks_app (w : World) (evs : list Event) :
  marks (set_trace (trace w ++ evs) w)
  = marks w ++ omap (fun e => match e with
                              | Spawn c => Some (Ran c)
                              | Delete f => Some (Invalidated f)
                              | _ => None
                              end) evs.
Proof. unfold marks. simpl. by rewrite omap_app. Qed.

Lemma spawned_app (w : World) (evs : list Event) :
  spawned (set_trace (trace w ++ evs) w)
  = spawned w ++ omap (fun e => match e with Spawn c => Some c | _ => None end) evs.
Proof. unfold spawned. simpl. by rewrite omap_app. Qed.

Lemma delete_hash_effect (file : string) (w : World) :
  delete_hash file w
  = (Ok tt, set_hashCache (delete file (hashCache w))
              (set_trace (trace w ++ [Delete file]) w)).
Proof. reflexivity. Qed.

Lemma for_each_delete_hash (targets : list string) : forall w,
  fst (for_each targets delete_hash w) = Ok tt
  /\ marks (snd (for_each targets delete_hash w)) = marks w ++ (Invalidated <$> targets)
  /\ spawned (snd (for_each targets delete_hash w)) = spawned w
  /\ (forall f, hashCache (snd (for_each targets delete_hash w)) !! f
                = if decide (f ∈ targets) then None else hashCache w !! f).
Proof.
  induction targets as [|target targets IH]; intros w.
  - simpl. rewrite app_nil_r. repeat split; done.
  - cbn [for_each]. unfold bind at 1 2 3 4. rewrite delete_hash_effect.
    set (w1 := set_hashCache _ _).
    destruct (IH w1) as (Hok & Hm & Hsp & Hc).
    split; [done|]. split; [|split].
    + rewrite Hm. unfold w1. unfold marks. simpl. rewrite omap_app. simpl.
      by rewrite <- app_assoc.
    + rewrite Hsp. unfold w1, spawned. simpl. rewrite omap_app. simpl.
      by rewrite app_nil_r.
    + intros f. rewrite Hc. unfold w1. simpl.
      destruct (decide (f = target)) as [->|Hne].
      * rewrite lookup_delete_eq. rewrite (decide_True (P := target ∈ target :: targets));
          [by case_decide | apply list_elem_of_here].
      * rewrite lookup_delete_ne by done.
        destruct (decide (f ∈ targets)) as [Hin|Hnin].
        -- rewrite decide_True; [done | by apply list_elem_of_further].
        -- rewrite decide_False; [done|]. by intros [?|?]%elem_of_cons.
Qed.

Lemma mkdir_effect (dir : string) (w : World) :
  marks (snd (mkdir dir w)) = marks w
  /\ spawned (snd (mkdir dir w)) = spawned w
  /\ hashCache (snd (mkdir dir w)) = hashCache w.
Proof.
  unfold mkdir, bind, emit, modify, gets, throw. simpl.
  destruct (files w !! dir) as [[data|]|]; simpl;
    unfold marks, spawned; simpl; rewrite !omap_app; simpl; by rewrite !app_nil_r.
Qed.

Section WithExec.

Variable exec : list string -> gmap string Node -> ChildResult * gmap string Node.

Lemma runCommand_effect (command : list string) (message : string) (w : World) :
  marks (snd (runCommand exec command message w)) = marks w ++ [Ran command]
  /\ spawned (snd (runCommand exec command message w)) = spawned w ++ [command]
  /\ hashCache (snd (runCommand exec command message w)) = hashCache w.
Proof.
  unfold runCommand, bind, emit, modify, gets, throw, ret. simpl.
  destruct (exec command (files w)) as [[[[| |]|]|msg] fs']; simpl;
    unfold marks, spawned; simpl; rewrite !omap_app; simpl;
    by rewrite ?app_nil_r, <- ?app_assoc.
Qed.

Lemma run_recipe_effect (lbl : string) (total : nat) (recipe : list (list string)) :
  forall (step : nat) (w : World),
  let r := run_recipe exec lbl total step recipe w in
  hashCache (snd r) = hashCache w
  /\ exists n, (n <= length recipe)%nat
       /\ spawned (snd r) = spawned w ++ take n recipe
       /\ (recipe <> [] -> (1 <= n)%nat)
       /\ (fst r = Ok tt -> n = length recipe
           /\ marks (snd r) = marks w ++ (Ran <$> recipe)).
Proof.
  induction recipe as [|command recipe IH]; intros step w r.
  - split; [done|]. exists 0%nat. simpl. rewrite !app_nil_r. repeat split; done.
  - subst r. cbn [run_recipe].
    set (m := runCommand exec command _).
    destruct (runCommand_effect command
                (lbl +:+ " (" +:+ Str.of_Z (Z.of_nat step) +:+ "/"
                     +:+ Str.of_Z (Z.of_nat total) +:+ ")") w) as (Hm & Hsp & Hc).
    fold m in Hm, Hsp, Hc.
    destruct (fst (m w)) as [[]|e|] eqn:Hfst.
    + rewrite (bind_Ok m _ w tt Hfst).
      destruct (IH (S step) (snd (m w))) as (Hc' & n & Hn & Hsp' & _ & Hok).
      split; [by rewrite Hc'|]. exists (S n). simpl.
      split; [lia|]. split; [by rewrite Hsp', Hsp, <- app_assoc|].
      split; [lia|]. intros Hr. destruct (Hok Hr) as [-> Hm'].
      split; [done|]. by rewrite Hm', Hm, <- app_assoc.
    + rewrite (bind_Throw m _ w e Hfst). cbn [fst snd].
      split; [done|]. exists 1%nat. simpl. rewrite take_0.
      split; [lia|]. split; [done|]. split; [lia|]. done.
    + rewrite (bind_Diverge m _ w Hfst). cbn [fst snd].
      split; [done|]. exists 1%nat. simpl. rewrite take_0.
      split; [lia|]. split; [done|]. split; [lia|]. done.
Qed.

End WithExec.

Lemma loadDeps_effect (depsFile : string) (deps : list string) (w : World) :
  marks (snd (loadDeps depsFile deps w)) = marks w
  /\ spawned (snd (loadDeps depsFile deps w)) = spawned w
  /\ hashCache (snd (loadDeps depsFile deps w)) = hashCache w.
Proof.
  unfold loadDeps, bind, gets. simpl.
  destruct (files w !! depsFile) as [[text|]|]; simpl; try done.
  unfold console_assert, emit, modify, ret.
  destruct (bool_decide _), (bool_decide _); simpl; try done;
    unfold marks, spawned; simpl; rewrite ?omap_app; simpl; by rewrite ?app_nil_r.
Qed.

Lemma assertNontargets_effect (prerequisites : list string) (ruleName : string) (w : World) :
  snd (assertNontargets prerequisites ruleName w) = w.
Proof.
  unfold assertNontargets, bind, gets. simpl.
  by destruct (filter _ prerequisites).
Qed.

End EffectFacts.

(** ** Claim C1: a cache hit skips the task *)

Module LaunchFacts.
Import EngineFacts.

Section WithExec.

Variable exec : list string -> gmap string Node -> ChildResult * gmap string Node.
Variable rec : list string -> string -> M unit.

Lemma launch_Ok (ref : nat) (t : Task) (requester : string) (w : World) :
  fst (attempt exec rec ref t w) = Ok tt ->
  launch exec rec ref t requester w = attempt exec rec ref t w.
Proof. unfold launch. by destruct (attempt exec rec ref t w) as [[[]|e|] w1]. Qed.

Lemma launch_BuildError (ref : nat) (t : Task) (requester message : string) (w : World) :
  fst (attempt exec rec ref t w) = Throw (BuildError message) ->
  launch exec rec ref t requester w
  = (Throw (BuildError "prerequisite failed."),
     set_trace (trace (snd (attempt exec rec ref t w))
                ++ [ConsoleError ("FAILED: " +:+ label t +:+ " (requested by "
                                  +:+ requester +:+ "): " +:+ message)])
               (snd (attempt exec rec ref t w))).
Proof.
  unfold launch. destruct (attempt exec rec ref t w) as [[[]|e|] w1]; simpl; try done.
  by intros [= ->].
Qed.

Lemma launch_other (ref : nat) (t : Task) (requester : string) (w : World) :
  (forall message, fst (attempt exec rec ref t w) <> Throw (BuildError message)) ->
  launch exec rec ref t requester w = attempt exec rec ref t w.
Proof.
  unfold launch. destruct (attempt exec rec ref t w) as [[[]|[message|message]|] w1];
    simpl; try done.
  intros H. by destruct (H message).
Qed.

(** With a cached key that the new key matches, the [try] block ends
    after [keyFn]. *)
Lemma attempt_hit (ref : nat) (t : Task) (cached key : json) (w : World) :
  keyFn t = true ->
  cachedKey t = Some cached ->
  fst (run_keyFn rec t w) = Ok key ->
  Json.stringify key = Json.stringify cached ->
  attempt exec rec ref t w = (Ok tt, snd (run_keyFn rec t w)).
Proof.
  intros Hk Hc Hrun Heq. unfold attempt. rewrite Hk, Hc.
  unfold bind. destruct (run_keyFn rec t w) as [[k|e|] w1]; simpl in *; try done.
  injection Hrun as ->. unfold ret. simpl. rewrite Heq, String.eqb_refl. done.
Qed.

(** Without [keyFn] the [try] block is the call of the task. *)
Lemma attempt_without_keyFn (ref : nat) (t : Task) (w : World) :
  keyFn t = false ->
  attempt exec rec ref t w = run_task exec rec ref t w.
Proof.
  intros Hk. unfold attempt. rewrite Hk.
  assert (match cachedKey t with Some _ | _ => ret false end = ret false :> M bool) as ->
    by by destruct (cachedKey t).
  unfold bind, ret. simpl. by destruct (run_task exec rec ref t w) as [[[]|e|] w1].
Qed.

End WithExec.

End LaunchFacts.



(** ** The resolver only extends the trace and the promise table *)

Module GrowFacts.

#[global] Instance grows_refl : Reflexive grows.
Proof. intros w. unfold grows. done. Qed.

#[global] Instance grows_trans : Transitive grows.
Proof.
  intros w1 w2 w3 (Ht & Hp & Hs) (Ht' & Hp' & Hs'). unfold grows.
  split; [by etrans|]. split; [by etrans|]. congruence.
Qed.

Lemma growing_ret {A} (a : A) : growing (ret a).
Proof. intros w. reflexivity. Qed.

Lemma growing_throw {A} (e : Err) : growing (throw (A := A) e).
Proof. intros w. reflexivity. Qed.

Lemma growing_gets {A} (f : World -> A) : growing (gets f).
Proof. intros w. reflexivity. Qed.

Lemma growing_diverge {A} : growing (fun w => (Diverge (A := A), w)).
Proof. intros w. reflexivity. Qed.

Lemma growing_bind {A B} (m : M A) (k : A -> M B) :
  growing m -> (forall a, growing (k a)) -> growing (bind m k).
Proof.
  intros Hm Hk w. unfold bind. specialize (Hm w).
  destruct (m w) as [[a|e|] w1]; simpl in *; try done.
  etrans; [exact Hm | apply Hk].
Qed.

Lemma growing_modify (f : World -> World) :
  (forall w, grows w (f w)) -> growing (modify f).
Proof. intros Hf w. apply Hf. Qed.

Lemma growing_emit (e : Event) : growing (emit e).
Proof.
  apply growing_modify. intros w. unfold grows. simpl.
  split; [by apply prefix_app_r|]. done.
Qed.

Lemma growing_for_each {A} (l : list A) (body : A -> M unit) :
  (forall x, growing (body x)) -> growing (for_each l body).
Proof.
  intros Hbody. induction l as [|x l IH]; simpl.
  - apply growing_ret.
  - apply growing_bind; [apply Hbody | intros ?; apply IH].
Qed.

Lemma growing_set_files (fs : gmap string Node) : growing (modify (set_files fs)).
Proof. apply growing_modify. intros w. unfold grows. done. Qed.

Lemma growing_set_hashCache (f : World -> gmap string string) :
  growing (modify (fun w => set_hashCache (f w) w)).
Proof. apply growing_modify. intros w. unfold grows. done. Qed.

(** Changing [cachedKey], [pending] or [from] of a task keeps the
    skeleton. *)
Lemma skeleton_alter (f : Task -> Task) (ref : nat) (w : World) :
  (forall t, (kind (f t), label (f t), keyFn (f t)) = (kind t, label t, keyFn t)) ->
  skeleton (set_store (alter f ref (store w)) w) = skeleton w.
Proof.
  intros Hf. unfold skeleton. simpl. f_equal.
  generalize (store w) as l. intros l. revert ref.
  induction l as [|t l IH]; intros ref; [by destruct ref|].
  destruct ref as [|ref]; simpl.
  - by rewrite Hf.
  - f_equal. apply IH.
Qed.

Lemma growing_update_task (ref : nat) (f : Task -> Task) :
  (forall t, (kind (f t), label (f t), keyFn (f t)) = (kind t, label t, keyFn t)) ->
  growing (update_task ref f).
Proof.
  intros Hf. apply growing_modify. intros w. unfold grows.
  split; [done|]. split; [done|]. by apply skeleton_alter.
Qed.

Lemma growing_delete_hash (file : string) : growing (delete_hash file).
Proof.
  apply growing_bind; [apply growing_emit|]. intros ?.
  apply growing_set_hashCache.
Qed.

Lemma growing_hashFiles (targets : list string) : growing (hashFiles targets).
Proof.
  intros w.
  destruct (HashFilesFacts.hashFiles_records targets w) as (c' & Hrun & _).
  rewrite Hrun. unfold grows. done.
Qed.

Lemma growing_loadDeps (depsFile : string) (deps : list string) :
  growing (loadDeps depsFile deps).
Proof.
  apply growing_bind; [apply growing_gets|]. intros fs.
  destruct (fs !! depsFile) as [[text|]|]; try apply growing_ret.
  unfold console_assert.
  apply growing_bind; [case_bool_decide; [apply growing_ret | apply growing_emit]|].
  intros ?.
  apply growing_bind; [case_bool_decide; [apply growing_ret | apply growing_emit]|].
  intros ?. apply growing_ret.
Qed.

Lemma growing_assertNontargets (prerequisites : list string) (ruleName : string) :
  growing (assertNontargets prerequisites ruleName).
Proof.
  intros w. rewrite EffectFacts.assertNontargets_effect. reflexivity.
Qed.

Lemma growing_mkdir (dir : string) : growing (mkdir dir).
Proof.
  apply growing_bind; [apply growing_emit|]. intros ?.
  apply growing_bind; [apply growing_gets|]. intros fs.
  destruct (fs !! dir) as [[data|]|];
    [apply growing_throw | apply growing_set_files..].
Qed.

End GrowFacts.

Module GrowEngine.
Import GrowFacts.

Section WithExec.

Variable exec : list string -> gmap string Node -> ChildResult * gmap string Node.

Lemma growing_runCommand (command : list string) (message : string) :
  growing (runCommand exec command message).
Proof.
  apply growing_bind; [apply growing_emit|]. intros ?.
  apply growing_bind; [apply growing_emit|]. intros ?.
  apply growing_bind; [apply growing_emit|]. intros ?.
  apply growing_bind; [apply growing_gets|]. intros fs.
  destruct (exec command fs) as [result fs'].
  apply growing_bind; [apply growing_set_files|]. intros ?.
  destruct result as [[[| |]|]|msg]; first [apply growing_ret | apply growing_throw].
Qed.

Lemma growing_run_recipe (lbl : string) (total : nat) (recipe : list (list string)) :
  forall step, growing (run_recipe exec lbl total step recipe).
Proof.
  induction recipe as [|command recipe IH]; intros step; simpl.
  - apply growing_ret.
  - apply growing_bind; [apply growing_runCommand | intros ?; apply IH].
Qed.

Section Step.

Variable rec : list string -> string -> M unit.
Hypothesis growing_rec : forall targets requester, growing (rec targets requester).

Lemma growing_task_body (t : Task) : growing (task_body exec rec t).
Proof.
  unfold task_body.
  destruct (kind t).
  - apply growing_bind; [apply growing_rec|]. intros ?.
    apply growing_bind; [apply growing_run_recipe|]. intros ?.
    apply growing_for_each. intros ?. apply growing_delete_hash.
  - repeat (apply growing_bind;
            [first [apply growing_rec | apply growing_delete_hash | apply growing_mkdir
                   | apply growing_runCommand | apply growing_loadDeps] | intros ?]).
    apply growing_assertNontargets.
  - repeat (apply growing_bind;
            [first [apply growing_rec | apply growing_delete_hash | apply growing_mkdir] | intros ?]).
    apply growing_runCommand.
Qed.

Lemma growing_run_task (ref : nat) (t : Task) : growing (run_task exec rec ref t).
Proof.
  apply growing_bind; [apply growing_emit | intros ?; apply growing_task_body].
Qed.

Lemma growing_run_keyFn (t : Task) : growing (run_keyFn rec t).
Proof.
  unfold run_keyFn.
  destruct (kind t);
    repeat (apply growing_bind;
            [first [apply growing_rec | apply growing_hashFiles | apply growing_loadDeps
                   | apply growing_assertNontargets] | intros ?]);
    apply growing_ret.
Qed.

Lemma growing_attempt (ref : nat) (t : Task) : growing (attempt exec rec ref t).
Proof.
  unfold attempt.
  apply growing_bind.
  - destruct (cachedKey t), (keyFn t); try apply growing_ret.
    apply growing_bind; [apply growing_run_keyFn | intros ?; apply growing_ret].
  - intros [|]; [apply growing_ret|].
    apply growing_bind; [apply growing_run_task|]. intros ?.
    destruct (keyFn t); [|apply growing_ret].
    apply growing_bind; [apply growing_run_keyFn|]. intros ?.
    by apply growing_update_task.
Qed.

Lemma growing_launch (ref : nat) (t : Task) (requester : string) :
  growing (launch exec rec ref t requester).
Proof.
  intros w. unfold launch. pose proof (growing_attempt ref t w) as Ha.
  destruct (attempt exec rec ref t w) as [[[]|[message|message]|] w1];
    cbn [fst snd] in *; try done.
  etrans; [exact Ha|].
  match goal with
  | |- grows w1 (snd (bind ?m ?k w1)) => apply (growing_bind m k)
  end; [apply growing_emit|].
  intros ?. apply growing_throw.
Qed.

Lemma growing_promise (m : M unit) : growing m -> growing (promise m).
Proof.
  intros Hm w. unfold promise. specialize (Hm w).
  destruct (m w) as [[[]|e|] w1]; simpl in *; try done.
  - etrans; [exact Hm|]. unfold grows. simpl. split; [done|].
    split; [by apply prefix_app_r | done].
  - etrans; [exact Hm|]. unfold grows. simpl. split; [done|].
    split; [by apply prefix_app_r | done].
Qed.

Lemma growing_check_exists (target requester : string) :
  growing (check_exists target requester).
Proof.
  apply growing_bind; [apply growing_gets|]. intros fs.
  destruct (fs !! target); [apply growing_ret | apply growing_throw].
Qed.

Lemma growing_get_task (ref : nat) : growing (get_task ref).
Proof. intros w. unfold get_task. by destruct (store w !! ref). Qed.

Lemma growing_request (targets : list string) (requester : string) :
  forall handles, growing (request exec rec targets requester handles).
Proof.
  induction targets as [|target targets IH]; intros handles; cbn [request].
  - apply growing_ret.
  - apply growing_bind; [apply growing_gets|]. intros w.
    destruct (lookup_task w target) as [ref|].
    + apply growing_bind; [apply growing_get_task|]. intros t.
      destruct (pending t) as [h|]; [apply IH|].
      apply growing_bind; [by apply growing_update_task|]. intros ?.
      apply growing_bind; [apply growing_promise, growing_launch|]. intros h.
      apply growing_bind; [by apply growing_update_task|]. intros ?.
      apply IH.
    + destruct (is_abstract target); [apply growing_throw|].
      apply growing_bind; [apply growing_promise, growing_check_exists|]. intros h.
      apply IH.
Qed.

Lemma growing_await_all (handles : list nat) : growing (await_all handles).
Proof.
  induction handles as [|h handles IH]; simpl; [apply growing_ret|].
  apply growing_bind; [apply growing_gets|]. intros ps.
  destruct (ps !! h) as [[|e]|]; first [apply IH | apply growing_throw].
Qed.

Lemma growing_updateTargets_body (targets : list string) (requester : string) :
  growing (updateTargets_body exec rec targets requester).
Proof.
  apply growing_bind; [apply growing_request | intros ?; apply growing_await_all].
Qed.

End Step.

(** Every call of [updateTargets] extends the trace and the promise table
    and keeps the skeleton. *)
Lemma growing_updateTargets (fuel : nat) :
  forall targets requester, growing (updateTargets exec fuel targets requester).
Proof.
  induction fuel as [|fuel IH]; intros targets requester; simpl.
  - apply growing_diverge.
  - by apply growing_updateTargets_body.
Qed.

End WithExec.

End GrowEngine.

(** ** Claim C6: a [RULE] with an abstract target is never cached *)

Module RuleFacts.
Import EngineFacts.

Lemma obj_get_set {A} (k k' : string) (v : A) (o : list (string * A)) :
  Json.obj_get k' (Json.obj_set k v o)
  = if decide (k' = k) then Some v else Json.obj_get k' o.
Proof.
  induction o as [|[k0 v0] o IH]; simpl.
  - destruct (String.eqb_spec k k') as [->|Hne]; [by rewrite decide_True|].
    by rewrite decide_False by congruence.
  - destruct (String.eqb_spec k0 k) as [->|Hne]; simpl.
    + destruct (String.eqb_spec k k') as [->|Hne']; [by rewrite decide_True|].
      by rewrite decide_False by congruence.
    + destruct (String.eqb_spec k0 k') as [->|Hne'].
      * by rewrite decide_False by congruence.
      * apply IH.
Qed.

(** Registering one task object for several targets. *)
Lemma for_each_register (ref : nat) (targets : list string) : forall w,
  let w' := snd (for_each targets (fun target => register target ref) w) in
  fst (for_each targets (fun target => register target ref) w) = Ok tt
  /\ store w' = store w
  /\ forall target, lookup_task w' target
       = if decide (target ∈ targets) then Some ref else lookup_task w target.
Proof.
  induction targets as [|x targets IH]; intros w w'.
  - repeat split; try done.
  - subst w'. cbn [for_each]. unfold bind at 1 2 3. cbn [register modify fst snd].
    set (w1 := set_tasks _ w).
    destruct (IH w1) as (Hok & Hst & Hl).
    split; [done|]. split; [by rewrite Hst|].
    intros target. rewrite Hl.
    assert (lookup_task w1 target
            = if decide (target = x) then Some ref else lookup_task w target) as ->.
    { unfold lookup_task, w1. cbn [tasks set_tasks]. apply obj_get_set. }
    destruct (decide (target ∈ targets)) as [Hin|Hnin].
    + rewrite decide_True; [done | by apply list_elem_of_further].
    + destruct (decide (target = x)) as [->|Hne].
      * rewrite decide_True; [done | apply list_elem_of_here].
      * rewrite decide_False; [done|]. by intros [?|?]%elem_of_cons.
Qed.

End RuleFacts.

Module RequestFacts.
Import EngineFacts.

Section WithExec.

Variable exec : list string -> gmap string Node -> ChildResult * gmap string Node.

(** The trace after a request that launches a task is the trace the
    launched function leaves. *)
Lemma request_trace (rec : list string -> string -> M unit) (target requester : string)
    (w : World) (ref : nat) (t : Task) :
  lookup_task w target = Some ref ->
  store w !! ref = Some t ->
  pending t = None ->
  let w0 := snd (update_task ref (set_from (Some requester)) w) in
  let r := launch exec rec ref (set_from (Some requester) t) requester w0 in
  trace (snd (updateTargets_body exec rec [target] requester w)) = trace (snd r)
  /\ (fst (updateTargets_body exec rec [target] requester w) = Ok tt -> fst r = Ok tt).
Proof.
  intros Hl Hs Hp w0 r.
  rewrite (request_launches exec rec target requester w ref t Hl Hs Hp).
  fold w0. fold r. by destruct (fst r) as [[]|e|].
Qed.

(** What the launched function leaves when the task has no [keyFn]: the
    trace of the call of the task, and a line on [stderr] if it failed. *)
Lemma launch_without_keyFn (rec : list string -> string -> M unit) (ref : nat) (t : Task)
    (requester : string) (w : World) :
  keyFn t = false ->
  let r := run_task exec rec ref t w in
  (fst (launch exec rec ref t requester w) = Ok tt -> fst r = Ok tt)
  /\ exists line, trace (snd (launch exec rec ref t requester w)) = trace (snd r) ++ line
       /\ spawned (snd (launch exec rec ref t requester w)) = spawned (snd r).
Proof.
  intros Hk r. unfold launch.
  rewrite (LaunchFacts.attempt_without_keyFn exec rec ref t w Hk). fold r.
  destruct r as [[[]|[message|message]|] w1]; cbn [fst snd];
    try (split; [done|]; exists []; by rewrite app_nil_r).
  split; [done|]. eexists. unfold bind, emit, modify, throw. cbn [fst snd].
  split; [reflexivity|]. unfold spawned. simpl. rewrite omap_app. simpl.
  by rewrite app_nil_r.
Qed.

End WithExec.

End RequestFacts.



(** ** Claim C9: when tasks delete hash cache entries *)

Module InvalidationFacts.
Import EngineFacts EffectFacts.

Lemma delete_hash_marks (file : string) (w : World) :
  fst (delete_hash file w) = Ok tt
  /\ marks (snd (delete_hash file w)) = marks w ++ [Invalidated file]
  /\ hashCache (snd (delete_hash file w)) = delete file (hashCache w).
Proof.
  rewrite delete_hash_effect. cbn [fst snd]. split; [done|]. split; [|done].
  unfold marks. simpl. by rewrite omap_app.
Qed.

Lemma emit_Call_marks (ref : nat) (w : World) :
  marks (snd (emit (Call ref) w)) = marks w
  /\ hashCache (snd (emit (Call ref) w)) = hashCache w.
Proof. unfold marks. simpl. rewrite omap_app. simpl. by rewrite app_nil_r. Qed.

End InvalidationFacts.

(** Take the next statement of a sequence that returned. *)
Ltac next_statement H a Ha :=
  apply EngineFacts.bind_Ok_inv in H as (a & Ha & H);
  rewrite (EngineFacts.bind_Ok _ _ _ a Ha).

(** C9, as amended.  A task deletes the hash cache entry of each file it
    produces once.  A generic recipe task deletes the entries of its
    targets after all commands of the recipe have run, and not before; a
    compile task deletes the entry of the object file just before the
    compile command and the entry of the dep-file just before the probe
    command, and not after; a link task deletes the entry of the
    executable just before the link command, and not after.  When the task
    returns, no file it produces has an entry in the hash cache, so the
    [keyFn] that follows reads each of them again. *)
Theorem C9_one_invalidation_per_product
    (exec : list string -> gmap string Node -> ChildResult * gmap string Node)
    (fuel : nat) (ref : nat) (t : Task) (w : World) :
  let work := run_task exec (updateTargets exec fuel) ref t w in
  let ready :=
    updateTargets exec fuel (prerequisites_of (kind t)) (label t)
      (snd (emit (Call ref) w)) in
  fst work = Ok tt ->
  marks (snd work)
  = marks (snd ready)
    ++ match kind t with
       | Rule targets _ recipe => (Ran <$> recipe) ++ (Invalidated <$> targets)
       | Cpp objFile depsFile _ objCommand depsCommand =>
           [Invalidated objFile; Ran objCommand; Invalidated depsFile; Ran depsCommand]
       | Link exeFile _ linkCommand => [Invalidated exeFile; Ran linkCommand]
       end
  /\ (forall f, f ∈ produced (kind t) -> hashCache (snd work) !! f = None).
Proof.
  intros work ready Hwork. subst work ready. unfold run_task, task_body in *.
  destruct (kind t) as [targets prerequisites recipe
                       | objFile depsFile deps objCommand depsCommand
                       | exeFile deps linkCommand]; cbn [prerequisites_of produced].
  - next_statement Hwork u0 H0. destruct u0.
    next_statement Hwork u1 H1. destruct u1.
    next_statement Hwork u2 H2. destruct u2.
    set (w1 := snd (updateTargets exec fuel prerequisites (label t) _)) in *.
    destruct (EffectFacts.run_recipe_effect exec (label t) (length recipe) recipe 1 w1)
      as (Hc & n & _ & _ & _ & Hall).
    destruct (Hall H2) as [_ Hm].
    destruct (EffectFacts.for_each_delete_hash targets
                (snd (run_recipe exec (label t) (length recipe) 1 recipe w1)))
      as (_ & Hm' & _ & Hc').
    split.
    + by rewrite Hm', Hm, <- app_assoc.
    + intros f Hin. by rewrite Hc', decide_True.
  - next_statement Hwork u0 H0. destruct u0.
    next_statement Hwork u1 H1. destruct u1.
    set (w1 := snd (updateTargets exec fuel deps (label t) _)) in *.
    next_statement Hwork u2 H2. destruct u2.
    destruct (InvalidationFacts.delete_hash_marks objFile w1) as (_ & Hm2 & Hc2).
    set (w2 := snd (delete_hash objFile w1)) in *.
    next_statement Hwork u3 H3. destruct u3.
    destruct (EffectFacts.mkdir_effect (Path.dirname objFile) w2) as (Hm3 & _ & Hc3).
    set (w3 := snd (mkdir (Path.dirname objFile) w2)) in *.
    next_statement Hwork u4 H4. destruct u4.
    destruct (EffectFacts.runCommand_effect exec objCommand (label t +:+ ": compile") w3)
      as (Hm4 & _ & Hc4).
    set (w4 := snd (runCommand exec objCommand (label t +:+ ": compile") w3)) in *.
    next_statement Hwork u5 H5. destruct u5.
    destruct (InvalidationFacts.delete_hash_marks depsFile w4) as (_ & Hm5 & Hc5).
    set (w5 := snd (delete_hash depsFile w4)) in *.
    next_statement Hwork u6 H6. destruct u6.
    destruct (EffectFacts.mkdir_effect (Path.dirname depsFile) w5) as (Hm6 & _ & Hc6).
    set (w6 := snd (mkdir (Path.dirname depsFile) w5)) in *.
    next_statement Hwork u7 H7. destruct u7.
    destruct (EffectFacts.runCommand_effect exec depsCommand (label t +:+ ": prerequisites") w6)
      as (Hm7 & _ & Hc7).
    set (w7 := snd (runCommand exec depsCommand (label t +:+ ": prerequisites") w6)) in *.
    next_statement Hwork extra H8.
    destruct (EffectFacts.loadDeps_effect depsFile deps w7) as (Hm8 & _ & Hc8).
    rewrite EffectFacts.assertNontargets_effect.
    split.
    + rewrite Hm8, Hm7, Hm6, Hm5, Hm4, Hm3, Hm2. by rewrite <- !app_assoc.
    + intros f Hin. rewrite Hc8, Hc7, Hc6, Hc5, Hc4, Hc3, Hc2.
      apply lookup_delete_None.
      destruct (decide (depsFile = f)) as [|Hne]; [by left|]. right.
      apply lookup_delete_None. left.
      apply elem_of_cons in Hin as [->|Hin]; [done|].
      apply list_elem_of_singleton in Hin. congruence.
  - next_statement Hwork u0 H0. destruct u0.
    next_statement Hwork u1 H1. destruct u1.
    set (w1 := snd (updateTargets exec fuel deps (label t) _)) in *.
    next_statement Hwork u2 H2. destruct u2.
    destruct (InvalidationFacts.delete_hash_marks exeFile w1) as (_ & Hm2 & Hc2).
    set (w2 := snd (delete_hash exeFile w1)) in *.
    next_statement Hwork u3 H3. destruct u3.
    destruct (EffectFacts.mkdir_effect (Path.dirname exeFile) w2) as (Hm3 & _ & Hc3).
    set (w3 := snd (mkdir (Path.dirname exeFile) w2)) in *.
    destruct (EffectFacts.runCommand_effect exec linkCommand (label t +:+ ": link") w3)
      as (Hm4 & _ & Hc4).
    split.
    + rewrite Hm4, Hm3, Hm2. by rewrite <- !app_assoc.
    + intros f Hin. rewrite Hc4, Hc3, Hc2. apply list_elem_of_singleton in Hin as ->.
      apply lookup_delete_eq.
Qed.

Lemma C9_witness :
  let work :=
    run_task Demo.toy_exec (updateTargets Demo.toy_exec 9) 2 Demo.link_task
      (Demo.start Demo.sources) in
  store (Demo.start Demo.sources) !! 2%nat = Some Demo.link_task
  /\ (forall f, f ∈ ["dist/game"] -> hashCache (snd work) !! f = None).
Proof.
  intros work. split; [vm_compute; reflexivity|].
  apply (C9_one_invalidation_per_product Demo.toy_exec 9 2 Demo.link_task
           (Demo.start Demo.sources)).
  vm_compute. reflexivity.
Defined.

(** C9 as stated fails.  In the first build of [dist/game] the entry of
    the executable is deleted once, before the link command, and not again
    after it; the recipe task for [common.hpp] runs its command first and
    deletes the entry of its target afterwards only. *)
Lemma C9_counterexample_single_invalidation :
  filter (fun m => m = Invalidated "dist/game" \/ m = Ran Demo.link_command)
         (marks Demo.after_build)
  = [Invalidated "dist/game"; Ran Demo.link_command]
  /\ marks (snd (update Demo.toy_exec 10 ["common.hpp"] Demo.start_with_generated_header))
     = [Ran ["touch"; "common.hpp"]; Invalidated "common.hpp"].
Proof. vm_compute. split; reflexivity. Qed.

(** ** Claim C8: one pending handle per task *)

Module QuietFacts.

#[global] Instance ctl_refl : Reflexive ctl.
Proof. intros w. unfold ctl. done. Qed.

#[global] Instance ctl_trans : Transitive ctl.
Proof.
  intros w1 w2 w3 (Hs & Ht & Hp & Hc) (Hs' & Ht' & Hp' & Hc'). unfold ctl.
  split; [congruence|]. split; [congruence|]. split; [congruence|].
  intros ref. by rewrite Hc', Hc.
Qed.

Lemma calls_emit (ref : nat) (e : Event) (w : World) :
  calls ref (snd (emit e w))
  = (calls ref w + if decide (e = Call ref) then 1 else 0)%nat.
Proof.
  unfold calls. simpl. rewrite filter_app, length_app. f_equal.
  rewrite filter_cons, filter_nil. by case_decide.
Qed.

Lemma quiet_ret {A} (a : A) : quiet (ret a).
Proof. intros w. split; [reflexivity | done]. Qed.

Lemma quiet_throw {A} (e : Err) : quiet (throw (A := A) e).
Proof. intros w. split; [reflexivity | done]. Qed.

Lemma quiet_gets {A} (f : World -> A) : quiet (gets f).
Proof. intros w. split; [reflexivity | done]. Qed.

Lemma quiet_bind {A B} (m : M A) (k : A -> M B) :
  quiet m -> (forall a, quiet (k a)) -> quiet (bind m k).
Proof.
  intros Hm Hk w. unfold bind. destruct (Hm w) as [Hc Hd].
  destruct (m w) as [[a|e|] w1]; cbn [fst snd] in *; try done.
  destruct (Hk a w1) as [Hc' Hd']. split; [by etrans | done].
Qed.

Lemma quiet_modify (f : World -> World) :
  (forall w, ctl w (f w)) -> quiet (modify f).
Proof. intros Hf w. split; [apply Hf | done]. Qed.

Lemma quiet_emit (e : Event) : (forall ref, e <> Call ref) -> quiet (emit e).
Proof.
  intros He w. split; [|done]. unfold ctl. do 3 (split; [done|]).
  intros ref. rewrite calls_emit. rewrite decide_False by apply He. lia.
Qed.

Lemma quiet_for_each {A} (l : list A) (body : A -> M unit) :
  (forall x, quiet (body x)) -> quiet (for_each l body).
Proof.
  intros Hbody. induction l as [|x l IH]; simpl.
  - apply quiet_ret.
  - apply quiet_bind; [apply Hbody | intros ?; apply IH].
Qed.

Lemma quiet_set_files (fs : gmap string Node) : quiet (modify (set_files fs)).
Proof. apply quiet_modify. intros w. unfold ctl. done. Qed.

Lemma quiet_delete_hash (file : string) : quiet (delete_hash file).
Proof.
  apply quiet_bind; [by apply quiet_emit|]. intros ?.
  apply quiet_modify. intros w. unfold ctl. done.
Qed.

Lemma quiet_hashFiles (targets : list string) : quiet (hashFiles targets).
Proof.
  intros w.
  destruct (HashFilesFacts.hashFiles_records targets w) as (c' & Hrun & _).
  rewrite Hrun. split; [|done]. unfold ctl. done.
Qed.

Lemma quiet_console_assert (cond : bool) : quiet (console_assert cond).
Proof. destruct cond; [apply quiet_ret | by apply quiet_emit]. Qed.

Lemma quiet_loadDeps (depsFile : string) (deps : list string) :
  quiet (loadDeps depsFile deps).
Proof.
  apply quiet_bind; [apply quiet_gets|]. intros fs.
  destruct (fs !! depsFile) as [[text|]|]; try apply quiet_ret.
  apply quiet_bind; [apply quiet_console_assert|]. intros ?.
  apply quiet_bind; [apply quiet_console_assert|]. intros ?. apply quiet_ret.
Qed.

Lemma quiet_assertNontargets (prerequisites : list string) (ruleName : string) :
  quiet (assertNontargets prerequisites ruleName).
Proof.
  apply quiet_bind; [apply quiet_gets|]. intros w.
  destruct (filter _ prerequisites); [apply quiet_ret | apply quiet_throw].
Qed.

Lemma quiet_mkdir (dir : string) : quiet (mkdir dir).
Proof.
  apply quiet_bind; [by apply quiet_emit|]. intros ?.
  apply quiet_bind; [apply quiet_gets|]. intros fs.
  destruct (fs !! dir) as [[data|]|];
    [apply quiet_throw | apply quiet_set_files..].
Qed.

Lemma quiet_check_exists (target requester : string) :
  quiet (check_exists target requester).
Proof.
  apply quiet_bind; [apply quiet_gets|]. intros fs.
  destruct (fs !! target); [apply quiet_ret | apply quiet_throw].
Qed.

Lemma quiet_await_all (handles : list nat) : quiet (await_all handles).
Proof.
  induction handles as [|h handles IH]; simpl; [apply quiet_ret|].
  apply quiet_bind; [apply quiet_gets|]. intros ps.
  destruct (ps !! h) as [[|e]|]; first [apply IH | apply quiet_throw].
Qed.

Lemma quiet_get_task (ref : nat) : quiet (get_task ref).
Proof.
  intros w. unfold get_task. destruct (store w !! ref); split; done.
Qed.

Section WithExec.

Variable exec : list string -> gmap string Node -> ChildResult * gmap string Node.

Lemma quiet_runCommand (command : list string) (message : string) :
  quiet (runCommand exec command message).
Proof.
  apply quiet_bind; [by apply quiet_emit|]. intros ?.
  apply quiet_bind; [by apply quiet_emit|]. intros ?.
  apply quiet_bind; [by apply quiet_emit|]. intros ?.
  apply quiet_bind; [apply quiet_gets|]. intros fs.
  destruct (exec command fs) as [result fs'].
  apply quiet_bind; [apply quiet_set_files|]. intros ?.
  destruct result as [[[| |]|]|msg]; first [apply quiet_ret | apply quiet_throw].
Qed.

Lemma quiet_run_recipe (lbl : string) (total : nat) (recipe : list (list string)) :
  forall step, quiet (run_recipe exec lbl total step recipe).
Proof.
  induction recipe as [|command recipe IH]; intros step; simpl.
  - apply quiet_ret.
  - apply quiet_bind; [apply quiet_runCommand | intros ?; apply IH].
Qed.

End WithExec.

End QuietFacts.

Module KeepFacts.

Lemma same_refl (ref : nat) (w : World) : same ref w w.
Proof. unfold same. done. Qed.

Lemma same_trans (ref : nat) (w1 w2 w3 : World) :
  same ref w1 w2 -> same ref w2 w3 -> same ref w1 w3.
Proof. intros [Hs Hc] [Hs' Hc']. unfold same. split; congruence. Qed.

Lemma is_pending_same (ref : nat) (w w' : World) :
  same ref w w' -> is_pending w ref -> is_pending w' ref.
Proof.
  intros [Hs _] (t & h & Ht & Hp). exists t, h. split; [congruence | done].
Qed.

Lemma not_pending_same (ref : nat) (w w' : World) :
  same ref w w' -> ~ is_pending w ref -> ~ is_pending w' ref.
Proof.
  intros [Hs _] Hn (t & h & Ht & Hp). apply Hn. exists t, h. split; [congruence | done].
Qed.

Lemma keeps_refl (U : nat -> Prop) (w : World) : keeps U w w.
Proof. intros ref _. apply same_refl. Qed.

Lemma keeps_trans (U : nat -> Prop) (w1 w2 w3 : World) :
  keeps U w1 w2 -> keeps U w2 w3 -> keeps U w1 w3.
Proof.
  intros H12 H23 ref Href. pose proof (H12 ref Href) as Hs.
  eapply same_trans; [exact Hs|]. apply H23.
  destruct Href as [HU|Hp]; [by left|]. right. by eapply is_pending_same.
Qed.

Lemma keeps_mono (U U' : nat -> Prop) (w w' : World) :
  (forall ref, U ref -> U' ref) -> keeps U w w' -> keeps U' w w'.
Proof.
  intros HU Hk ref [Hn|Hp]; apply Hk; [left | by right]. intros ?. apply Hn. by apply HU.
Qed.

Lemma ctl_same (ref : nat) (w w' : World) : ctl w w' -> same ref w w'.
Proof. intros (Hs & _ & _ & Hc). unfold same. by rewrite Hs, Hc. Qed.

Lemma ctl_keeps (U : nat -> Prop) (w w' : World) : ctl w w' -> keeps U w w'.
Proof. intros Hc ref _. by apply ctl_same. Qed.

Lemma ctl_skeleton (w w' : World) : ctl w w' -> skeleton w' = skeleton w.
Proof. intros (Hs & Ht & _). unfold skeleton. by rewrite Hs, Ht. Qed.

(** [Once_at] only reads the task object, the count of its calls and the
    promises, which are never removed. *)
Lemma Once_at_same (ref : nat) (w w' : World) :
  same ref w w' -> promises w `prefix_of` promises w' ->
  Once_at w ref -> Once_at w' ref.
Proof.
  intros [Hs Hc] Hp Ho t Ht. rewrite Hs in Ht. specialize (Ho t Ht).
  unfold once_task in *. rewrite Hc. destruct (pending t) as [h|]; [|done].
  apply andb_true_iff in Ho as [Hle Hsome]. apply andb_true_iff. split; [done|].
  apply bool_decide_eq_true in Hsome as [s Hsome]. apply bool_decide_eq_true.
  exists s. by eapply prefix_lookup_Some.
Qed.

Section Careful.

Variable Inv : World -> Prop.
Variable U : nat -> Prop.
Variable K : World -> Prop.

Lemma careful_bind {A B} (m : M A) (k : A -> M B) :
  careful Inv U K m -> (forall a, careful Inv U K (k a)) -> careful Inv U K (bind m k).
Proof.
  intros Hm Hk w Hw. unfold bind. destruct (Hm w Hw) as (Hi & Hkeep & HK).
  destruct (m w) as [[a|e|] w1]; cbn [fst snd] in *; [|by auto..].
  destruct (Hk a w1 Hi) as (Hi' & Hkeep' & HK').
  split; [done|]. split; [by eapply keeps_trans|].
  intros HKw Hd. apply HK'; [|done]. by apply HK.
Qed.

Lemma careful_quiet {A} (m : M A) :
  (forall w w', ctl w w' -> Inv w -> Inv w') ->
  (forall w w', ctl w w' -> K w -> K w') ->
  quiet m -> careful Inv U K m.
Proof.
  intros HI HK Hq w Hw. destruct (Hq w) as [Hc _].
  split; [by eapply HI|]. split; [by apply ctl_keeps|].
  intros HKw _. by eapply HK.
Qed.

Lemma careful_ret {A} (a : A) : careful Inv U K (ret a).
Proof. intros w Hw. split; [done|]. split; [apply keeps_refl | done]. Qed.

Lemma careful_throw {A} (e : Err) : careful Inv U K (throw (A := A) e).
Proof. intros w Hw. split; [done|]. split; [apply keeps_refl | done]. Qed.

Lemma careful_gets {A} (f : World -> A) : careful Inv U K (gets f).
Proof. intros w Hw. split; [done|]. split; [apply keeps_refl | done]. Qed.

End Careful.

End KeepFacts.

(** *** Tasks are called once *)


Module OnceFacts.
Import KeepFacts QuietFacts.

Section Main.

Variable exec : list string -> gmap string Node -> ChildResult * gmap string Node.
Variable rank : nat -> nat.

(** The world at the start; every later world has its skeleton. *)
Variable w0 : World.
Hypothesis w0_acyclic : Acyclic rank w0.

Lemma lookup_task_skeleton (w : World) (target : string) :
  shaped w0 w -> lookup_task w target = lookup_task w0 target.
Proof. unfold shaped, skeleton, lookup_task. by intros [= -> _]. Qed.

Lemma kind_skeleton (w : World) (ref : nat) (t : Task) :
  shaped w0 w ->
  store w !! ref = Some t ->
  exists t0, store w0 !! ref = Some t0 /\ kind t0 = kind t.
Proof.
  unfold shaped, skeleton. intros [= _ Hs] Ht.
  assert (((fun t => (kind t, label t, keyFn t)) <$> store w0) !! ref
          = Some (kind t, label t, keyFn t)) as Hl.
  { rewrite <- Hs, list_lookup_fmap, Ht. done. }
  rewrite list_lookup_fmap in Hl.
  destruct (store w0 !! ref) as [t0|]; [|done].
  exists t0. split; [done|]. by injection Hl.
Qed.

(** The prerequisites of a task have tasks of smaller rank. *)
Lemma prerequisites_below (w : World) (ref : nat) (t : Task) :
  shaped w0 w ->
  store w !! ref = Some t ->
  below rank (rank ref) w0 (prerequisites_of (kind t)).
Proof.
  intros Hsk Ht. destruct (kind_skeleton w ref t Hsk Ht) as (t0 & Ht0 & Hk).
  intros target ref' Hin Hl. rewrite <- Hk in Hin. by eapply w0_acyclic.
Qed.

(** Worlds of the same shape have task objects at the same references. *)
Lemma shaped_lookup (w w' : World) (ref : nat) (t : Task) :
  shaped w0 w -> shaped w0 w' ->
  store w !! ref = Some t -> is_Some (store w' !! ref).
Proof.
  unfold shaped, skeleton. intros [= _ Hs] [= _ Hs'] Ht.
  assert (((fun t => (kind t, label t, keyFn t)) <$> store w') !! ref
          = Some (kind t, label t, keyFn t)) as Hl.
  { rewrite Hs', <- Hs, list_lookup_fmap, Ht. done. }
  rewrite list_lookup_fmap in Hl. by destruct (store w' !! ref).
Qed.

Lemma shaped_ctl (w w' : World) : ctl w w' -> shaped w0 w -> shaped w0 w'.
Proof. unfold shaped. intros Hc <-. by apply ctl_skeleton. Qed.

Lemma Once_below_ctl (k : nat) (w w' : World) :
  ctl w w' -> Once_below rank k w -> Once_below rank k w'.
Proof.
  intros Hc Ho ref Hr. eapply Once_at_same; [by apply ctl_same | | by apply Ho].
  destruct Hc as (_ & _ & -> & _). done.
Qed.

Section Step.

Variable rec : list string -> string -> M unit.
Hypothesis rec_growing : forall targets requester, growing (rec targets requester).
Hypothesis rec_careful : forall k targets requester,
  below rank k w0 targets ->
  careful (shaped w0) (Below rank k) (Once_below rank k) (rec targets requester).

Ltac careful_quiet_step lem :=
  apply careful_quiet; [apply shaped_ctl | apply Once_below_ctl | apply lem].

Lemma careful_task_body (k : nat) (t : Task) :
  below rank k w0 (prerequisites_of (kind t)) ->
  careful (shaped w0) (Below rank k) (Once_below rank k) (task_body exec rec t).
Proof.
  intros Hb. unfold task_body.
  destruct (kind t); cbn [prerequisites_of] in Hb.
  - apply careful_bind; [by apply rec_careful|]. intros ?.
    apply careful_bind; [careful_quiet_step (quiet_run_recipe exec)|]. intros ?.
    careful_quiet_step (quiet_for_each (A := string)). intros ?. apply quiet_delete_hash.
  - apply careful_bind; [by apply rec_careful|]. intros ?.
    apply careful_bind; [careful_quiet_step quiet_delete_hash|]. intros ?.
    apply careful_bind; [careful_quiet_step quiet_mkdir|]. intros ?.
    apply careful_bind; [careful_quiet_step (quiet_runCommand exec)|]. intros ?.
    apply careful_bind; [careful_quiet_step quiet_delete_hash|]. intros ?.
    apply careful_bind; [careful_quiet_step quiet_mkdir|]. intros ?.
    apply careful_bind; [careful_quiet_step (quiet_runCommand exec)|]. intros ?.
    apply careful_bind; [careful_quiet_step quiet_loadDeps|]. intros ?.
    careful_quiet_step quiet_assertNontargets.
  - apply careful_bind; [by apply rec_careful|]. intros ?.
    apply careful_bind; [careful_quiet_step quiet_delete_hash|]. intros ?.
    apply careful_bind; [careful_quiet_step quiet_mkdir|]. intros ?.
    careful_quiet_step (quiet_runCommand exec).
Qed.

Lemma careful_run_keyFn (k : nat) (t : Task) :
  below rank k w0 (prerequisites_of (kind t)) ->
  careful (shaped w0) (Below rank k) (Once_below rank k) (run_keyFn rec t).
Proof.
  intros Hb. unfold run_keyFn.
  destruct (kind t); cbn [prerequisites_of] in Hb.
  - apply careful_bind; [by apply rec_careful|]. intros ?.
    apply careful_bind; [careful_quiet_step quiet_hashFiles|]. intros ?.
    apply careful_ret.
  - apply careful_bind; [by apply rec_careful|]. intros ?.
    apply careful_bind; [careful_quiet_step quiet_loadDeps|]. intros ?.
    apply careful_bind; [careful_quiet_step quiet_assertNontargets|]. intros ?.
    apply careful_bind; [careful_quiet_step quiet_hashFiles|]. intros ?.
    apply careful_ret.
  - apply careful_bind; [by apply rec_careful|]. intros ?.
    apply careful_bind; [careful_quiet_step quiet_hashFiles|]. intros ?.
    apply careful_ret.
Qed.


(** While [ref0] is launched: the code of its prerequisites. *)
Lemma careful_lift (k ref0 : nat) {A} (m : M A) :
  (rank ref0 < k)%nat ->
  growing m ->
  careful (shaped w0) (Below rank (rank ref0)) (Once_below rank (rank ref0)) m ->
  careful (Idle w0 ref0) (Self_or_below rank ref0) (Once_others rank k ref0) m.
Proof.
  intros Hk Hg Hm w [Hsh Hidle].
  destruct (Hm w Hsh) as (Hsh' & Hkeep & HK).
  assert (same ref0 w (snd (m w))) as Hsame.
  { apply Hkeep. left. unfold Below. lia. }
  split; [split; [done | by eapply not_pending_same]|].
  split; [eapply keeps_mono; [|exact Hkeep]; intros ref Hr; by right|].
  intros HKw Hd ref Hne Hb.
  destruct (decide (rank ref < rank ref0)%nat) as [Hlt|Hge].
  - apply HK; [|done..]. intros ref' Hb'. unfold Below in *.
    apply HKw; [|unfold Below; lia]. intros ->. lia.
  - eapply Once_at_same; [apply Hkeep; left; unfold Below; lia | apply Hg | by apply HKw].
Qed.

Lemma Idle_ctl (ref0 : nat) (w w' : World) : ctl w w' -> Idle w0 ref0 w -> Idle w0 ref0 w'.
Proof.
  intros Hc [Hsh Hidle]. split; [by eapply shaped_ctl|].
  eapply not_pending_same; [|done]. by apply ctl_same.
Qed.

Lemma Once_others_ctl (k ref0 : nat) (w w' : World) :
  ctl w w' -> Once_others rank k ref0 w -> Once_others rank k ref0 w'.
Proof.
  intros Hc Ho ref Hne Hr. eapply Once_at_same; [by apply ctl_same | | by apply Ho].
  destruct Hc as (_ & _ & -> & _). done.
Qed.

Lemma careful_emit_call (k ref0 : nat) :
  careful (Idle w0 ref0) (Self_or_below rank ref0) (Once_others rank k ref0)
          (emit (Call ref0)).
Proof.
  intros w [Hsh Hidle].
  assert (forall ref, ref <> ref0 -> same ref w (snd (emit (Call ref0) w))) as Hsame.
  { intros ref Hne. split; [done|]. rewrite calls_emit, decide_False by congruence. lia. }
  split; [done|]. split.
  - intros ref [Hn|Hp]; apply Hsame; intros ->; [apply Hn; by left | done].
  - intros HK _ ref Hne Hb. eapply Once_at_same; [by apply Hsame | done | by apply HK].
Qed.

Lemma careful_update_self (k ref0 : nat) (f : Task -> Task) :
  (forall t, (kind (f t), label (f t), keyFn (f t)) = (kind t, label t, keyFn t)) ->
  (forall t, pending (f t) = pending t) ->
  careful (Idle w0 ref0) (Self_or_below rank ref0) (Once_others rank k ref0)
          (update_task ref0 f).
Proof.
  intros Hf Hp w [Hsh Hidle].
  assert (forall ref, ref <> ref0 -> same ref w (snd (update_task ref0 f w))) as Hsame.
  { intros ref Hne. split; [|done]. cbn. by rewrite list_lookup_alter_ne. }
  split; [split|split].
  - unfold shaped in *. rewrite <- Hsh. by apply GrowFacts.skeleton_alter.
  - intros (t & h & Ht & Hpt). apply Hidle. cbn in Ht.
    rewrite list_lookup_alter_eq in Ht.
    destruct (store w !! ref0) as [t'|] eqn:Ht'; [|done]. injection Ht as <-.
    exists t', h. split; [done|]. by rewrite <- Hp.
  - intros ref [Hn|Hpend]; apply Hsame; intros ->; [apply Hn; by left | done].
  - intros HK _ ref Hne Hb. eapply Once_at_same; [by apply Hsame | done | by apply HK].
Qed.

Ltac idle_quiet_step lem :=
  apply careful_quiet; [apply Idle_ctl | apply Once_others_ctl | apply lem].

Lemma careful_attempt (k ref0 : nat) (t : Task) :
  (rank ref0 < k)%nat ->
  below rank (rank ref0) w0 (prerequisites_of (kind t)) ->
  careful (Idle w0 ref0) (Self_or_below rank ref0) (Once_others rank k ref0)
          (attempt exec rec ref0 t).
Proof.
  intros Hk Hb. unfold attempt.
  assert (careful (Idle w0 ref0) (Self_or_below rank ref0) (Once_others rank k ref0)
            (run_keyFn rec t)) as Hkey.
  { apply careful_lift; [done | by apply GrowEngine.growing_run_keyFn
                        | by apply careful_run_keyFn]. }
  apply careful_bind.
  - destruct (cachedKey t), (keyFn t); try apply careful_ret.
    apply careful_bind; [exact Hkey | intros ?; apply careful_ret].
  - intros [|]; [apply careful_ret|].
    apply careful_bind.
    + unfold run_task. apply careful_bind; [apply careful_emit_call|]. intros ?.
      apply careful_lift; [done | by apply GrowEngine.growing_task_body
                          | by apply careful_task_body].
    + intros ?. destruct (keyFn t); [|apply careful_ret].
      apply careful_bind; [exact Hkey|]. intros key.
      by apply careful_update_self.
Qed.

Lemma careful_launch (k ref0 : nat) (t : Task) (requester : string) :
  (rank ref0 < k)%nat ->
  below rank (rank ref0) w0 (prerequisites_of (kind t)) ->
  careful (Idle w0 ref0) (Self_or_below rank ref0) (Once_others rank k ref0)
          (launch exec rec ref0 t requester).
Proof.
  intros Hk Hb w Hw. unfold launch.
  destruct (careful_attempt k ref0 t Hk Hb w Hw) as (Hi & Hkeep & HK).
  destruct (attempt exec rec ref0 t w) as [[[]|[message|message]|] w1];
    cbn [fst snd] in *; [by auto | | by auto..].
  assert (careful (Idle w0 ref0) (Self_or_below rank ref0) (Once_others rank k ref0)
            (let* _ := emit (ConsoleError ("FAILED: " +:+ label t +:+ " (requested by "
                                           +:+ requester +:+ "): " +:+ message)) in
             throw (A := unit) (BuildError "prerequisite failed."))) as Hfail.
  { apply careful_bind; [idle_quiet_step quiet_emit; done | intros ?; apply careful_throw]. }
  destruct (Hfail w1 Hi) as (Hi' & Hkeep' & HK').
  split; [done|]. split; [by eapply keeps_trans|].
  intros HKw Hd. apply HK'; [|done]. by apply HK.
Qed.


(** *** How often a task is called *)

Lemma calls_at_most_bind (n n' ref : nat) (Inv : World -> Prop) {A B}
    (m : M A) (k : A -> M B) :
  calls_at_most n ref Inv m ->
  (forall a, calls_at_most n' ref Inv (k a)) ->
  calls_at_most (n + n') ref Inv (bind m k).
Proof.
  intros Hm Hk w Hw. unfold bind. destruct (Hm w Hw) as [Hi Hc].
  destruct (m w) as [[a|e|] w1]; cbn [fst snd] in *; [|split; [done|lia]..].
  destruct (Hk a w1 Hi) as [Hi' Hc']. split; [done|lia].
Qed.

Lemma calls_at_most_weaken (n n' ref : nat) (Inv : World -> Prop) {A} (m : M A) :
  (n <= n')%nat -> calls_at_most n ref Inv m -> calls_at_most n' ref Inv m.
Proof. intros Hn Hm w Hw. destruct (Hm w Hw) as [Hi Hc]. split; [done|lia]. Qed.

Lemma calls_at_most_careful (ref : nat) (Inv : World -> Prop) (U : nat -> Prop)
    (K : World -> Prop) {A} (m : M A) :
  ~ U ref -> careful Inv U K m -> calls_at_most 0 ref Inv m.
Proof.
  intros HU Hm w Hw. destruct (Hm w Hw) as (Hi & Hkeep & _). split; [done|].
  destruct (Hkeep ref) as [_ Hc]; [by left|]. lia.
Qed.

Lemma calls_at_most_ret (ref : nat) (Inv : World -> Prop) {A} (a : A) :
  calls_at_most 0 ref Inv (ret a).
Proof. intros w Hw. split; [done|]. simpl. lia. Qed.

Lemma calls_at_most_attempt (ref0 : nat) (t : Task) :
  below rank (rank ref0) w0 (prerequisites_of (kind t)) ->
  calls_at_most 1 ref0 (shaped w0) (attempt exec rec ref0 t).
Proof.
  intros Hb. unfold attempt.
  assert (~ Below rank (rank ref0) ref0) as Hself by (unfold Below; lia).
  assert (calls_at_most 0 ref0 (shaped w0) (run_keyFn rec t)) as Hkey.
  { eapply calls_at_most_careful; [exact Hself | by apply careful_run_keyFn]. }
  apply (calls_at_most_bind 0 1).
  - destruct (cachedKey t), (keyFn t); try apply calls_at_most_ret.
    apply (calls_at_most_bind 0 0); [exact Hkey | intros ?; apply calls_at_most_ret].
  - intros [|]; [eapply calls_at_most_weaken; [|apply calls_at_most_ret]; lia|].
    apply (calls_at_most_bind 1 0).
    + unfold run_task. apply (calls_at_most_bind 1 0).
      * intros w Hw. split; [done|]. rewrite calls_emit, decide_True by done. lia.
      * intros ?. eapply calls_at_most_careful; [exact Hself | by apply careful_task_body].
    + intros ?. destruct (keyFn t); [|apply calls_at_most_ret].
      apply (calls_at_most_bind 0 0); [exact Hkey|]. intros key w Hw.
      split; [|unfold calls; cbn; lia]. unfold shaped in *. rewrite <- Hw.
      by apply GrowFacts.skeleton_alter.
Qed.

Lemma calls_at_most_launch (ref0 : nat) (t : Task) (requester : string) :
  below rank (rank ref0) w0 (prerequisites_of (kind t)) ->
  calls_at_most 1 ref0 (shaped w0) (launch exec rec ref0 t requester).
Proof.
  intros Hb w Hw. unfold launch.
  destruct (calls_at_most_attempt ref0 t Hb w Hw) as [Hi Hc].
  destruct (attempt exec rec ref0 t w) as [[[]|[message|message]|] w1];
    cbn [fst snd] in *; try done.
  split; [done|]. unfold bind. cbn [emit modify fst snd throw].
  change (calls ref0 (snd (emit (ConsoleError ("FAILED: " +:+ label t +:+ " (requested by "
                                               +:+ requester +:+ "): " +:+ message)) w1))
          <= calls ref0 w + 1)%nat.
  rewrite calls_emit, decide_False by done. lia.
Qed.


(** *** One turn of the loop of [updateTargets] *)

(** Recording the handle of a launched task. *)
Lemma record_pending (k ref0 : nat) (t : Task) (s : Settled) (w wa wb : World) :
  shaped w0 w ->
  (rank ref0 < k)%nat ->
  store w !! ref0 = Some t ->
  pending t = None ->
  (forall ref, ref <> ref0 -> same ref w wa) ->
  calls ref0 wa = calls ref0 w ->
  promises wa = promises w ->
  Idle w0 ref0 wb ->
  keeps (Self_or_below rank ref0) wa wb ->
  (Once_others rank k ref0 wa -> Once_others rank k ref0 wb) ->
  (calls ref0 wb <= calls ref0 wa + 1)%nat ->
  grows wa wb ->
  let wc := set_store (alter (set_pending (Some (length (promises wb)))) ref0 (store wb))
                      (set_promises (promises wb ++ [s]) wb) in
  shaped w0 wc
  /\ keeps (Below rank k) w wc
  /\ is_pending wc ref0
  /\ (Once_below rank k w -> Once_below rank k wc).
Proof.
  intros Hw Hk Ht Hp Hsame Hcalls Hprom [Hsh Hidle] Hkeep HK Hle Hg wc.
  assert (forall ref, ref <> ref0 -> same ref wb wc) as Hsame'.
  { intros ref Hne. split; [|done]. subst wc. cbn. by rewrite list_lookup_alter_ne. }
  assert (forall ref, ref <> ref0 ->
            ~ Below rank k ref \/ is_pending w ref -> same ref w wc) as Hothers.
  { intros ref Hne Href.
    eapply same_trans; [by apply Hsame|]. eapply same_trans; [|by apply Hsame'].
    apply Hkeep. destruct Href as [Hn|Hpend].
    - left. intros [->|Hb]; [done|]. apply Hn. unfold Below in *. lia.
    - right. eapply is_pending_same; [by apply Hsame | done]. }
  split; [|split; [|split]].
  - unfold shaped in *. rewrite <- Hsh. subst wc.
    apply (GrowFacts.skeleton_alter _ ref0 (set_promises (promises wb ++ [s]) wb)). done.
  - intros ref Href. apply Hothers; [|done]. intros ->.
    destruct Href as [Hn|(t' & h & Ht' & Hp')]; [by apply Hn|]. congruence.
  - destruct (shaped_lookup w wb ref0 t Hw Hsh Ht) as [t' Ht'].
    exists (set_pending (Some (length (promises wb))) t'), (length (promises wb)).
    split; [|done]. subst wc. cbn. by rewrite list_lookup_alter_eq, Ht'.
  - intros Ho ref Hb. destruct (decide (ref = ref0)) as [->|Hne].
    + intros t' Ht'. subst wc. cbn in Ht'. rewrite list_lookup_alter_eq in Ht'.
      destruct (store wb !! ref0) as [t''|]; [|done]. injection Ht' as <-.
      unfold once_task. cbn [pending set_pending].
      pose proof (Ho ref0 Hb t Ht) as H0. unfold once_task in H0. rewrite Hp in H0.
      apply Nat.eqb_eq in H0. apply andb_true_iff. split.
      * apply Nat.leb_le. change (calls ref0 wb <= 1)%nat. lia.
      * apply bool_decide_eq_true. exists s. cbn.
        rewrite lookup_app_r, Nat.sub_diag by done. done.
    + eapply Once_at_same; [by apply Hsame' | |].
      * subst wc. cbn. by apply prefix_app_r.
      * apply HK; [|done..]. intros ref' Hne' Hb'.
        eapply Once_at_same; [by apply Hsame | by rewrite Hprom | by apply Ho].
Qed.

(** Launching a task that is not pending and recording its handle. *)
Lemma launch_step (k ref0 : nat) (t : Task) (requester : string) (w : World) :
  (rank ref0 < k)%nat ->
  shaped w0 w ->
  store w !! ref0 = Some t ->
  pending t = None ->
  let m := let* _ := update_task ref0 (set_from (Some requester)) in
           let* h := promise (launch exec rec ref0 (set_from (Some requester) t) requester) in
           let* _ := update_task ref0 (set_pending (Some h)) in
           ret h in
  shaped w0 (snd (m w))
  /\ keeps (Below rank k) w (snd (m w))
  /\ (Once_below rank k w -> fst (m w) <> Diverge -> Once_below rank k (snd (m w)))
  /\ (fst (m w) <> Diverge -> is_pending (snd (m w)) ref0).
Proof.
  intros Hk Hsh Ht Hp m.
  pose (wa := set_store (alter (set_from (Some requester)) ref0 (store w)) w).
  assert (forall ref, ref <> ref0 -> same ref w wa) as Hsame.
  { intros ref Hne. split; [|done]. subst wa. cbn. by rewrite list_lookup_alter_ne. }
  assert (Idle w0 ref0 wa) as Hidle.
  { split.
    - unfold shaped in *. rewrite <- Hsh. by apply GrowFacts.skeleton_alter.
    - intros (t' & h & Ht' & Hp'). subst wa. cbn in Ht'.
      rewrite list_lookup_alter_eq, Ht in Ht'. injection Ht' as <-. cbn in Hp'. congruence. }
  assert (below rank (rank ref0) w0
            (prerequisites_of (kind (set_from (Some requester) t)))) as Hb.
  { cbn [kind set_from]. by eapply prerequisites_below. }
  destruct (careful_launch k ref0 _ requester Hk Hb wa Hidle) as (Hi & Hkeep & HK).
  destruct (calls_at_most_launch ref0 _ requester Hb wa (proj1 Hidle)) as [_ Hcalls].
  pose proof (GrowEngine.growing_launch exec rec rec_growing ref0
                (set_from (Some requester) t) requester wa) as Hg.
  subst m. unfold bind, update_task, modify, promise. cbn [fst snd]. fold wa.
  destruct (launch exec rec ref0 (set_from (Some requester) t) requester wa)
    as [[[]|e|] wb]; cbn [fst snd] in *.
  - destruct (record_pending k ref0 t Fulfilled w wa wb) as (H1 & H2 & H4 & H3); try done.
    { intros ?. by apply HK. }
    split; [exact H1|]. split; [exact H2|]. split; [|done]. intros Ho _. by apply H3.
  - destruct (record_pending k ref0 t (Failed e) w wa wb) as (H1 & H2 & H4 & H3); try done.
    { intros ?. by apply HK. }
    split; [exact H1|]. split; [exact H2|]. split; [|done]. intros Ho _. by apply H3.
  - split; [apply Hi|]. split; [|done].
    intros ref Href. destruct (decide (ref = ref0)) as [->|Hne].
    + destruct Href as [Hn|(t' & h & Ht' & Hp')]; [by destruct Hn|]. congruence.
    + eapply same_trans; [by apply Hsame|]. apply Hkeep.
      destruct Href as [Hn|Hpend].
      * left. intros [->|Hb']; [done|]. apply Hn. unfold Below in *. lia.
      * right. eapply is_pending_same; [by apply Hsame | done].
Qed.


Lemma careful_bind_at (Inv : World -> Prop) (U : nat -> Prop) (K : World -> Prop)
    {A B} (m : M A) (k : A -> M B) (w : World) :
  Inv (snd (m w)) ->
  keeps U w (snd (m w)) ->
  (K w -> fst (m w) <> Diverge -> K (snd (m w))) ->
  (forall a, careful Inv U K (k a)) ->
  Inv (snd (bind m k w))
  /\ keeps U w (snd (bind m k w))
  /\ (K w -> fst (bind m k w) <> Diverge -> K (snd (bind m k w))).
Proof.
  intros Hi Hkeep HK Hk. unfold bind.
  destruct (m w) as [[a|e|] w1]; cbn [fst snd] in *; [|by auto..].
  destruct (Hk a w1 Hi) as (Hi' & Hkeep' & HK').
  split; [done|]. split; [by eapply keeps_trans|].
  intros HKw Hd. apply HK'; [|done]. by apply HK.
Qed.

(** A promise for the check that a file without a task exists. *)
Lemma careful_promise_check_exists (k : nat) (target requester : string) :
  careful (shaped w0) (Below rank k) (Once_below rank k)
          (promise (check_exists target requester)).
Proof.
  intros w Hw. unfold promise, check_exists, bind, gets. cbn [fst snd].
  assert (forall s ref, same ref w (set_promises (promises w ++ [s]) w)) as Hsame
    by (intros; split; done).
  destruct (files w !! target); cbn [ret throw fst snd].
  - split; [exact Hw|]. split; [intros ref _; apply Hsame|].
    intros Ho _ ref Hb. eapply Once_at_same; [apply Hsame | | by apply Ho].
    cbn. by apply prefix_app_r.
  - split; [exact Hw|]. split; [intros ref _; apply Hsame|].
    intros Ho _ ref Hb. eapply Once_at_same; [apply Hsame | | by apply Ho].
    cbn. by apply prefix_app_r.
Qed.

Lemma below_cons (k : nat) (target : string) (rest : list string) :
  below rank k w0 (target :: rest) -> below rank k w0 rest.
Proof. intros Hb x ref Hin. apply Hb. by apply list_elem_of_further. Qed.

(** One turn of the loop of [updateTargets], by cases. *)
Lemma request_cons (target : string) (rest : list string) (requester : string)
    (handles : list nat) (w : World) :
  request exec rec (target :: rest) requester handles w
  = match lookup_task w target with
    | Some ref0 =>
        match store w !! ref0 with
        | Some t =>
            match pending t with
            | Some h => request exec rec rest requester (handles ++ [h]) w
            | None =>
                bind (let* _ := update_task ref0 (set_from (Some requester)) in
                      let* h := promise (launch exec rec ref0
                                           (set_from (Some requester) t) requester) in
                      let* _ := update_task ref0 (set_pending (Some h)) in
                      ret h)
                     (fun h => request exec rec rest requester (handles ++ [h])) w
            end
        | None => (Throw (Error "TypeError: task is undefined"), w)
        end
    | None =>
        if is_abstract target then
          (Throw (BuildError ("Target '" +:+ target +:+ "' (requested by " +:+ requester
                              +:+ ") is abstract but doesn't have a task.")), w)
        else
          bind (promise (check_exists target requester))
               (fun h => request exec rec rest requester (handles ++ [h])) w
    end.
Proof.
  cbn [request]. unfold bind at 1. cbn [gets fst snd]. unfold id.
  destruct (lookup_task w target) as [ref0|]; [|by destruct (is_abstract target)].
  unfold bind at 1, get_task. destruct (store w !! ref0) as [t|]; [|done].
  destruct (pending t) as [h|]; [done|].
  unfold bind, update_task, modify, promise. cbn [fst snd].
  by destruct (launch exec rec ref0 (set_from (Some requester) t) requester _)
    as [[[]|e|] wb].
Qed.

(** The loop of [updateTargets] over targets of rank below [k]. *)
Lemma careful_request (k : nat) (requester : string) (targets : list string) :
  forall handles,
    below rank k w0 targets ->
    careful (shaped w0) (Below rank k) (Once_below rank k)
            (request exec rec targets requester handles).
Proof.
  induction targets as [|target rest IH]; intros handles Hb; [apply careful_ret|].
  pose proof (below_cons k target rest Hb) as Hrest.
  intros w Hw. rewrite request_cons.
  destruct (lookup_task w target) as [ref0|] eqn:Hl.
  - assert (rank ref0 < k)%nat as Hk.
    { apply (Hb target); [apply list_elem_of_here|]. by rewrite <- (lookup_task_skeleton w). }
    destruct (store w !! ref0) as [t|] eqn:Ht;
      [|split; [done|]; split; [apply keeps_refl | by auto]].
    destruct (pending t) as [h|] eqn:Hp; [by apply IH|].
    destruct (launch_step k ref0 t requester w Hk Hw Ht Hp) as (H1 & H2 & H3 & _).
    apply careful_bind_at; [exact H1 | exact H2 | exact H3|].
    intros h. by apply IH.
  - destruct (is_abstract target).
    + split; [done|]. split; [apply keeps_refl | by auto].
    + apply careful_bind; [apply careful_promise_check_exists | | done].
      intros h. by apply IH.
Qed.

(** When the loop returns, every requested target that has a task has a
    pending task. *)
Lemma request_pending (k : nat) (requester : string) (targets : list string) :
  forall handles w hs,
    below rank k w0 targets ->
    shaped w0 w ->
    fst (request exec rec targets requester handles w) = Ok hs ->
    forall target ref,
      target ∈ targets -> lookup_task w0 target = Some ref ->
      is_pending (snd (request exec rec targets requester handles w)) ref.
Proof.
  induction targets as [|target rest IH]; intros handles w hs Hb Hw Hok target' ref Hin Hl;
    [by apply elem_of_nil in Hin|].
  pose proof (below_cons k target rest Hb) as Hrest.
  assert (forall handles' w', shaped w0 w' -> is_pending w' ref ->
            is_pending (snd (request exec rec rest requester handles' w')) ref) as Hkept.
  { intros handles' w' Hw' Hp.
    destruct (careful_request k requester rest handles' Hrest w' Hw') as (_ & Hkeep & _).
    eapply is_pending_same; [apply Hkeep; by right | done]. }
  rewrite request_cons in Hok |- *. rewrite (lookup_task_skeleton w) in * by done.
  apply elem_of_cons in Hin.
  destruct (lookup_task w0 target) as [ref0|] eqn:Hl0.
  - destruct (store w !! ref0) as [t|] eqn:Ht; [|done].
    destruct (pending t) as [h|] eqn:Hp.
    + destruct Hin as [->|Hin]; [|by eapply IH].
      apply Hkept; [done|]. exists t, h. split; congruence.
    + assert (rank ref0 < k)%nat as Hk.
      { apply (Hb target); [apply list_elem_of_here | done]. }
      destruct (launch_step k ref0 t requester w Hk Hw Ht Hp) as (H1 & _ & _ & H4).
      apply EngineFacts.bind_Ok_inv in Hok as (h1 & Hm & Hok).
      rewrite (EngineFacts.bind_Ok _ _ w h1 Hm).
      destruct Hin as [->|Hin]; [|by eapply IH].
      apply Hkept; [done|]. replace ref with ref0 by congruence.
      apply H4. by rewrite Hm.
  - destruct (is_abstract target); [done|].
    destruct Hin as [->|Hin]; [congruence|].
    apply EngineFacts.bind_Ok_inv in Hok as (h1 & Hm & Hok).
    rewrite (EngineFacts.bind_Ok _ _ w h1 Hm).
    eapply IH; [done | | done..].
    by apply (careful_promise_check_exists k target requester w).
Qed.

Lemma careful_updateTargets_body (k : nat) (targets : list string) (requester : string) :
  below rank k w0 targets ->
  careful (shaped w0) (Below rank k) (Once_below rank k)
          (updateTargets_body exec rec targets requester).
Proof.
  intros Hb. unfold updateTargets_body.
  apply careful_bind; [by apply careful_request|]. intros handles.
  apply careful_quiet; [apply shaped_ctl | apply Once_below_ctl | apply quiet_await_all].
Qed.

Lemma updateTargets_body_pending (k : nat) (targets : list string) (requester : string)
    (w : World) :
  below rank k w0 targets ->
  shaped w0 w ->
  fst (updateTargets_body exec rec targets requester w) = Ok tt ->
  forall target ref,
    target ∈ targets -> lookup_task w0 target = Some ref ->
    is_pending (snd (updateTargets_body exec rec targets requester w)) ref.
Proof.
  intros Hb Hw Hok target ref Hin Hl. unfold updateTargets_body in *.
  apply EngineFacts.bind_Ok_inv in Hok as (hs & Hreq & Hok).
  rewrite (EngineFacts.bind_Ok _ _ w hs Hreq).
  eapply is_pending_same.
  - apply ctl_same. apply quiet_await_all.
  - by eapply request_pending.
Qed.

End Step.

(** The engine keeps the shape of the world, leaves pending tasks and
    tasks of rank [k] or more alone, and keeps [Once_at] below [k]. *)
Lemma careful_updateTargets (fuel : nat) :
  forall k targets requester,
    below rank k w0 targets ->
    careful (shaped w0) (Below rank k) (Once_below rank k)
            (updateTargets exec fuel targets requester).
Proof.
  induction fuel as [|fuel IH]; intros k targets requester Hb.
  - intros w Hw. split; [done|]. split; [apply keeps_refl|]. intros _ Hd. by destruct Hd.
  - cbn [updateTargets]. apply careful_updateTargets_body; [|exact IH|done].
    apply GrowEngine.growing_updateTargets.
Qed.

(** *** Fuel above the rank of the targets is enough *)

Lemma shaped_grows (w w' : World) : grows w w' -> shaped w0 w -> shaped w0 w'.
Proof. unfold shaped. intros (_ & _ & ->). done. Qed.

Lemma settles_bind {A B} (m : M A) (k : A -> M B) :
  growing m ->
  settles (shaped w0) m ->
  (forall a, settles (shaped w0) (k a)) ->
  settles (shaped w0) (bind m k).
Proof.
  intros Hg Hm Hk w Hw. unfold bind. specialize (Hg w). specialize (Hm w Hw).
  destruct (m w) as [[a|e|] w1]; cbn [fst snd] in *; [|done..].
  apply Hk. by eapply shaped_grows.
Qed.

Lemma settles_quiet (Inv : World -> Prop) {A} (m : M A) : quiet m -> settles Inv m.
Proof. intros Hq w _. apply Hq. Qed.

Lemma settles_ret (Inv : World -> Prop) {A} (a : A) : settles Inv (ret a).
Proof. by intros w _. Qed.

Lemma settles_modify (Inv : World -> Prop) (f : World -> World) : settles Inv (modify f).
Proof. by intros w _. Qed.

Lemma settles_promise (Inv : World -> Prop) (m : M unit) :
  settles Inv m -> settles Inv (promise m).
Proof.
  intros Hm w Hw. specialize (Hm w Hw). unfold promise.
  by destruct (m w) as [[[]|e|] w1].
Qed.

Section Bounded.

Variable rec : list string -> string -> M unit.
Variable n : nat.
Hypothesis rec_growing : forall targets requester, growing (rec targets requester).
Hypothesis rec_settles : forall k targets requester,
  (k < n)%nat -> below rank k w0 targets -> settles (shaped w0) (rec targets requester).

Ltac quiet_steps :=
  repeat first
    [ apply quiet_ret | apply quiet_delete_hash | apply quiet_mkdir
    | apply quiet_runCommand | apply quiet_run_recipe | apply quiet_loadDeps
    | apply quiet_assertNontargets | apply quiet_hashFiles
    | apply quiet_for_each; intros ?
    | apply quiet_bind; [|intros ?] ].

Lemma settles_task_body (k : nat) (t : Task) :
  (k < n)%nat ->
  below rank k w0 (prerequisites_of (kind t)) ->
  settles (shaped w0) (task_body exec rec t).
Proof.
  intros Hk Hb. unfold task_body.
  destruct (kind t); cbn [prerequisites_of] in Hb;
    (apply settles_bind; [apply rec_growing | by apply (rec_settles k) |]);
    intros ?; apply settles_quiet; quiet_steps.
Qed.

Lemma settles_run_keyFn (k : nat) (t : Task) :
  (k < n)%nat ->
  below rank k w0 (prerequisites_of (kind t)) ->
  settles (shaped w0) (run_keyFn rec t).
Proof.
  intros Hk Hb. unfold run_keyFn.
  destruct (kind t); cbn [prerequisites_of] in Hb;
    (apply settles_bind; [apply rec_growing | by apply (rec_settles k) |]);
    intros ?; apply settles_quiet; quiet_steps.
Qed.

Lemma settles_attempt (k ref0 : nat) (t : Task) :
  (k < n)%nat ->
  below rank k w0 (prerequisites_of (kind t)) ->
  settles (shaped w0) (attempt exec rec ref0 t).
Proof.
  intros Hk Hb. unfold attempt.
  pose proof (settles_run_keyFn k t Hk Hb) as Hkey.
  pose proof (GrowEngine.growing_run_keyFn rec rec_growing t) as Hgkey.
  apply settles_bind.
  - destruct (cachedKey t), (keyFn t); try apply GrowFacts.growing_ret.
    apply GrowFacts.growing_bind; [done | intros ?; apply GrowFacts.growing_ret].
  - destruct (cachedKey t), (keyFn t); try apply settles_ret.
    apply settles_bind; [done | done | intros ?; apply settles_ret].
  - intros [|]; [apply settles_ret|].
    apply settles_bind; [by apply GrowEngine.growing_run_task | |].
    + unfold run_task. apply settles_bind; [apply GrowFacts.growing_emit | by intros w _ |].
      intros ?. by apply (settles_task_body k).
    + intros ?. destruct (keyFn t); [|apply settles_ret].
      apply settles_bind; [done | done |]. intros key. apply settles_modify.
Qed.

Lemma settles_launch (k ref0 : nat) (t : Task) (requester : string) :
  (k < n)%nat ->
  below rank k w0 (prerequisites_of (kind t)) ->
  settles (shaped w0) (launch exec rec ref0 t requester).
Proof.
  intros Hk Hb w Hw. pose proof (settles_attempt k ref0 t Hk Hb w Hw) as Ha.
  unfold launch. by destruct (attempt exec rec ref0 t w) as [[[]|[message|message]|] w1].
Qed.

Lemma settles_request (k : nat) (requester : string) (targets : list string) :
  (k <= n)%nat ->
  forall handles,
    below rank k w0 targets ->
    settles (shaped w0) (request exec rec targets requester handles).
Proof.
  intros Hk. induction targets as [|target rest IH]; intros handles Hb; [apply settles_ret|].
  pose proof (below_cons k target rest Hb) as Hrest.
  intros w Hw. rewrite request_cons.
  destruct (lookup_task w target) as [ref0|] eqn:Hl.
  - assert (rank ref0 < k)%nat as Hr.
    { apply (Hb target); [apply list_elem_of_here|]. by rewrite <- (lookup_task_skeleton w). }
    destruct (store w !! ref0) as [t|] eqn:Ht; [|done].
    destruct (pending t) as [h|] eqn:Hp; [by apply IH|].
    assert (growing (launch exec rec ref0 (set_from (Some requester) t) requester)) as Hgl
      by (by apply GrowEngine.growing_launch).
    assert (settles (shaped w0)
              (launch exec rec ref0 (set_from (Some requester) t) requester)) as Hsl.
    { apply (settles_launch (rank ref0)); [lia|].
      cbn [kind set_from]. by eapply prerequisites_below. }
    revert w Hw Hl Ht. 
    match goal with
    | |- forall w, _ -> _ -> _ -> fst (bind ?m ?K w) <> Diverge =>
        assert (settles (shaped w0) (bind m K)) as Hall
    end; [|intros w Hw _ _; by apply Hall].
    apply settles_bind.
    + apply GrowFacts.growing_bind; [by apply GrowFacts.growing_update_task|]. intros ?.
      apply GrowFacts.growing_bind; [by apply GrowEngine.growing_promise|]. intros h.
      apply GrowFacts.growing_bind; [by apply GrowFacts.growing_update_task|]. intros ?.
      apply GrowFacts.growing_ret.
    + apply settles_bind; [by apply GrowFacts.growing_update_task | apply settles_modify|].
      intros ?. apply settles_bind; [by apply GrowEngine.growing_promise
                                    | by apply settles_promise |].
      intros h. apply settles_bind; [by apply GrowFacts.growing_update_task
                                    | apply settles_modify |].
      intros ?. apply settles_ret.
    + intros h. by apply IH.
  - destruct (is_abstract target); [done|].
    revert w Hw Hl. 
    match goal with
    | |- forall w, _ -> _ -> fst (bind ?m ?K w) <> Diverge =>
        assert (settles (shaped w0) (bind m K)) as Hall
    end; [|intros w Hw _; by apply Hall].
    apply settles_bind.
    + apply GrowEngine.growing_promise, GrowEngine.growing_check_exists.
    + apply settles_promise, settles_quiet, quiet_check_exists.
    + intros h. by apply IH.
Qed.

Lemma settles_updateTargets_body (k : nat) (targets : list string) (requester : string) :
  (k <= n)%nat ->
  below rank k w0 targets ->
  settles (shaped w0) (updateTargets_body exec rec targets requester).
Proof.
  intros Hk Hb. unfold updateTargets_body.
  apply settles_bind; [by apply GrowEngine.growing_request | by apply (settles_request k) |].
  intros handles. apply settles_quiet, quiet_await_all.
Qed.

End Bounded.

(** With more fuel than the rank of every requested task, the engine
    returns or throws. *)
Lemma settles_updateTargets (fuel : nat) :
  forall k targets requester,
    (k < fuel)%nat ->
    below rank k w0 targets ->
    settles (shaped w0) (updateTargets exec fuel targets requester).
Proof.
  induction fuel as [|fuel IH]; intros k targets requester Hk Hb; [lia|].
  cbn [updateTargets].
  apply (settles_updateTargets_body (updateTargets exec fuel) fuel) with (k := k);
    [apply GrowEngine.growing_updateTargets | exact IH | lia | done].
Qed.

Lemma updateTargets_pending (fuel k : nat) (targets : list string) (requester : string)
    (w : World) :
  below rank k w0 targets ->
  shaped w0 w ->
  fst (updateTargets exec fuel targets requester w) = Ok tt ->
  forall target ref,
    target ∈ targets -> lookup_task w0 target = Some ref ->
    is_pending (snd (updateTargets exec fuel targets requester w)) ref.
Proof.
  intros Hb Hw. destruct fuel as [|fuel]; [done|]. cbn [updateTargets].
  apply updateTargets_body_pending with (k := k); [|apply careful_updateTargets|done..].
  apply GrowEngine.growing_updateTargets.
Qed.

Lemma Acyclic_shaped (w : World) : shaped w0 w -> Acyclic rank w.
Proof.
  intros Hw ref t p ref' Ht Hin Hl.
  destruct (kind_skeleton w ref t Hw Ht) as (t0 & Ht0 & Hk).
  rewrite (lookup_task_skeleton w) in Hl by done.
  eapply w0_acyclic; [exact Ht0 | by rewrite Hk | done].
Qed.

End Main.

(** *** The checks [once] and [acyclic] *)

Lemma forallb_imap_pair {A} (f : nat * A -> bool) (l : list A) :
  forallb f (imap pair l) = true <-> forall i x, l !! i = Some x -> f (i, x) = true.
Proof.
  rewrite forallb_forall. split.
  - intros H i x Hl. apply H, list_elem_of_In. by apply (elem_of_lookup_imap_2 pair).
  - intros H [i x] Hin.
    apply list_elem_of_In, elem_of_lookup_imap_1 in Hin as (i' & x' & [= -> ->] & Hl).
    by apply H.
Qed.

Lemma once_spec (w : World) : once w = true <-> forall ref, Once_at w ref.
Proof. unfold once, Once_at. rewrite forallb_imap_pair. done. Qed.

Lemma acyclic_spec (rank : nat -> nat) (w : World) :
  acyclic rank w = true <-> Acyclic rank w.
Proof.
  unfold acyclic, Acyclic, acyclic_task, lookup_task. rewrite forallb_imap_pair.
  cbn [fst snd]. split.
  - intros H ref t p ref' Ht Hin Hl. specialize (H ref t Ht).
    rewrite forallb_forall in H. specialize (H p). rewrite Hl in H.
    apply Nat.ltb_lt, H. by apply list_elem_of_In.
  - intros H ref t Ht. apply forallb_forall. intros p Hin.
    destruct (Json.obj_get p (tasks w)) as [ref'|] eqn:Hl; [|done].
    apply Nat.ltb_lt. eapply H; [done | by apply list_elem_of_In | done].
Qed.

Lemma obj_get_elem_of {A} (k : string) (o : list (string * A)) (v : A) :
  Json.obj_get k o = Some v -> v ∈ snd <$> o.
Proof.
  induction o as [|[k' v'] o IH]; [done|]. cbn.
  destruct (String.eqb k' k).
  - intros [= ->]. apply list_elem_of_here.
  - intros H. by apply list_elem_of_further, IH.
Qed.

(** Every registered task has a rank below [height]. *)
Lemma below_height (rank : nat -> nat) (w : World) (targets : list string) :
  below rank (height rank w) w targets.
Proof.
  intros target ref _ Hl. unfold height.
  apply Nat.lt_succ_r, max_list_elem_of_le.
  apply list_elem_of_fmap. exists ref. split; [done|]. by eapply obj_get_elem_of.
Qed.

Section Requests.

Variable exec : list string -> gmap string Node -> ChildResult * gmap string Node.

(** A request for a pending task changes nothing and gives the outcome
    of its promise. *)
Lemma request_pending_task (fuel : nat) (target requester : string) (w : World)
    (ref h : nat) (t : Task) (s : Settled) :
  lookup_task w target = Some ref ->
  store w !! ref = Some t ->
  pending t = Some h ->
  promises w !! h = Some s ->
  updateTargets exec (S fuel) [target] requester w = (outcome_of s, w).
Proof.
  intros Hl Ht Hp Hs. cbn [updateTargets]. unfold updateTargets_body, bind.
  rewrite request_cons, Hl, Ht, Hp. cbn [request ret fst snd app await_all].
  unfold bind. cbn [gets fst snd]. rewrite Hs. by destruct s.
Qed.

End Requests.

(** A task that is its own prerequisite has no rank. *)
Lemma self_dependent_not_acyclic (rank : nat -> nat) :
  acyclic rank Demo.self_dependent = false.
Proof.
  apply not_true_is_false. intros H. apply acyclic_spec in H.
  specialize (H 0%nat _ ":loop" 0%nat eq_refl).
  cbn in H. specialize (H (list_elem_of_here _ _) eq_refl). lia.
Qed.

End OnceFacts.




(** * Further properties of the code *)

(** ** Strings and paths *)

Module StrFacts.

Lemma chars_app (s t : string) : Str.chars (s +:+ t) = Str.chars s ++ Str.chars t.
Proof. induction s as [|c s IH]; [done|]. simpl. by rewrite <- IH. Qed.

Lemma of_chars_chars (s : string) : Str.of_chars (Str.chars s) = s.
Proof. apply string_of_list_ascii_of_string. Qed.

Lemma chars_of_chars (l : list ascii) : Str.chars (Str.of_chars l) = l.
Proof. apply list_ascii_of_string_of_list_ascii. Qed.

Lemma str_app_empty_r (s : string) : s +:+ "" = s.
Proof.
  induction s as [|c s IH]; [done|].
  change (String c (s +:+ "") = String c s). by rewrite IH.
Qed.

Lemma str_app_assoc (s t u : string) : (s +:+ t) +:+ u = s +:+ (t +:+ u).
Proof.
  induction s as [|c s IH]; [done|].
  change (String c ((s +:+ t) +:+ u) = String c (s +:+ (t +:+ u))). by rewrite IH.
Qed.

End StrFacts.

Module PathFacts.

Lemma strip_ext_rev_dot (back front : list ascii) :
  Path.DOT ∉ back -> Path.strip_ext_rev (back ++ Path.DOT :: front) = Some front.
Proof.
  induction back as [|c back IH]; intros Hnot; simpl.
  - done.
  - apply not_elem_of_cons in Hnot as [Hne Hnot].
    destruct (Ascii.eqb_spec c Path.DOT) as [->|_]; [done|]. by apply IH.
Qed.

Lemma strip_ext_rev_none (back : list ascii) :
  Path.DOT ∉ back -> Path.strip_ext_rev back = None.
Proof.
  induction back as [|c back IH]; intros Hnot; simpl; [done|].
  apply not_elem_of_cons in Hnot as [Hne Hnot].
  destruct (Ascii.eqb_spec c Path.DOT) as [->|_]; [done|]. by apply IH.
Qed.

Lemma elem_of_rev_iff {A} (x : A) (l : list A) : x ∈ rev l <-> x ∈ l.
Proof. rewrite !list_elem_of_In. symmetry. apply in_rev. Qed.

End PathFacts.

(** X1.  The pattern [/\.[^.]*$/] of [maek.CPP] matches from the last dot
    of the whole path to its end: a path loses its last dot and what
    follows it, also when that dot is in a directory name, and a path
    without a dot stays as it is. *)
Theorem strip_ext_last_dot (stem ext : string) :
  Path.DOT ∉ Str.chars ext ->
  Path.strip_ext (stem +:+ "." +:+ ext) = stem
  /\ Path.strip_ext ext = ext.
Proof.
  intros Hnot. unfold Path.strip_ext. split.
  - rewrite StrFacts.chars_app. change (Str.chars ("." +:+ ext)) with (Path.DOT :: Str.chars ext).
    rewrite rev_app_distr. simpl. rewrite <- app_assoc. simpl.
    rewrite PathFacts.strip_ext_rev_dot.
    + by rewrite rev_involutive, StrFacts.of_chars_chars.
    + intros Hin. apply Hnot. apply PathFacts.elem_of_rev_iff. exact Hin.
  - rewrite PathFacts.strip_ext_rev_none; [done|].
    intros Hin. apply Hnot. apply PathFacts.elem_of_rev_iff. exact Hin.
Qed.

Lemma strip_ext_last_dot_witness :
  Path.strip_ext "src.d/main" = "src" /\ Path.strip_ext "a/b.tar.cpp" = "a/b.tar".
Proof.
  split.
  - apply (strip_ext_last_dot "src" "d/main"). vm_compute.
    intros H. repeat (apply elem_of_cons in H as [H|H]; [discriminate|]).
    by apply elem_of_nil in H.
  - apply (strip_ext_last_dot "a/b.tar" "cpp"). vm_compute.
    intros H. repeat (apply elem_of_cons in H as [H|H]; [discriminate|]).
    by apply elem_of_nil in H.
Defined.

(** ** The dep-file parser *)

Module TokenFacts.

Lemma str_snoc_nonempty (s : string) (c : ascii) : s +:+ String c "" <> "".
Proof. by destruct s. Qed.

Lemma runs_nonempty (ps : list DepFile.piece) : forall cur t,
  t ∈ DepFile.runs ps cur -> t <> "".
Proof.
  induction ps as [|[|c] ps IH]; intros cur t; simpl.
  - destruct cur; [by intros ?%elem_of_nil|]. by intros ->%list_elem_of_singleton.
  - destruct cur; [apply IH|].
    intros [->|Hin]%elem_of_cons; [done | by eapply IH].
  - apply IH.
Qed.

End TokenFacts.

(** X2.  Whatever the dep-file holds, no prerequisite that [loadDeps]
    returns is the empty string: white space never leaves an empty token
    in the array, and the one that the loop may leave at the end is
    popped. *)
Theorem loadDeps_no_empty_token (depsFile : string) (deps : list string) (w : World)
    (result : list string) :
  fst (loadDeps depsFile deps w) = Ok result ->
  forall p, p ∈ result -> p <> "".
Proof.
  unfold loadDeps, bind, gets. cbn [fst snd].
  destruct (files w !! depsFile) as [[text|]|];
    [|by intros [= <-] p ?%elem_of_nil..].
  unfold console_assert.
  destruct (bool_decide _), (bool_decide _); cbn; intros [= <-] p Hin;
    unfold DepFile.extraDepends in Hin;
    apply list_elem_of_filter in Hin as [_ Hin];
    unfold DepFile.js_sort in Hin; rewrite merge_sort_Permutation in Hin;
    apply subseteq_drop in Hin;
    rewrite DepFileFacts.tokenize_spec in Hin;
    by eapply TokenFacts.runs_nonempty.
Qed.

Lemma loadDeps_no_empty_token_witness :
  fst (loadDeps "a.d" ["a.cpp"]
         (init_maek linux 1 {[ "a.d" := File "x :  a.cpp \
 c\ d.hpp   b.hpp
" ]}))
  = Ok ["b.hpp"; "c d.hpp"]
  /\ (forall p, p ∈ ["b.hpp"; "c d.hpp"] -> p <> "").
Proof.
  assert (fst (loadDeps "a.d" ["a.cpp"]
                 (init_maek linux 1 {[ "a.d" := File "x :  a.cpp \
 c\ d.hpp   b.hpp
" ]}))
          = Ok ["b.hpp"; "c d.hpp"]) as H by (vm_compute; reflexivity).
  split; [exact H | exact (loadDeps_no_empty_token _ _ _ _ H)].
Defined.

(** ** The registry of tasks *)

Module RegistryFacts.

Lemma register_lookup (target : string) (ref : nat) (w : World) (k : string) :
  lookup_task (snd (register target ref w)) k
  = if decide (k = target) then Some ref else lookup_task w k.
Proof. unfold lookup_task, register. cbn. apply RuleFacts.obj_get_set. Qed.

(** [for (const target of targets) maek.tasks[target] = task;] *)
Lemma register_all (ref : nat) (targets : list string) : forall w,
  let r := for_each targets (fun target => register target ref) w in
  fst r = Ok tt
  /\ store (snd r) = store w
  /\ trace (snd r) = trace w
  /\ files (snd r) = files w
  /\ (forall k, lookup_task (snd r) k
                = if decide (k ∈ targets) then Some ref else lookup_task w k).
Proof.
  induction targets as [|target targets IH]; intros w; cbn [for_each].
  - repeat split.
  - unfold bind. cbn [register modify fst snd].
    destruct (IH (set_tasks (Json.obj_set target ref (tasks w)) w))
      as (Hok & Hst & Htr & Hfs & Hl).
    cbv zeta in *. repeat split; try done.
    intros k. rewrite Hl. destruct (decide (k ∈ targets)) as [Hin|Hnot].
    + rewrite decide_True; [done | by apply list_elem_of_further].
    + change (lookup_task (set_tasks _ w) k)
        with (lookup_task (snd (register target ref w)) k).
      rewrite register_lookup. destruct (decide (k = target)) as [->|Hne].
      * rewrite decide_True; [done | apply list_elem_of_here].
      * rewrite decide_False; [done|]. by intros [?|?]%elem_of_cons.
Qed.

End RegistryFacts.

(** X3.  [maek.RULE] makes one task object and stores it under every one
    of its targets, also under a target that had a task before, which is
    replaced; the tasks of other targets stay.  The task has a [keyFn]
    exactly when no target is abstract.  Nothing is printed or run and no
    file is touched. *)
Theorem RULE_registers_one_task (targets prerequisites : list string)
    (recipe : list (list string)) (w : World) :
  let r := RULE targets prerequisites recipe w in
  exists t,
    fst r = Ok tt
    /\ store (snd r) = store w ++ [t]
    /\ kind t = Rule targets prerequisites recipe
    /\ (keyFn t = true <-> forall target, target ∈ targets -> is_abstract target = false)
    /\ cachedKey t = None /\ pending t = None
    /\ (forall target,
          lookup_task (snd r) target
          = if decide (target ∈ targets) then Some (length (store w))
            else lookup_task w target)
    /\ trace (snd r) = trace w
    /\ files (snd r) = files w.
Proof.
  intros r. subst r. unfold RULE, bind, new_task. cbn [fst snd].
  match goal with
  | |- context [set_store (store w ++ [?t]) w] => exists t
  end.
  destruct (RegistryFacts.register_all (length (store w)) targets
              (set_store (store w ++ [mkTask (Rule targets prerequisites recipe)
                 ("RULE " +:+ quoted_list prerequisites +:+ " -> " +:+ quoted_list targets)
                 (negb (existsb is_abstract targets)) None None None]) w))
    as (Hok & Hst & Htr & Hfs & Hl).
  cbv zeta in *.
  destruct (for_each targets _ _) as [[[]|e|] w'] eqn:Hrun; cbn [fst snd] in *; try done.
  repeat split; try done.
  - cbn [keyFn]. intros Hk target Hin.
    apply negb_true_iff in Hk. apply not_true_iff_false. intros Ha.
    apply not_true_iff_false in Hk. apply Hk, existsb_exists.
    exists target. split; [by apply list_elem_of_In | done].
  - cbn [keyFn]. intros Hall. apply negb_true_iff, not_true_iff_false.
    intros (target & Hin & Ha)%existsb_exists.
    apply list_elem_of_In in Hin. by rewrite (Hall target Hin) in Ha.
Qed.



(** X5.  [maek.LINK] on Windows throws its [TODO] error and registers
    nothing.  On Linux and macOS it returns [exeFileBase] followed by
    [exeSuffix]; that name, and no other, now has a new task, which waits
    for the object files and the [depends] of the options, and whose
    command names the executable after [-o], then the object files, then
    [LINKLibs]. *)
Theorem LINK_registers_executable (objFiles : list string) (exeFileBase : string)
    (l : LocalOptions) (w : World) (opts : Options) :
  fst (combineOptions l w) = Ok opts ->
  let exeFile := exeFileBase +:+ exeSuffix opts in
  let r := LINK objFiles exeFileBase l w in
  match OS w with
  | windows => r = (Throw (Error "TODO: write LINK rule for windows."), w)
  | _ =>
      exists t,
        fst r = Ok exeFile
        /\ store (snd r) = store w ++ [t]
        /\ kind t = Link exeFile (objFiles ++ depends opts)
                      (["g++"; "-std=c++20"; "-Wall"; "-Werror"; "-g"; "-o"; exeFile]
                       ++ objFiles ++ LINKLibs opts)
        /\ keyFn t = true /\ cachedKey t = None /\ pending t = None
        /\ (forall target,
              lookup_task (snd r) target
              = if decide (target = exeFile) then Some (length (store w))
                else lookup_task w target)
  end.
Proof.
  unfold combineOptions, bind, gets, ret. cbn [fst snd]. intros [= <-]. cbv zeta.
  unfold LINK, combineOptions, bind, gets, ret, throw, new_task. cbn [fst snd].
  destruct (OS w) eqn:Hos; cbn [fst snd os_name]; [done|..];
    (eexists; repeat split; [reflexivity..|]; intros target;
     unfold lookup_task, register; cbn; apply RuleFacts.obj_get_set).
Qed.

Lemma LINK_registers_executable_witness :
  fst (LINK ["objs/game.o"] "dist/game" no_options (init_maek linux 1 ∅)) = Ok "dist/game"
  /\ LINK ["objs/game.o"] "dist/game" no_options (init_maek windows 1 ∅)
     = (Throw (Error "TODO: write LINK rule for windows."), init_maek windows 1 ∅).
Proof.
  split.
  - destruct (LINK_registers_executable ["objs/game.o"] "dist/game" no_options
                (init_maek linux 1 ∅) (DEFAULT_OPTIONS linux) eq_refl) as (t & H & _).
    exact H.
  - exact (LINK_registers_executable ["objs/game.o"] "dist/game" no_options
             (init_maek windows 1 ∅) (DEFAULT_OPTIONS windows) eq_refl).
Defined.

(** ** The hash cache *)

Module HashAgainFacts.

Lemma filter_all {A} (P : A -> Prop) `{forall x, Decision (P x)} (l : list A) :
  (forall x, x ∈ l -> P x) -> filter P l = l.
Proof.
  induction l as [|x l IH]; intros Hall; [done|].
  rewrite filter_cons_True by (apply Hall, list_elem_of_here).
  f_equal. apply IH. intros y Hy. by apply Hall, list_elem_of_further.
Qed.

End HashAgainFacts.

(** X6.  Hashing the same targets again, with nothing in between, reads no
    file: the second [hashFiles] returns the records of the first, leaves
    the hash cache as it is, and counts one hit for every file in the list
    (a file listed twice counts twice). *)
Theorem hashFiles_again (targets : list string) (w : World) :
  let fs := filter (fun target => is_abstract target = false) targets in
  let w1 := snd (hashFiles targets w) in
  exists hashes,
    fst (hashFiles targets w) = Ok hashes
    /\ hashFiles targets w1
       = (Ok hashes, set_hashCacheHits (hashCacheHits w1 + length fs) w1).
Proof.
  intros fs w1.
  destruct (HashFilesFacts.hashFiles_records targets w) as (c1 & Hrun & Hin & Hout).
  destruct (HashFilesFacts.hashFiles_records targets w1) as (c2 & Hrun2 & Hin2 & Hout2).
  cbv zeta in *. fold fs in Hrun, Hin, Hout, Hrun2, Hin2, Hout2.
  assert (hashCache w1 = c1) as Hc1 by (subst w1; by rewrite Hrun).
  rewrite Hc1 in *.
  eexists. split; [by rewrite Hrun|]. rewrite Hrun2. f_equal.
  - f_equal. apply Forall_fmap_ext, Forall_forall. intros f Hf. by rewrite (Hin f Hf).
  - assert (c2 = c1) as ->.
    { apply map_eq. intros f. destruct (decide (f ∈ fs)) as [Hf|Hf].
      - by rewrite (Hin2 f Hf), !(Hin f Hf).
      - by rewrite (Hout2 f Hf). }
    assert (filter (fun f => is_Some (c1 !! f)) fs = fs) as ->.
    { apply HashAgainFacts.filter_all. intros f Hf. by rewrite (Hin f Hf). }
    rewrite <- Hc1. by destruct w1.
Qed.

(** ** The job limiter *)

Module JobWakeFacts.
Import JobLimiter.

Section Jobs.

Context {J : Type}.
Variable limit : nat.

Lemma step_wakeful (s s' : State J) (t : Turn J) :
  consistent limit s ->
  (length (pending s) `min` (limit - active s) <= ticks s)%nat ->
  step limit s t = Some s' ->
  (length (pending s') `min` (limit - active s') <= ticks s')%nat.
Proof.
  intros (Ha & Hl & _) Hw. destruct t as [j| |i]; simpl.
  - intros [= <-]. simpl. rewrite length_app. simpl. lia.
  - destruct (ticks s) as [|n] eqn:Ht; [done|]. intros [= <-].
    unfold schedule. cbn [pending active ticks].
    destruct (pending s) as [|next rest] eqn:Hp; cbn [length] in Hw;
      [cbn [pending active ticks length]; lia|].
    case_bool_decide; cbn [pending active ticks length]; lia.
  - destruct (running s !! i) as [j|] eqn:Hi; [|done]. intros [= <-]. simpl. lia.
Qed.

Lemma run_wakeful (turns : list (Turn J)) : forall (s s' : State J),
  consistent limit s ->
  (length (pending s) `min` (limit - active s) <= ticks s)%nat ->
  run limit s turns = Some s' ->
  consistent limit s'
  /\ (length (pending s') `min` (limit - active s') <= ticks s')%nat.
Proof.
  induction turns as [|t turns IH]; intros s s' Hc Hw; simpl.
  - by intros [= <-].
  - destruct (step limit s t) as [s1|] eqn:Hstep; [|done].
    apply IH; [by eapply JobLimiterFacts.step_consistent | by eapply step_wakeful].
Qed.

End Jobs.

End JobWakeFacts.

(** X7.  The job limiter loses no wake-up.  After any sequence of
    submissions, [schedule] callbacks and settled jobs, at least as many
    [schedule] callbacks are queued with [process.nextTick] as there are
    waiting jobs that a free slot could take.  So when no callback is
    queued, either no job waits or [JOBS] jobs are running; and when a job
    waits and a slot is free, the next callback starts the job that has
    waited longest. *)
Theorem job_limiter_no_lost_wakeup {J : Type} (w : World)
    (turns : list (JobLimiter.Turn J)) (s : JobLimiter.State J) :
  JobLimiter.run (JOBS w) JobLimiter.initial turns = Some s ->
  (length (JobLimiter.pending s) `min` (JOBS w - JobLimiter.active s)
   <= JobLimiter.ticks s)%nat
  /\ (JobLimiter.ticks s = 0%nat ->
      JobLimiter.pending s = [] \/ JobLimiter.active s = JOBS w)
  /\ (forall j rest,
        JobLimiter.pending s = j :: rest ->
        (JobLimiter.active s < JOBS w)%nat ->
        exists s',
          JobLimiter.step (JOBS w) s JobLimiter.Tick = Some s'
          /\ JobLimiter.started s' = JobLimiter.started s ++ [j]
          /\ JobLimiter.running s' = JobLimiter.running s ++ [j]
          /\ JobLimiter.pending s' = rest).
Proof.
  intros Hrun.
  destruct (JobWakeFacts.run_wakeful (JOBS w) turns JobLimiter.initial s) as [Hc Hw];
    [apply JobLimiterFacts.initial_consistent | simpl; lia | done |].
  destruct Hc as (Ha & Hl & _).
  split; [done|]. split.
  - intros Ht. rewrite Ht in Hw.
    destruct (JobLimiter.pending s); [by left|]. right. cbn [length] in Hw. lia.
  - intros j rest Hp Hlt. rewrite Hp in Hw. cbn [length] in Hw.
    unfold JobLimiter.step.
    destruct (JobLimiter.ticks s) as [|n] eqn:Ht; [lia|].
    eexists. split; [reflexivity|]. unfold JobLimiter.schedule. simpl. rewrite Hp.
    rewrite bool_decide_eq_true_2 by done. done.
Qed.

Lemma job_limiter_no_lost_wakeup_witness :
  JobLimiter.run (JOBS (init_maek linux 1 ∅)) JobLimiter.initial
    [JobLimiter.Submit "a"; JobLimiter.Submit "b"; JobLimiter.Submit "c";
     JobLimiter.Tick; JobLimiter.Tick; JobLimiter.Tick]
  = Some (JobLimiter.mkState 2 ["c"] 0 ["a"; "b"] ["a"; "b"; "c"] ["a"; "b"])
  /\ (JobLimiter.ticks (JobLimiter.mkState 2 ["c"] 0 ["a"; "b"] ["a"; "b"; "c"] ["a"; "b"])
      = 0%nat ->
      JobLimiter.pending (JobLimiter.mkState 2 ["c"] 0 ["a"; "b"] ["a"; "b"; "c"] ["a"; "b"])
      = []
      \/ JobLimiter.active (JobLimiter.mkState 2 ["c"] 0 ["a"; "b"] ["a"; "b"; "c"] ["a"; "b"])
         = JOBS (init_maek linux 1 ∅)).
Proof.
  assert (JobLimiter.run (JOBS (init_maek linux 1 ∅)) JobLimiter.initial
            [JobLimiter.Submit "a"; JobLimiter.Submit "b"; JobLimiter.Submit "c";
             JobLimiter.Tick; JobLimiter.Tick; JobLimiter.Tick]
          = Some (JobLimiter.mkState 2 ["c"] 0 ["a"; "b"] ["a"; "b"; "c"] ["a"; "b"])) as H
    by (vm_compute; reflexivity).
  split; [exact H|].
  exact (proj1 (proj2 (job_limiter_no_lost_wakeup _ _ _ H))).
Defined.

(** ** The resolver *)

Module FrameFacts.

Lemma skeleton_lookup (w w' : World) (ref : nat) (t : Task) :
  skeleton w' = skeleton w ->
  store w !! ref = Some t ->
  exists t', store w' !! ref = Some t'
    /\ kind t' = kind t /\ label t' = label t /\ keyFn t' = keyFn t.
Proof.
  unfold skeleton. intros [= _ Hs] Ht.
  assert (((fun t => (kind t, label t, keyFn t)) <$> store w') !! ref
          = Some (kind t, label t, keyFn t)) as Hl.
  { rewrite Hs, list_lookup_fmap, Ht. done. }
  rewrite list_lookup_fmap in Hl.
  destruct (store w' !! ref) as [t'|]; [|done].
  exists t'. split; [done|]. by injection Hl.
Qed.

End FrameFacts.

(** X8.  Whatever it is asked to update, and whether it returns, throws
    or runs out of stack, [updateTargets] only adds to what has been
    printed and run and to the promises made; it registers no task and
    unregisters none, and every task object keeps its closure, its label
    and its [keyFn] (only [cachedKey], [pending] and [from] are
    assigned). *)
Theorem updateTargets_keeps_registry
    (exec : list string -> gmap string Node -> ChildResult * gmap string Node)
    (fuel : nat) (targets : list string) (requester : string) (w : World) :
  let w' := snd (updateTargets exec fuel targets requester w) in
  trace w `prefix_of` trace w'
  /\ promises w `prefix_of` promises w'
  /\ tasks w' = tasks w
  /\ length (store w') = length (store w)
  /\ (forall ref t,
        store w !! ref = Some t ->
        exists t', store w' !! ref = Some t'
          /\ kind t' = kind t /\ label t' = label t /\ keyFn t' = keyFn t).
Proof.
  intros w'.
  destruct (GrowEngine.growing_updateTargets exec fuel targets requester w)
    as (Htr & Hpr & Hsk).
  fold w' in Htr, Hpr, Hsk.
  split; [done|]. split; [done|]. split; [|split].
  - unfold skeleton in Hsk. by injection Hsk.
  - unfold skeleton in Hsk. injection Hsk as _ Hst.
    apply (f_equal length) in Hst. by rewrite !length_fmap in Hst.
  - intros ref t Ht. by eapply FrameFacts.skeleton_lookup.
Qed.

Module ResolverFacts.

Lemma await_all_world (handles : list nat) (w : World) : snd (await_all handles w) = w.
Proof.
  induction handles as [|h rest IH]; [done|].
  cbn [await_all]. unfold bind, gets. cbn [fst snd].
  destruct (promises w !! h) as [[|e]|]; [exact IH | done | exact IH].
Qed.

Section WithExec.

Variable exec : list string -> gmap string Node -> ChildResult * gmap string Node.
Variable rec : list string -> string -> M unit.

(** The loop over a list of targets is the loop over its first part
    followed by the loop over the rest. *)
Lemma request_app (pre rest : list string) (requester : string) :
  forall handles w,
    request exec rec (pre ++ rest) requester handles w
    = bind (request exec rec pre requester handles)
           (fun hs => request exec rec rest requester hs) w.
Proof.
  induction pre as [|target pre IH]; intros handles w; [done|].
  rewrite <- app_comm_cons. unfold bind at 1.
  rewrite !OnceFacts.request_cons.
  destruct (lookup_task w target) as [ref0|].
  - destruct (store w !! ref0) as [t|]; [|done].
    destruct (pending t) as [h|]; [apply IH|].
    unfold bind at 1 5.
    match goal with
    | |- context [match ?m w with _ => _ end] => destruct (m w) as [[h|e|] w1]
    end; [apply IH | done..].
  - destruct (is_abstract target); [done|].
    unfold bind at 1 2.
    destruct (promise (check_exists target requester) w) as [[h|e|] w1];
      [apply IH | done..].
Qed.

End WithExec.

End ResolverFacts.





(** X11.  When a task that was not pending fails with a [BuildError], the
    update that requested it fails with the [BuildError]
    ["prerequisite failed."], whatever went wrong; the cause has been
    printed by [console.error] in a line that names the task and who
    requested it, and that line is the last thing printed or run. *)
Theorem task_failure_is_reported
    (exec : list string -> gmap string Node -> ChildResult * gmap string Node)
    (fuel : nat) (target requester : string) (w : World) (ref : nat) (t : Task)
    (message : string) :
  lookup_task w target = Some ref ->
  store w !! ref = Some t ->
  pending t = None ->
  let r := updateTargets exec (S fuel) [target] requester w in
  fst r = Throw (BuildError message) ->
  message = "prerequisite failed."
  /\ exists cause,
       last (trace (snd r))
       = Some (ConsoleError ("FAILED: " +:+ label t +:+ " (requested by " +:+ requester
                             +:+ "): " +:+ cause)).
Proof.
  intros Hl Ht Hp r. subst r. cbn [updateTargets].
  rewrite (EngineFacts.request_launches exec (updateTargets exec fuel) target requester
             w ref t Hl Ht Hp).
  cbv zeta. unfold launch.
  destruct (attempt exec (updateTargets exec fuel) ref (set_from (Some requester) t)
              (snd (update_task ref (set_from (Some requester)) w)))
    as [[[]|[cause|cause]|] w1]; cbn [fst snd]; try done.
  intros [= <-]. split; [done|]. exists cause.
  unfold bind, emit, modify, throw. cbn. by rewrite last_snoc.
Qed.

Lemma task_failure_is_reported_witness :
  "prerequisite failed." = "prerequisite failed."
  /\ exists cause,
       last (trace (snd (updateTargets Demo.toy_exec 5 ["objs/Player.o"] "user"
                           Demo.player_deleted)))
       = Some (ConsoleError ("FAILED: " +:+ "CPP 'Player.cpp' -> 'objs/Player.o'"
                             +:+ " (requested by " +:+ "user" +:+ "): " +:+ cause)).
Proof.
  apply (task_failure_is_reported Demo.toy_exec 4 "objs/Player.o" "user"
           Demo.player_deleted 0
           (mkTask (Cpp "objs/Player.o" "objs/Player.d" ["Player.cpp"]
                      ["g++"; "-std=c++20"; "-Wall"; "-Werror"; "-g"; "-c"; "-o";
                       "objs/Player.o"; "Player.cpp"]
                      ["g++"; "-std=c++20"; "-Wall"; "-Werror"; "-g"; "-E"; "-M"; "-MG";
                       "-MT"; "x "; "-MF"; "objs/Player.d"; "Player.cpp"])
                   "CPP 'Player.cpp' -> 'objs/Player.o'" true None None None)).
  - vm_compute. reflexivity.
  - vm_compute. reflexivity.
  - reflexivity.
  - vm_compute. reflexivity.
Defined.

(** ** The driver *)

Module PrepareFacts.
Import GrowFacts.

Lemma growing_assign_cache (es : list (string * json)) :
  forall assigned removed, growing (assign_cache es assigned removed).
Proof.
  induction es as [|[target value] es IH]; intros assigned removed; cbn [assign_cache].
  - apply growing_ret.
  - apply growing_bind; [apply growing_gets|]. intros w.
    destruct (lookup_task w target) as [ref|]; [|apply IH].
    apply growing_bind; [by apply growing_update_task | intros ?; apply IH].
Qed.

Lemma growing_start_fresh (unexpected : bool) : growing (start_fresh unexpected).
Proof.
  apply growing_bind; [apply growing_emit|]. intros ?.
  destruct unexpected; [apply growing_emit | apply growing_ret].
Qed.

Lemma growing_load_cache : growing load_cache.
Proof.
  apply growing_bind; [apply growing_gets|]. intros fs.
  destruct (fs !! CACHE_FILE) as [[text|]|]; try apply growing_start_fresh.
  destruct (Json.parse text) as [cache|]; [|apply growing_start_fresh].
  destruct (entries cache) as [es|]; [|apply growing_start_fresh].
  apply growing_bind; [apply growing_assign_cache | intros ?; apply growing_emit].
Qed.

Lemma growing_clear_cachedKeys : growing clear_cachedKeys.
Proof.
  apply growing_bind; [apply growing_gets|]. intros regs.
  apply growing_for_each. intros x. by apply growing_update_task.
Qed.

(** Loading the cache only assigns [cachedKey]. *)
Lemma growing_prepare (targets : list string) : growing (prepare targets).
Proof.
  apply growing_bind.
  - apply growing_bind; [apply growing_gets | intros ?; apply growing_emit].
  - intros ?. apply growing_bind; [apply growing_clear_cachedKeys|].
    intros ?. apply growing_load_cache.
Qed.

End PrepareFacts.

(** X12.  When no task is among its own prerequisites, directly or
    through other tasks, [maek.update] comes to an end whatever the
    commands do to the files and however they end: it returns, or it
    exits with status 1, or its promise is rejected with an error that is
    not a [BuildError].  (Every command is taken to end; the stack that
    the engine needs is bounded by the height of the ranking.) *)
Theorem update_terminates
    (exec : list string -> gmap string Node -> ChildResult * gmap string Node)
    (rank : nat -> nat) (fuel : nat) (targets : list string) (w : World) :
  acyclic rank w = true ->
  (height rank w < fuel)%nat ->
  match fst (update exec fuel targets w) with
  | Finished | ProcessExit 1 | Rejected (Error _) => True
  | _ => False
  end.
Proof.
  intros Hac Hfuel. apply OnceFacts.acyclic_spec in Hac.
  destruct (DriverFacts.prepare_returns targets w) as (w1 & Hprep).
  pose proof (PrepareFacts.growing_prepare targets w) as (_ & _ & Hsk).
  rewrite Hprep in Hsk. cbn [snd] in Hsk.
  pose proof (OnceFacts.settles_updateTargets exec rank w Hac fuel (height rank w)
                targets "user" Hfuel (OnceFacts.below_height rank w targets) w1 Hsk)
    as Hsettles.
  unfold update. rewrite Hprep.
  destruct (updateTargets exec fuel targets "user" w1) as [[[]|[message|message]|] w2];
    cbn [fst snd] in *; try done.
  unfold store_cache, writeFileSync, bind, gets, emit, modify, throw. cbn [fst snd].
  match goal with
  | |- context [match ?m !! CACHE_FILE with _ => _ end] =>
      by destruct (m !! CACHE_FILE) as [[data|]|]
  end.
Qed.

Lemma update_terminates_witness :
  match fst (update Demo.toy_exec 5 [":test"] (Demo.start Demo.sources)) with
  | Finished | ProcessExit 1 | Rejected (Error _) => True
  | _ => False
  end.
Proof.
  apply (update_terminates Demo.toy_exec id).
  - vm_compute. reflexivity.
  - vm_compute. lia.
Defined.

Module ClearFacts.

(** The loop that deletes [cachedKey] from the task of every target. *)
Lemma clear_loop (regs : list (string * nat)) : forall w,
  let r := for_each regs (fun entry => update_task (snd entry) (set_cachedKey None)) w in
  fst r = Ok tt
  /\ trace (snd r) = trace w /\ files (snd r) = files w /\ tasks (snd r) = tasks w
  /\ (forall ref t,
        store (snd r) !! ref = Some t ->
        (ref ∈ regs.*2 -> cachedKey t = None)
        /\ exists t0, store w !! ref = Some t0
             /\ (cachedKey t0 = None -> cachedKey t = None)).
Proof.
  induction regs as [|[target ref0] regs IH]; intros w; cbn [for_each].
  - repeat split; try done.
    + by intros ?%elem_of_nil.
    + by exists t.
  - unfold bind, update_task, modify. cbn [fst snd].
    destruct (IH (set_store (alter (set_cachedKey None) ref0 (store w)) w))
      as (Hok & Htr & Hfs & Hts & Hst).
    cbv zeta in *. split; [done|]. split; [done|]. split; [done|]. split; [done|].
    intros ref t Ht. destruct (Hst ref t Ht) as (Hin & t0 & Ht0 & Hnone).
    cbn [store set_store] in Ht0.
    destruct (decide (ref = ref0)) as [->|Hne].
    + rewrite list_lookup_alter_eq in Ht0.
      destruct (store w !! ref0) as [t1|] eqn:Ht1; [|done]. injection Ht0 as <-.
      split; [intros _; by apply Hnone|]. exists t1. split; [done|]. intros _. by apply Hnone.
    + rewrite list_lookup_alter_ne in Ht0 by done.
      split; [|by exists t0].
      rewrite fmap_cons. intros [?|Hin']%elem_of_cons; [done | by apply Hin].
Qed.

End ClearFacts.



(** ** Reading back what [JSON.stringify] wrote *)

Module JsonFacts.
Import Json.

(** One escaped code unit is read back as that code unit. *)
Lemma parse_string_escape (c : ascii) (tail acc : list ascii) :
  parse_string (Str.chars (escape c) ++ tail) acc = parse_string tail (c :: acc).
Proof.
  destruct c as [[] [] [] [] [] [] [] []]; reflexivity.
Qed.

Lemma parse_string_escape_all (s : string) : forall (rest acc : list ascii),
  parse_string (Str.chars (escape_all s) ++ Str.DQUOTE :: rest) acc
  = Some (Str.of_chars (rev acc ++ Str.chars s), rest).
Proof.
  induction s as [|c s IH]; intros rest acc.
  - cbn [escape_all Str.chars list_ascii_of_string app]. rewrite app_nil_r. reflexivity.
  - cbn [escape_all]. rewrite StrFacts.chars_app, <- app_assoc, parse_string_escape, IH.
    cbn [rev Str.chars list_ascii_of_string]. by rewrite <- app_assoc.
Qed.

Lemma chars_quote (s : string) :
  Str.chars (quote s) = Str.DQUOTE :: Str.chars (escape_all s) ++ [Str.DQUOTE].
Proof.
  unfold quote. rewrite !StrFacts.chars_app. reflexivity.
Qed.

End JsonFacts.

Module JsonParseFacts.
Import Json JsonFacts.

Lemma json_ind_strong (P : json -> Prop) :
  P JNull ->
  (forall b, P (JBool b)) ->
  (forall n, P (JNum n)) ->
  (forall s, P (JStr s)) ->
  (forall items, Forall P items -> P (JArr items)) ->
  (forall fields, Forall (fun kv => P (snd kv)) fields -> P (JObj fields)) ->
  forall j, P j.
Proof.
  intros Hnull Hbool Hnum Hstr Harr Hobj. fix IH 1.
  intros [|b|n|s|items|fields]; [done..| |].
  - apply Harr. induction items as [|v items IHitems]; constructor; [apply IH | done].
  - apply Hobj. induction fields as [|[k v] fields IHfields]; constructor; [apply IH | done].
Qed.

Lemma parse_items_S (fuel : nat) (s : list ascii) (acc : list json) :
  parse_items (S fuel) s acc
  = match parse_value fuel s with
    | Some (v, rest) =>
        match skip_ws rest with
        | c :: rest' =>
            if Str.code c =? 44 then parse_items fuel rest' (acc ++ [v])
            else if Str.code c =? 93 then Some (JArr (acc ++ [v]), rest')
            else None
        | [] => None
        end
    | None => None
    end.
Proof. reflexivity. Qed.

Lemma parse_fields_S (fuel : nat) (s : list ascii) (acc : list (string * json)) :
  parse_fields (S fuel) s acc
  = match skip_ws s with
    | q :: s1 =>
        if Str.code q =? 34 then
          match parse_string s1 [] with
          | Some (k, s2) =>
              match skip_ws s2 with
              | colon :: s3 =>
                  if Str.code colon =? 58 then
                    match parse_value fuel s3 with
                    | Some (v, rest) =>
                        match skip_ws rest with
                        | c :: rest' =>
                            if Str.code c =? 44
                            then parse_fields fuel rest' (obj_set k v acc)
                            else if Str.code c =? 125
                            then Some (JObj (obj_set k v acc), rest')
                            else None
                        | [] => None
                        end
                    | None => None
                    end
                  else None
              | [] => None
              end
          | None => None
          end
        else None
    | [] => None
    end.
Proof. reflexivity. Qed.

(** The text of a value starts with a character that is no white space
    and closes no array or object. *)
Lemma stringify_head (j : json) :
  JsonKey.plain j = true ->
  exists c tail,
    Str.chars (stringify j) = c :: tail
    /\ is_ws c = false
    /\ (Str.code c =? 93) = false
    /\ (Str.code c =? 125) = false.
Proof.
  destruct j as [|[|]|n|s|items|fields]; intros Hp; try done;
    try (eexists _, _; split; [reflexivity|]; by vm_compute).
Qed.

End JsonParseFacts.

Module JsonRoundTrip.
Import Json JsonFacts JsonParseFacts.

Lemma skip_ws_head (c : ascii) (tail : list ascii) :
  is_ws c = false -> skip_ws (c :: tail) = c :: tail.
Proof. intros Hc. cbn [skip_ws]. by rewrite Hc. Qed.

Lemma join_cons2 (sep x y : string) (l : list string) :
  Str.join sep (x :: y :: l) = x +:+ sep +:+ Str.join sep (y :: l).
Proof. reflexivity. Qed.

(** What the main proof shows for one value. *)
Lemma parse_items_stringify (items : list json) :
  Forall (fun v => JsonKey.plain v = true ->
                   forall fuel rest,
                     (JsonKey.cost v <= fuel)%nat ->
                     parse_value fuel (Str.chars (stringify v) ++ rest) = Some (v, rest))
         items ->
  forallb JsonKey.plain items = true ->
  items <> [] ->
  forall acc fuel rest,
    (length items + list_sum (map JsonKey.cost items) <= fuel)%nat ->
    parse_items fuel (Str.chars (Str.join "," (map stringify items)) ++ "]"%char :: rest) acc
    = Some (JArr (acc ++ items), rest).
Proof.
  induction items as [|v vs IH]; [done|]. intros HP Hpl _ acc fuel rest Hfuel.
  apply Forall_cons in HP as [Hv Hvs]. cbn [forallb] in Hpl.
  apply andb_true_iff in Hpl as [Hplv Hplvs].
  cbn [length map list_sum fold_right] in Hfuel.
  destruct fuel as [|fuel]; [lia|]. rewrite parse_items_S.
  destruct vs as [|v2 vs'].
  - cbn [map Str.join]. rewrite (Hv Hplv fuel) by (cbn in Hfuel; lia). reflexivity.
  - cbn [map]. rewrite join_cons2, !StrFacts.chars_app, <- !app_assoc.
    rewrite (Hv Hplv fuel) by lia.
    change (Str.chars "," ++ ?l) with (","%char :: l).
    rewrite skip_ws_head by reflexivity.
    change (Str.code ","%char =? 44) with true. cbv iota.
    rewrite (IH Hvs Hplvs) by (done || (cbn [length map list_sum fold_right] in *; lia)).
    by rewrite <- app_assoc.
Qed.

Lemma parse_fields_stringify (fields : list (string * json)) :
  Forall (fun kv => JsonKey.plain (snd kv) = true ->
                    forall fuel rest,
                      (JsonKey.cost (snd kv) <= fuel)%nat ->
                      parse_value fuel (Str.chars (stringify (snd kv)) ++ rest)
                      = Some (snd kv, rest))
         fields ->
  forallb (fun kv => JsonKey.plain (snd kv)) fields = true ->
  fields <> [] ->
  forall acc fuel rest,
    NoDup ((acc ++ fields).*1) ->
    (length fields + list_sum (map (fun kv => JsonKey.cost (snd kv)) fields) <= fuel)%nat ->
    parse_fields fuel
      (Str.chars (Str.join ","
                    (map (fun kv => quote (fst kv) +:+ ":" +:+ stringify (snd kv)) fields))
       ++ "}"%char :: rest) acc
    = Some (JObj (acc ++ fields), rest).
Proof.
  induction fields as [|[k v] fs IH]; [done|]. intros HP Hpl _ acc fuel rest Hnd Hfuel.
  apply Forall_cons in HP as [Hv Hvs]. cbn [forallb snd] in Hpl, Hv.
  apply andb_true_iff in Hpl as [Hplv Hplvs].
  cbn [length map list_sum fold_right snd] in Hfuel.
  destruct fuel as [|fuel]; [lia|]. rewrite parse_fields_S.
  assert (obj_set k v acc = acc ++ [(k, v)]) as Hset.
  { apply DriverFacts.obj_set_fresh. rewrite fmap_app in Hnd.
    apply NoDup_app in Hnd as (_ & Hdis & _). intros Hin. apply (Hdis k Hin).
    rewrite fmap_cons. apply list_elem_of_here. }
  assert (forall tail,
            Str.chars (quote k +:+ ":" +:+ stringify v) ++ tail
            = Str.DQUOTE :: Str.chars (escape_all k)
              ++ Str.DQUOTE :: ":"%char :: Str.chars (stringify v) ++ tail) as Hfield.
  { intros tail. rewrite !StrFacts.chars_app, chars_quote.
    cbn [app]. rewrite <- !app_assoc. reflexivity. }
  destruct fs as [|kv2 fs'].
  - cbn [map Str.join fst snd]. rewrite Hfield.
    rewrite skip_ws_head by reflexivity.
    change (Str.code Str.DQUOTE =? 34) with true. cbv iota.
    rewrite parse_string_escape_all. cbn [rev app]. rewrite StrFacts.of_chars_chars.
    rewrite skip_ws_head by reflexivity.
    change (Str.code ":"%char =? 58) with true. cbv iota.
    rewrite (Hv Hplv fuel) by lia.
    rewrite skip_ws_head by reflexivity.
    change (Str.code "}"%char =? 44) with false.
    change (Str.code "}"%char =? 125) with true. cbv iota.
    by rewrite Hset.
  - cbn [map fst snd]. rewrite join_cons2, StrFacts.chars_app, <- app_assoc, Hfield.
    rewrite skip_ws_head by reflexivity.
    change (Str.code Str.DQUOTE =? 34) with true. cbv iota.
    rewrite parse_string_escape_all. cbn [rev app]. rewrite StrFacts.of_chars_chars.
    rewrite skip_ws_head by reflexivity.
    change (Str.code ":"%char =? 58) with true. cbv iota.
    rewrite StrFacts.chars_app, <- !app_assoc.
    rewrite (Hv Hplv fuel) by lia.
    change (Str.chars "," ++ ?l) with (","%char :: l).
    rewrite skip_ws_head by reflexivity.
    change (Str.code ","%char =? 44) with true. cbv iota.
    rewrite Hset.
    rewrite (IH Hvs Hplvs); [by rewrite <- app_assoc | done | | cbn [length map list_sum fold_right] in *; lia].
    by rewrite <- app_assoc.
Qed.

Lemma parse_value_string (fuel : nat) (tail : list ascii) :
  parse_value (S fuel) (Str.DQUOTE :: tail)
  = match parse_string tail [] with
    | Some (str, rest') => Some (JStr str, rest')
    | None => None
    end.
Proof. reflexivity. Qed.

Lemma parse_value_array (fuel : nat) (tail : list ascii) :
  parse_value (S fuel) ("["%char :: tail)
  = match skip_ws tail with
    | c' :: rest' =>
        if Str.code c' =? 93 then Some (JArr [], rest') else parse_items fuel tail []
    | [] => None
    end.
Proof. reflexivity. Qed.

Lemma parse_value_object (fuel : nat) (tail : list ascii) :
  parse_value (S fuel) ("{"%char :: tail)
  = match skip_ws tail with
    | c' :: rest' =>
        if Str.code c' =? 125 then Some (JObj [], rest') else parse_fields fuel tail []
    | [] => None
    end.
Proof. reflexivity. Qed.

Lemma join_head (sep x : string) (l : list string) :
  exists more, Str.join sep (x :: l) = x +:+ more.
Proof.
  destruct l as [|y l]; [exists ""; by rewrite StrFacts.str_app_empty_r|].
  by exists (sep +:+ Str.join sep (y :: l)).
Qed.

(** [JSON.parse], with enough fuel, reads the text of a value back and
    leaves what follows it. *)
Lemma parse_value_stringify (j : json) :
  JsonKey.plain j = true ->
  forall fuel rest,
    (JsonKey.cost j <= fuel)%nat ->
    parse_value fuel (Str.chars (stringify j) ++ rest) = Some (j, rest).
Proof.
  induction j as [|b|n|s|items IH|fields IH] using json_ind_strong;
    intros Hp fuel rest Hfuel; (destruct fuel as [|fuel]; [cbn in Hfuel; lia|]).
  - reflexivity.
  - by destruct b.
  - done.
  - rewrite (chars_quote s : Str.chars (stringify (JStr s)) = _).
    cbn [app]. rewrite parse_value_string, <- app_assoc. cbn [app].
    rewrite parse_string_escape_all. cbn [rev app]. by rewrite StrFacts.of_chars_chars.
  - cbn [stringify]. rewrite !StrFacts.chars_app, <- !app_assoc.
    change (Str.chars "[" ++ ?l) with ("["%char :: l).
    change (Str.chars "]" ++ ?l) with ("]"%char :: l).
    rewrite parse_value_array.
    destruct items as [|v vs]; [reflexivity|].
    cbn [JsonKey.plain] in Hp. cbn [JsonKey.cost] in Hfuel.
    assert (exists c tail,
              skip_ws (Str.chars (Str.join "," (map stringify (v :: vs)))
                       ++ "]"%char :: rest) = c :: tail
              /\ (Str.code c =? 93) = false) as (c & tail & -> & ->).
    { cbn [map]. destruct (join_head "," (stringify v) (map stringify vs)) as [more ->].
      cbn [forallb] in Hp. apply andb_true_iff in Hp as [Hv _].
      destruct (stringify_head v Hv) as (c & tail & Hc & Hws & H93 & _).
      rewrite StrFacts.chars_app, Hc. cbn [app].
      rewrite skip_ws_head by done. by eexists _, _. }
    rewrite (parse_items_stringify (v :: vs)); [done | done | done | done | lia].
  - cbn [stringify]. rewrite !StrFacts.chars_app, <- !app_assoc.
    change (Str.chars "{" ++ ?l) with ("{"%char :: l).
    change (Str.chars "}" ++ ?l) with ("}"%char :: l).
    rewrite parse_value_object.
    destruct fields as [|[k v] fs]; [reflexivity|].
    cbn [JsonKey.plain] in Hp. cbn [JsonKey.cost] in Hfuel.
    apply andb_true_iff in Hp as [Hnd Hp]. apply bool_decide_eq_true in Hnd.
    assert (exists c tail,
              skip_ws (Str.chars (Str.join ","
                         (map (fun kv => quote (fst kv) +:+ ":" +:+ stringify (snd kv))
                              ((k, v) :: fs)))
                       ++ "}"%char :: rest) = c :: tail
              /\ (Str.code c =? 125) = false) as (c & tail & -> & ->).
    { cbn [map fst snd].
      destruct (join_head "," (quote k +:+ ":" +:+ stringify v)
                  (map (fun kv => quote (fst kv) +:+ ":" +:+ stringify (snd kv)) fs))
        as [more ->].
      rewrite !StrFacts.chars_app, chars_quote. cbn [app].
      rewrite skip_ws_head by reflexivity. by eexists _, _. }
    rewrite (parse_fields_stringify ((k, v) :: fs)); [done | done | done | done | done | lia].
Qed.

Lemma items_bound (items : list json) :
  Forall (fun v => (JsonKey.cost v <= 2 * length (Str.chars (stringify v)))%nat) items ->
  (length items + list_sum (map JsonKey.cost items)
   <= 2 * length (Str.chars (Str.join "," (map stringify items))) + 2)%nat.
Proof.
  induction items as [|v vs IH]; intros HP; [cbn; lia|].
  apply Forall_cons in HP as [Hv Hvs]. specialize (IH Hvs).
  destruct vs as [|v2 vs'].
  - cbn [map Str.join length list_sum fold_right]. lia.
  - cbn [map]. rewrite join_cons2, !StrFacts.chars_app, !length_app.
    change (length (Str.chars ",")) with 1%nat.
    cbn [map length list_sum fold_right] in *. lia.
Qed.

Lemma fields_bound (fields : list (string * json)) :
  Forall (fun kv => (JsonKey.cost (snd kv) <= 2 * length (Str.chars (stringify (snd kv))))%nat)
         fields ->
  (length fields + list_sum (map (fun kv => JsonKey.cost (snd kv)) fields)
   <= 2 * length (Str.chars (Str.join ","
            (map (fun kv => quote (fst kv) +:+ ":" +:+ stringify (snd kv)) fields))) + 2)%nat.
Proof.
  induction fields as [|[k v] fs IH]; intros HP; [cbn; lia|].
  apply Forall_cons in HP as [Hv Hvs]. specialize (IH Hvs). cbn [snd] in Hv.
  destruct fs as [|kv2 fs'].
  - cbn [map Str.join length list_sum fold_right fst snd].
    rewrite !StrFacts.chars_app, !length_app. lia.
  - cbn [map fst snd]. rewrite join_cons2, !StrFacts.chars_app, !length_app.
    change (length (Str.chars ",")) with 1%nat.
    cbn [map length list_sum fold_right] in *. lia.
Qed.

Lemma cost_bound (j : json) :
  JsonKey.plain j = true ->
  (JsonKey.cost j <= 2 * length (Str.chars (stringify j)))%nat.
Proof.
  induction j as [|b|n|s|items IH|fields IH] using json_ind_strong; intros Hp.
  - cbn. lia.
  - destruct b; cbn; lia.
  - done.
  - rewrite (chars_quote s : Str.chars (stringify (JStr s)) = _).
    cbn [length JsonKey.cost]. lia.
  - cbn [JsonKey.plain] in Hp. cbn [stringify JsonKey.cost].
    rewrite !StrFacts.chars_app, !length_app.
    assert (Forall (fun v => (JsonKey.cost v <= 2 * length (Str.chars (stringify v)))%nat)
              items) as Hall.
    { apply Forall_forall. intros v Hin. eapply Forall_forall in IH; [|exact Hin].
      apply IH. rewrite forallb_forall in Hp. by apply Hp, list_elem_of_In. }
    pose proof (items_bound items Hall). cbn [Str.chars list_ascii_of_string length]. lia.
  - cbn [JsonKey.plain] in Hp. apply andb_true_iff in Hp as [_ Hp].
    cbn [stringify JsonKey.cost].
    rewrite !StrFacts.chars_app, !length_app.
    assert (Forall (fun kv => (JsonKey.cost (snd kv)
                               <= 2 * length (Str.chars (stringify (snd kv))))%nat)
              fields) as Hall.
    { apply Forall_forall. intros kv Hin. eapply Forall_forall in IH; [|exact Hin].
      apply IH. rewrite forallb_forall in Hp. by apply Hp, list_elem_of_In. }
    pose proof (fields_bound fields Hall). cbn [Str.chars list_ascii_of_string length]. lia.
Qed.

(** [JSON.parse(JSON.stringify(value))] is [value]. *)
Lemma parse_stringify (j : json) :
  JsonKey.plain j = true -> parse (stringify j) = Some j.
Proof.
  intros Hp. unfold parse.
  rewrite <- (app_nil_r (Str.chars (stringify j))) at 2.
  rewrite (parse_value_stringify j Hp); [done|].
  pose proof (cost_bound j Hp). lia.
Qed.

(** Two values with the same text are the same value. *)
Lemma stringify_inj (j j' : json) :
  JsonKey.plain j = true -> JsonKey.plain j' = true ->
  stringify j = stringify j' -> j = j'.
Proof.
  intros Hp Hp' Heq. apply parse_stringify in Hp, Hp'. rewrite Heq in Hp. congruence.
Qed.

End JsonRoundTrip.

(** ** Cache keys *)

Module KeyFacts.

Lemma plain_command (command : list string) : JsonKey.plain (command_json command) = true.
Proof.
  unfold command_json. cbn [JsonKey.plain]. apply forallb_forall.
  intros j Hin. apply list_elem_of_In, list_elem_of_fmap in Hin as (s & -> & _). done.
Qed.

Lemma plain_key (commands : list (list string)) (hashes : list string) :
  JsonKey.plain (JArr ((command_json <$> commands) ++ (JStr <$> hashes))) = true.
Proof.
  cbn [JsonKey.plain]. apply forallb_forall. intros j Hin.
  apply list_elem_of_In, elem_of_app in Hin as [Hin|Hin];
    apply list_elem_of_fmap in Hin as (x & -> & _); [apply plain_command | done].
Qed.

(** Every key that a [keyFn] returns is an array of commands and hash
    records. *)
Lemma run_keyFn_plain (rec : list string -> string -> M unit) (t : Task) (w : World)
    (key : json) :
  fst (run_keyFn rec t w) = Ok key -> JsonKey.plain key = true.
Proof.
  unfold run_keyFn. destruct (kind t) as [targets prerequisites recipe
                                         |objFile depsFile deps objCommand depsCommand
                                         |exeFile deps linkCommand].
  - intros H. apply EngineFacts.bind_Ok_inv in H as (? & _ & H).
    apply EngineFacts.bind_Ok_inv in H as (hashes & _ & H).
    injection H as <-. apply plain_key.
  - intros H. apply EngineFacts.bind_Ok_inv in H as (? & _ & H).
    apply EngineFacts.bind_Ok_inv in H as (? & _ & H).
    apply EngineFacts.bind_Ok_inv in H as (? & _ & H).
    apply EngineFacts.bind_Ok_inv in H as (hashes & _ & H).
    injection H as <-. apply (plain_key [objCommand; depsCommand]).
  - intros H. apply EngineFacts.bind_Ok_inv in H as (? & _ & H).
    apply EngineFacts.bind_Ok_inv in H as (hashes & _ & H).
    injection H as <-. apply (plain_key [linkCommand]).
Qed.

End KeyFacts.

(** X14.  A task with a cached key is skipped exactly when its [keyFn]
    returns that key again: comparing the two [JSON.stringify] texts is
    comparing the keys, for a cached key without numbers and without an
    object that names a key twice (every key that a [keyFn] returns is
    one).  When the keys differ the task is called and the key that
    [keyFn] returns after the call is stored in [cachedKey]. *)
Theorem cache_hit_iff_same_key
    (exec : list string -> gmap string Node -> ChildResult * gmap string Node)
    (rec : list string -> string -> M unit) (ref : nat) (t : Task) (w : World)
    (cached key : json) :
  cachedKey t = Some cached ->
  keyFn t = true ->
  JsonKey.plain cached = true ->
  fst (run_keyFn rec t w) = Ok key ->
  let w1 := snd (run_keyFn rec t w) in
  (key = cached -> attempt exec rec ref t w = (Ok tt, w1))
  /\ (key <> cached ->
      attempt exec rec ref t w
      = (let* _ := run_task exec rec ref t in
         let* key' := run_keyFn rec t in
         update_task ref (set_cachedKey (Some key'))) w1).
Proof.
  intros Hc Hk Hplain Hkey w1.
  pose proof (KeyFacts.run_keyFn_plain rec t w key Hkey) as Hpk.
  unfold attempt. rewrite Hc, Hk. unfold bind at 1 2. unfold bind at 3 4.
  subst w1. destruct (run_keyFn rec t w) as [[key0|e|] w1]; cbn [fst snd] in *; try done.
  injection Hkey as ->. unfold ret.
  destruct (String.eqb_spec (Json.stringify key) (Json.stringify cached)) as [Heq|Hne].
  - apply JsonRoundTrip.stringify_inj in Heq; [|done..]. split; [done|]. by intros [].
  - split; [by intros ->|]. by intros _.
Qed.

Lemma cache_hit_iff_same_key_witness :
  exists t cached,
    store Demo.second_run !! 2%nat = Some t
    /\ cachedKey t = Some cached
    /\ attempt Demo.toy_exec (updateTargets Demo.toy_exec 5) 2 t Demo.second_run
       = (Ok tt, snd (run_keyFn (updateTargets Demo.toy_exec 5) t Demo.second_run)).
Proof.
  eexists _, _. split; [vm_compute; reflexivity|]. split; [reflexivity|].
  match goal with
  | |- attempt _ _ _ ?t _ = _ =>
      refine (proj1 (cache_hit_iff_same_key Demo.toy_exec (updateTargets Demo.toy_exec 5)
                       2 t Demo.second_run _ _ eq_refl eq_refl _ _) _)
  end.
  - vm_compute. reflexivity.
  - vm_compute. reflexivity.
  - reflexivity.
Defined.

(** ** The cache file from one run to the next *)

Module PersistFacts.

Lemma obj_get_pair {A} (k : string) (o : list (string * A)) (x : A) :
  Json.obj_get k o = Some x -> (k, x) ∈ o.
Proof.
  induction o as [|[k' v] o IH]; [done|]. cbn [Json.obj_get].
  destruct (String.eqb_spec k' k) as [->|_].
  - intros [= ->]. apply list_elem_of_here.
  - intros H. by apply list_elem_of_further, IH.
Qed.

Lemma obj_get_NoDup {A} (k : string) (o : list (string * A)) (x : A) :
  NoDup o.*1 -> (k, x) ∈ o -> Json.obj_get k o = Some x.
Proof.
  induction o as [|[k' v] o IH]; intros Hnd Hin; [by apply elem_of_nil in Hin|].
  rewrite fmap_cons in Hnd. apply NoDup_cons in Hnd as [Hnot Hnd].
  cbn [Json.obj_get]. apply elem_of_cons in Hin as [[= <- <-]|Hin].
  - by rewrite String.eqb_refl.
  - destruct (String.eqb_spec k' k) as [->|_]; [|by apply IH].
    destruct Hnot. apply list_elem_of_fmap. by exists (k, x).
Qed.

(** What [cached_entries] lists. *)
Lemma elem_of_cached_entries (w : World) (target : string) (key : json) :
  (target, key) ∈ cached_entries w
  <-> exists ref t, (target, ref) ∈ tasks w /\ store w !! ref = Some t
                    /\ cachedKey t = Some key.
Proof.
  unfold cached_entries. rewrite list_elem_of_omap. split.
  - intros ([target' ref] & Hin & H). cbn [fst snd] in H.
    destruct (store w !! ref) as [t|] eqn:Ht; [|done].
    destruct (cachedKey t) as [key'|] eqn:Hk; [|done]. injection H as -> ->.
    by exists ref, t.
  - intros (ref & t & Hin & Ht & Hk). exists (target, ref). split; [done|].
    cbn [fst snd]. by rewrite Ht, Hk.
Qed.

Lemma cached_entries_keys (w : World) :
  (cached_entries w).*1 `sublist_of` (tasks w).*1.
Proof.
  unfold cached_entries. induction (tasks w) as [|[target ref] regs IH]; [done|].
  cbn [omap list_omap fst snd]. rewrite fmap_cons.
  destruct (store w !! ref) as [t|]; [destruct (cachedKey t) as [key|]|].
  - rewrite fmap_cons. by apply sublist_skip.
  - by apply sublist_cons.
  - by apply sublist_cons.
Qed.

Lemma assign_cache_cons (target : string) (value : json) (es : list (string * json))
    (assigned removed : nat) (v : World) :
  assign_cache ((target, value) :: es) assigned removed v
  = match lookup_task v target with
    | Some ref =>
        assign_cache es (S assigned) removed
          (set_store (alter (set_cachedKey (Some value)) ref (store v)) v)
    | None => assign_cache es assigned (S removed) v
    end.
Proof.
  cbn [assign_cache]. unfold bind at 1. cbn [gets fst snd]. unfold id.
  by destruct (lookup_task v target).
Qed.

(** The loop of [maek.update] that assigns the keys of the cache file. *)
Lemma assign_cache_spec (es : list (string * json)) : forall assigned removed v,
  let r := assign_cache es assigned removed v in
  (exists counts, fst r = Ok counts)
  /\ tasks (snd r) = tasks v
  /\ trace (snd r) = trace v
  /\ (forall ref,
        Forall (fun e => lookup_task v (fst e) <> Some ref) es ->
        store (snd r) !! ref = store v !! ref)
  /\ (forall ref t',
        Exists (fun e => lookup_task v (fst e) = Some ref) es ->
        store (snd r) !! ref = Some t' ->
        Exists (fun e => lookup_task v (fst e) = Some ref /\ cachedKey t' = Some (snd e)) es).
Proof.
  induction es as [|[target value] es IH]; intros assigned removed v;
    [cbn [assign_cache]|rewrite assign_cache_cons].
  - split; [by eexists|]. split; [done|]. split; [done|]. split; [done|].
    intros ref t' H. by apply Exists_nil in H.
  - destruct (lookup_task v target) as [ref0|] eqn:Hl.
    + set (v1 := set_store (alter (set_cachedKey (Some value)) ref0 (store v)) v).
      assert (forall k, lookup_task v1 k = lookup_task v k) as Hsame by done.
      destruct (IH (S assigned) removed v1) as (Hok & Hts & Htr & Hkeep & Hset).
      cbv zeta in *.
      split; [done|]. split; [done|]. split; [done|]. split.
      * intros ref Hall. apply Forall_cons in Hall as [Hhead Hall]. cbn [fst] in Hhead.
        rewrite Hkeep.
        -- subst v1. cbn [store set_store]. rewrite list_lookup_alter_ne; [done|].
           intros ->. by apply Hhead.
        -- eapply Forall_impl; [exact Hall|]. intros e He. by rewrite Hsame.
      * intros ref t' Hex Ht'.
        destruct (decide (Exists (fun e => lookup_task v (fst e) = Some ref) es))
          as [Htail|Hnone].
        -- apply Exists_cons. right.
           eapply Exists_impl; [apply (Hset ref t'); [|done]|].
           ++ eapply Exists_impl; [exact Htail|]. intros e He. by rewrite Hsame.
           ++ intros e [He Hk]. by rewrite Hsame in He.
        -- apply Exists_cons in Hex as [Hhead|Htail]; [|done]. cbn [fst] in Hhead.
           apply Exists_cons. left. cbn [fst snd]. split; [done|].
           assert (ref0 = ref) as -> by congruence.
           rewrite Hkeep in Ht'.
           ++ subst v1. cbn [store set_store] in Ht'. rewrite list_lookup_alter_eq in Ht'.
              destruct (store v !! ref) as [t0|]; [|done]. by injection Ht' as <-.
           ++ apply not_Exists_Forall in Hnone; [|intros e; apply _].
              eapply Forall_impl; [exact Hnone|]. intros e He. by rewrite Hsame.
    + destruct (IH assigned (S removed) v) as (Hok & Hts & Htr & Hkeep & Hset).
      cbv zeta in *.
      split; [done|]. split; [done|]. split; [done|]. split.
      * intros ref Hall. apply Forall_cons in Hall as [_ Hall]. by apply Hkeep.
      * intros ref t' Hex Ht'. apply Exists_cons in Hex as [Hhead|Htail].
        -- cbn [fst] in Hhead. congruence.
        -- apply Exists_cons. right. by apply Hset.
Qed.

End PersistFacts.

(** X15.  What one run of [maek.update] stores in the cache file, the
    next run loads: when the file is the one that the end of
    [maek.update] wrote in a world [w], and the next process registers the
    same targets, then after the cached keys are cleared and loaded the
    task of every target has the [cachedKey] it had in [w], and no
    [cachedKey] if it had none.  (Every target is registered once, and
    the cached keys are keys as [keyFn] returns them.) *)
Theorem cache_survives_restart (targets : list string) (w v : World) :
  NoDup (tasks w).*1 ->
  forallb (fun t => match cachedKey t with
                    | Some key => JsonKey.plain key
                    | None => true
                    end) (store w) = true ->
  files w !! CACHE_FILE <> Some Dir ->
  tasks v = tasks w ->
  length (store v) = length (store w) ->
  files v !! CACHE_FILE = files (snd (store_cache w)) !! CACHE_FILE ->
  let v' := snd (prepare targets v) in
  forall target ref t,
    lookup_task w target = Some ref ->
    store w !! ref = Some t ->
    exists t', store v' !! ref = Some t' /\ cachedKey t' = cachedKey t.
Proof.
  intros Hnd Hplain Hdir Hts Hlen Hfile.
  (* the file *)
  destruct (store_cache_writes w Hdir) as (w' & Hstore & Hw' & _).
  rewrite Hstore in Hfile. cbn [snd] in Hfile. rewrite Hw' in Hfile.
  rewrite (DriverFacts.collect_cache_entries w Hnd) in Hfile.
  assert (JsonKey.plain (JObj (cached_entries w)) = true) as Hobj.
  { cbn [JsonKey.plain]. apply andb_true_iff. split.
    - apply bool_decide_eq_true. eapply sublist_NoDup; [exact Hnd | apply PersistFacts.cached_entries_keys].
    - apply forallb_forall. intros [target key] Hin. cbn [snd].
      apply list_elem_of_In, PersistFacts.elem_of_cached_entries in Hin
        as (ref & t & _ & Ht & Hk).
      rewrite forallb_forall in Hplain.
      specialize (Hplain t). rewrite Hk in Hplain. apply Hplain.
      apply list_elem_of_In. by eapply list_elem_of_lookup_2. }
  (* the banner and the loop that clears the keys *)
  pose (v0 := set_trace (trace v
                ++ [ConsoleLog ("Maek v0.0 on " +:+ os_name (OS v) +:+ " with "
                                +:+ Str.of_Z (Z.of_nat (JOBS v)) +:+ " max jobs updating "
                                +:+ quoted_list targets +:+ "...")]) v).
  destruct (ClearFacts.clear_loop (tasks v0) v0) as (Hok & _ & Hfs & Hts2 & Hst).
  cbv zeta in *.
  assert (exists v2,
            for_each (tasks v0) (fun entry => update_task (snd entry) (set_cachedKey None)) v0
            = (Ok tt, v2)) as (v2 & Hloop).
  { destruct (for_each (tasks v0) _ v0) as [[[]|e|] v2]; cbn [fst] in Hok; try done.
    by exists v2. }
  rewrite Hloop in Hfs, Hts2, Hst. cbn [snd] in Hfs, Hts2, Hst.
  assert (prepare targets v = load_cache v2) as ->.
  { unfold prepare, banner, clear_cachedKeys, bind, gets, emit, modify. cbn [fst snd].
    unfold id. change (set_trace _ v) with v0. by rewrite Hloop. }
  assert (tasks v2 = tasks w) as Hts3 by (by rewrite Hts2).
  assert (forall k, lookup_task v2 k = lookup_task w k) as Hlook
    by (intros k; unfold lookup_task; by rewrite Hts3).
  (* the loop that assigns the keys *)
  destruct (PersistFacts.assign_cache_spec (cached_entries w) 0 0 v2)
    as ([counts Hcounts] & _ & _ & Hkeep & Hset).
  cbv zeta in *.
  assert (store (snd (load_cache v2))
          = store (snd (assign_cache (cached_entries w) 0 0 v2))) as Hload.
  { unfold load_cache, bind at 1, gets. cbn [fst snd].
    rewrite Hfs. change (files v0) with (files v). rewrite Hfile.
    rewrite (JsonRoundTrip.parse_stringify _ Hobj). cbn [entries].
    unfold bind.
    by destruct (assign_cache (cached_entries w) 0 0 v2) as [[c|e|] v3]. }
  intros target ref t Hl Ht. rewrite Hload.
  assert (length (store (snd (assign_cache (cached_entries w) 0 0 v2))) = length (store w))
    as Hlen3.
  { pose proof (PrepareFacts.growing_assign_cache (cached_entries w) 0 0 v2)
      as (_ & _ & Hsk).
    assert (growing (for_each (tasks v0)
                       (fun entry => update_task (snd entry) (set_cachedKey None)))) as Hg.
    { apply GrowFacts.growing_for_each. intros x. by apply GrowFacts.growing_update_task. }
    destruct (Hg v0) as (_ & _ & Hsk0).
    rewrite Hloop in Hsk0. cbn [snd] in Hsk0.
    unfold skeleton in Hsk, Hsk0. injection Hsk as _ Hsk. injection Hsk0 as _ Hsk0.
    apply (f_equal length) in Hsk, Hsk0. rewrite !length_fmap in Hsk, Hsk0.
    change (store v0) with (store v) in Hsk0. lia. }
  destruct (lookup_lt_is_Some_2 (store (snd (assign_cache (cached_entries w) 0 0 v2))) ref)
    as [t' Ht'].
  { rewrite Hlen3. by eapply lookup_lt_Some. }
  exists t'. split; [done|].
  assert ((target, ref) ∈ tasks w) as Hreg by by apply PersistFacts.obj_get_pair.
  assert (forall e, e ∈ cached_entries w -> lookup_task v2 (fst e) = Some ref ->
                    cachedKey t = Some (snd e)) as Hentry.
  { intros [target' key'] Hin Hl'. cbn [fst snd] in *.
    apply PersistFacts.elem_of_cached_entries in Hin as (ref' & t0 & Hin & Ht0 & Hk).
    rewrite Hlook in Hl'.
    apply (PersistFacts.obj_get_NoDup _ _ _ Hnd) in Hin.
    unfold lookup_task in Hl'. congruence. }
  destruct (cachedKey t) as [key|] eqn:Hk.
  - assert (Exists (fun e => lookup_task v2 (fst e) = Some ref) (cached_entries w)) as Hex.
    { apply Exists_exists. exists (target, key). split; [|by rewrite Hlook].
      apply PersistFacts.elem_of_cached_entries. by exists ref, t. }
    specialize (Hset ref t' Hex Ht').
    apply Exists_exists in Hset as (e & Hin & Hl' & ->).
    symmetry. by apply Hentry.
  - rewrite Hkeep in Ht'.
    + destruct (Hst ref t' Ht') as (Hnone & _). apply Hnone.
      change (tasks v0) with (tasks v). rewrite Hts.
      apply list_elem_of_fmap. by exists (target, ref).
    + apply Forall_forall. intros e Hin Hl'. by specialize (Hentry e Hin Hl').
Qed.

Lemma cache_survives_restart_witness :
  exists t t',
    store (snd (updateTargets Demo.toy_exec 10 ["dist/game"] "user"
                  (snd (prepare ["dist/game"] (Demo.start Demo.sources))))) !! 2%nat
    = Some t
    /\ is_Some (cachedKey t)
    /\ store (snd (prepare ["dist/game"]
                     (Demo.restart
                        (snd (store_cache
                                (snd (updateTargets Demo.toy_exec 10 ["dist/game"] "user"
                                        (snd (prepare ["dist/game"]
                                                (Demo.start Demo.sources))))))))))
         !! 2%nat = Some t'
    /\ cachedKey t' = cachedKey t.
Proof.
  pose (w := snd (updateTargets Demo.toy_exec 10 ["dist/game"] "user"
                    (snd (prepare ["dist/game"] (Demo.start Demo.sources))))).
  assert (exists t, store w !! 2%nat = Some t /\ is_Some (cachedKey t)) as (t & Ht & Hk).
  { eexists. split; [vm_compute; reflexivity|]. by eexists. }
  destruct (cache_survives_restart ["dist/game"] w (Demo.restart (snd (store_cache w))))
    with (target := "dist/game") (ref := 2%nat) (t := t) as (t' & Ht' & Hk').
  - apply (bool_decide_unpack _). vm_compute. exact I.
  - vm_compute. reflexivity.
  - vm_compute. discriminate.
  - vm_compute. reflexivity.
  - vm_compute. reflexivity.
  - vm_compute. reflexivity.
  - vm_compute. reflexivity.
  - exact Ht.
  - exists t, t'. by repeat split.
Defined.

(** ** [update-Maekfile.js] *)

Module SplitFacts.
Import UpdateMaekfile.

(** Every piece but the last ends at an occurrence of the separator, and
    the occurrences do not overlap. *)
Lemma split_go_pieces (sep : list ascii) (s : list ascii) : forall skip cur,
  (skip <= length s)%nat ->
  exists m,
    length (split_go sep s skip cur) = S m
    /\ (m * length sep + skip <= length s)%nat.
Proof.
  induction s as [|c rest IH]; intros skip cur Hskip; cbn [split_go].
  - exists 0%nat. split; [done|]. cbn [length] in *. lia.
  - destruct skip as [|n].
    + case_bool_decide as Hpre.
      * apply prefix_length in Hpre. cbn [length] in Hpre.
        destruct (IH (length sep - 1)%nat []) as (m & Hlen & Hm); [lia|].
        exists (S m). cbn [length]. rewrite Hlen. split; [done|].
        destruct (length sep) as [|l]; lia.
      * destruct (IH 0%nat (c :: cur)) as (m & Hlen & Hm); [lia|].
        exists m. split; [done|]. cbn [length]. lia.
    + cbn [length] in Hskip. destruct (IH n cur) as (m & Hlen & Hm); [lia|].
      exists m. split; [done|]. cbn [length]. lia.
Qed.

Lemma split_three_long (text : string) :
  length (split text divider) = 3%nat -> (146 <= length (Str.chars text))%nat.
Proof.
  unfold split. intros H3.
  destruct (split_go_pieces (Str.chars divider) (Str.chars text) 0 []) as (m & Hlen & Hm);
    [lia|].
  rewrite H3 in Hlen. injection Hlen as <-.
  change (length (Str.chars divider)) with 73%nat in Hm. lia.
Qed.

Lemma char_at_length (text : string) (i : nat) :
  (i < length (Str.chars text))%nat -> String.length (char_at text i) = 1%nat.
Proof.
  intros Hi. unfold char_at.
  destruct (lookup_lt_is_Some_2 (Str.chars text) i Hi) as [c ->]. done.
Qed.

Lemma char_at_bound (text : string) (i : nat) : (String.length (char_at text i) <= 9)%nat.
Proof. unfold char_at. destruct (Str.chars text !! i); cbn; lia. Qed.

Lemma str_length_app (s t : string) :
  String.length (s +:+ t) = (String.length s + String.length t)%nat.
Proof.
  induction s as [|c s IH]; [done|].
  change (S (String.length (s +:+ t)) = S (String.length s + String.length t)).
  by rewrite IH.
Qed.

(** The start of the script: the message and the two reads. *)
Lemma read_both (message sourceFile targetFile : string) (w : World) :
  (let* _ := emit (ConsoleLog message) in
   let* sourceText := readFileSync sourceFile in
   let* targetText := readFileSync targetFile in
   ret (sourceText, targetText)) w
  = let w1 := set_trace (trace w ++ [ConsoleLog message]) w in
    match files w !! sourceFile with
    | Some (File sourceText) =>
        match files w !! targetFile with
        | Some (File targetText) => (Ok (sourceText, targetText), w1)
        | Some Dir => (Throw (Error "EISDIR: illegal operation on a directory, read"), w1)
        | None =>
            (Throw (Error ("ENOENT: no such file or directory, open '" +:+ targetFile
                           +:+ "'")), w1)
        end
    | Some Dir => (Throw (Error "EISDIR: illegal operation on a directory, read"), w1)
    | None =>
        (Throw (Error ("ENOENT: no such file or directory, open '" +:+ sourceFile +:+ "'")),
         w1)
    end.
Proof.
  unfold bind, emit, modify, readFileSync, bind, gets, ret, throw.
  cbn [fst snd files set_trace].
  destruct (files w !! sourceFile) as [[sourceText|]|]; cbn [fst snd files set_trace];
    [|reflexivity..].
  destruct (files w !! targetFile) as [[targetText|]|]; reflexivity.
Qed.

End SplitFacts.

(** X16.  When [update-Maekfile.js] comes to its end, the target file
    holds the first character of the source [Maekfile.js], the divider,
    the second character of the old target (or [undefined]), the divider
    and the third character of the source: 157 characters at most, and
    nothing else of either file.  In every other case (wrong arguments, a
    file that cannot be read, a source without exactly two dividers) no
    file is changed. *)
Theorem update_Maekfile_result (dirname : string) (argv : list string) (w : World) :
  let r := UpdateMaekfile.main dirname argv w in
  match fst r with
  | Finished =>
      exists program script targetFile sourceText targetText,
        argv = [program; script; targetFile]
        /\ files w !! (dirname +:+ "/Maekfile.js") = Some (File sourceText)
        /\ files w !! targetFile = Some (File targetText)
        /\ length (UpdateMaekfile.split sourceText UpdateMaekfile.divider) = 3%nat
        /\ let finalText :=
             UpdateMaekfile.char_at sourceText 0 +:+ UpdateMaekfile.divider
             +:+ UpdateMaekfile.char_at targetText 1 +:+ UpdateMaekfile.divider
             +:+ UpdateMaekfile.char_at sourceText 2 in
           files (snd r) = <[targetFile := File finalText]> (files w)
           /\ (String.length finalText <= 157)%nat
  | _ => files (snd r) = files w
  end.
Proof.
  intros r. subst r. unfold UpdateMaekfile.main.
  destruct argv as [|program [|script [|targetFile [|extra argv]]]]; try done.
  rewrite SplitFacts.read_both. cbv zeta.
  destruct (files w !! (dirname +:+ "/Maekfile.js")) as [[sourceText|]|] eqn:Hs; try done.
  destruct (files w !! targetFile) as [[targetText|]|] eqn:Ht; try done.
  destruct (length (UpdateMaekfile.split sourceText UpdateMaekfile.divider) =? 3)%nat
    eqn:H3; cbn [negb]; [|done].
  apply Nat.eqb_eq in H3.
  unfold writeFileSync, bind, gets, emit, modify, settle. cbn [fst snd files set_trace].
  rewrite Ht. cbn [fst snd files set_trace set_files].
  exists program, script, targetFile, sourceText, targetText.
  repeat split; try done.
  pose proof (SplitFacts.split_three_long sourceText H3) as Hlong.
  rewrite !SplitFacts.str_length_app.
  rewrite (SplitFacts.char_at_length sourceText 0), (SplitFacts.char_at_length sourceText 2)
    by lia.
  pose proof (SplitFacts.char_at_bound targetText 1).
  change (String.length UpdateMaekfile.divider) with 73%nat. lia.
Qed.

(** X17.  [update-Maekfile.js] never says that the target lacks its two
    dividers, whatever the target holds: the second test of the script
    looks at the text of the source again. *)
Theorem update_Maekfile_never_checks_target (dirname : string) (argv : list string)
    (w : World) :
  exists evs,
    trace (snd (UpdateMaekfile.main dirname argv w)) = trace w ++ evs
    /\ ConsoleError "Target Maekfile.js doesn't have exactly two '='*72 division comments."
       ∉ evs.
Proof.
  unfold UpdateMaekfile.main.
  assert (forall evs : list Event,
            Forall (fun e => e <> ConsoleError
               "Target Maekfile.js doesn't have exactly two '='*72 division comments.") evs ->
            ConsoleError
              "Target Maekfile.js doesn't have exactly two '='*72 division comments." ∉ evs)
    as Hnot.
  { intros evs Hall Hin. eapply Forall_forall in Hall; [|exact Hin]. done. }
  destruct argv as [|program [|script [|targetFile [|extra argv]]]];
    try (eexists; split; [unfold UpdateMaekfile.exit_with, bind, emit, modify; cbn;
                          rewrite <- app_assoc; reflexivity|];
         apply Hnot; by repeat constructor).
  rewrite SplitFacts.read_both. cbv zeta.
  destruct (files w !! (dirname +:+ "/Maekfile.js")) as [[sourceText|]|] eqn:Hs;
    try (eexists; split; [cbn; reflexivity|]; apply Hnot; by repeat constructor).
  destruct (files w !! targetFile) as [[targetText|]|] eqn:Ht;
    try (eexists; split; [cbn; reflexivity|]; apply Hnot; by repeat constructor).
  destruct (length (UpdateMaekfile.split sourceText UpdateMaekfile.divider) =? 3)%nat
    eqn:H3; cbn [negb].
  - unfold writeFileSync, bind, gets, emit, modify, settle. cbn [fst snd files set_trace].
    rewrite Ht. cbn [fst snd files set_trace set_files trace].
    eexists. split; [rewrite <- !app_assoc; reflexivity|].
    apply Hnot. by repeat constructor.
  - eexists; split; [unfold UpdateMaekfile.exit_with, bind, emit, modify; cbn;
                     rewrite <- !app_assoc; reflexivity|].
    apply Hnot. by repeat constructor.
Qed.

(** ** Running commands *)

Module CommandFacts.

Section WithExec.

Variable exec : list string -> gmap string Node -> ChildResult * gmap string Node.

(** [runCommand] returns or throws a [BuildError]. *)
Lemma runCommand_outcome (command : list string) (message : string) (w : World) :
  match fst (runCommand exec command message w) with
  | Ok _ => fst (exec command (files w)) = Exited (Some 0)
  | Throw (BuildError _) => fst (exec command (files w)) <> Exited (Some 0)
  | _ => False
  end.
Proof.
  unfold runCommand, bind, emit, modify, gets. cbn [fst snd files set_trace].
  destruct (exec command (files w)) as [[[[|p|p]|]|msg] fs']; cbn [fst snd]; done.
Qed.

End WithExec.

Lemma join_empty_cons (x : string) (l : list string) :
  Str.join "" (x :: l) = x +:+ Str.join "" l.
Proof. destruct l as [|y l]; [by rewrite StrFacts.str_app_empty_r | done]. Qed.

Lemma join_space {A} (g : A -> string) (l : list A) : forall first,
  Str.join " " (first :: (g <$> l))
  = first +:+ Str.join "" ((fun x => " " +:+ g x) <$> l).
Proof.
  induction l as [|x l IH]; intros first.
  - cbn. by rewrite StrFacts.str_app_empty_r.
  - rewrite !fmap_cons, join_empty_cons, JsonRoundTrip.join_cons2, IH.
    by rewrite !StrFacts.str_app_assoc.
Qed.

(** How the tokens after the first are printed. *)
Lemma prettyCommand_fold (command : list string) : forall pretty,
  pretty <> "" ->
  Forall (fun token => token <> "") command ->
  fold_left
    (fun pretty token =>
       let pretty := if String.eqb pretty "" then pretty else pretty +:+ " " in
       if needs_quote token
       then pretty +:+ "'" +:+ escape_quotes token +:+ "'"
       else pretty +:+ token)
    command pretty
  = pretty +:+ Str.join ""
      ((fun token => " " +:+ (if needs_quote token
                              then "'" +:+ escape_quotes token +:+ "'" else token))
         <$> command).
Proof.
  induction command as [|token command IH]; intros pretty Hne Hall; cbn [fold_left fmap list_fmap].
  - by rewrite StrFacts.str_app_empty_r.
  - apply Forall_cons in Hall as [Htok Hall].
    destruct (String.eqb_spec pretty "") as [->|_]; [done|].
    rewrite join_empty_cons.
    destruct (needs_quote token).
    + rewrite IH; [|by destruct pretty|done].
      by rewrite !StrFacts.str_app_assoc.
    + rewrite IH; [|by destruct pretty|done].
      by rewrite !StrFacts.str_app_assoc.
Qed.

End CommandFacts.


(** X19.  For a command without an empty token, the line that
    [runCommand] prints is its tokens separated by single spaces, a token
    with a special character or that starts with [=] or [#] between
    single quotes, with [\'] between closing and opening quotes for every
    single quote in it, and every other token as it is. *)
Theorem prettyCommand_tokens (command : list string) :
  Forall (fun token => token <> "") command ->
  prettyCommand command
  = Str.join " "
      ((fun token => if needs_quote token
                     then "'" +:+ escape_quotes token +:+ "'" else token)
         <$> command).
Proof.
  intros Hall. unfold prettyCommand. destruct command as [|token command]; [done|].
  apply Forall_cons in Hall as [Htok Hall]. cbn [fold_left fmap list_fmap].
  change (String.eqb "" "") with true. cbv iota.
  rewrite (CommandFacts.join_space
             (fun token => if needs_quote token
                           then "'" +:+ escape_quotes token +:+ "'" else token)).
  destruct (needs_quote token).
  - by rewrite CommandFacts.prettyCommand_fold.
  - rewrite CommandFacts.prettyCommand_fold; [done | by destruct token | done].
Qed.

Lemma prettyCommand_tokens_witness :
  prettyCommand ["g++"; "-DNAME='a b'"; "-o"; "dist/game"; "#x"]
  = Str.join " " ["g++"; "'-DNAME='\''a b'\'''"; "-o"; "dist/game"; "'#x'"].
Proof.
  rewrite prettyCommand_tokens; [reflexivity|].
  repeat (constructor; [discriminate|]). constructor.
Defined.
Module KeyShapeFacts.

Lemma command_json_inj (c c' : list string) : command_json c = command_json c' -> c = c'.
Proof.
  unfold command_json. intros [= H]. revert c' H.
  induction c as [|x c IH]; intros [|x' c'] H; try done.
  rewrite !fmap_cons in H. injection H as -> H. f_equal. by apply IH.
Qed.

(** A key is split in one way only into commands and hash records. *)
Lemma key_parts (commands commands' : list (list string)) (hashes hashes' : list string) :
  (command_json <$> commands) ++ (JStr <$> hashes)
  = (command_json <$> commands') ++ (JStr <$> hashes') ->
  commands = commands' /\ hashes = hashes'.
Proof.
  revert commands'. induction commands as [|c commands IH]; intros [|c' commands'] H.
  - split; [done|]. cbn [fmap list_fmap app] in H.
    revert hashes' H. induction hashes as [|h hashes IHh]; intros [|h' hashes'] H; try done.
    rewrite !fmap_cons in H. injection H as -> H. f_equal. by apply IHh.
  - rewrite fmap_cons in H. cbn [fmap list_fmap app] in H. by destruct hashes.
  - rewrite fmap_cons in H. cbn [fmap list_fmap app] in H. by destruct hashes'.
  - rewrite !fmap_cons in H. cbn [app] in H. injection H as Hc H.
    assert (c = c') as -> by (apply command_json_inj; unfold command_json; by rewrite Hc).
    destruct (IH commands' H) as [-> ->]. done.
Qed.

(** The key of a task lists its commands, then hash records. *)
Lemma run_keyFn_shape (rec : list string -> string -> M unit) (t : Task) (w : World)
    (key : json) :
  fst (run_keyFn rec t w) = Ok key ->
  exists hashes,
    key = JArr ((command_json <$> commands_of (kind t)) ++ (JStr <$> hashes)).
Proof.
  unfold run_keyFn. destruct (kind t) as [targets prerequisites recipe
                                         |objFile depsFile deps objCommand depsCommand
                                         |exeFile deps linkCommand]; cbn [commands_of].
  - intros H. apply EngineFacts.bind_Ok_inv in H as (? & _ & H).
    apply EngineFacts.bind_Ok_inv in H as (hashes & _ & H).
    injection H as <-. by exists hashes.
  - intros H. apply EngineFacts.bind_Ok_inv in H as (? & _ & H).
    apply EngineFacts.bind_Ok_inv in H as (? & _ & H).
    apply EngineFacts.bind_Ok_inv in H as (? & _ & H).
    apply EngineFacts.bind_Ok_inv in H as (hashes & _ & H).
    injection H as <-. by exists hashes.
  - intros H. apply EngineFacts.bind_Ok_inv in H as (? & _ & H).
    apply EngineFacts.bind_Ok_inv in H as (hashes & _ & H).
    injection H as <-. by exists hashes.
Qed.

End KeyShapeFacts.

(** X20.  Changing a command of a task makes the task run again: when the
    cached key of a task was returned by the [keyFn] of a task with other
    commands (the same rule before its recipe, its compiler flags or its
    libraries were edited, say), the key that [keyFn] returns now differs
    from it, whatever the files hold, so the task is called and its new
    key is stored. *)
Theorem changed_command_reruns
    (exec : list string -> gmap string Node -> ChildResult * gmap string Node)
    (rec rec0 : list string -> string -> M unit) (ref : nat) (t t0 : Task) (w w0 : World)
    (cached key : json) :
  cachedKey t = Some cached ->
  keyFn t = true ->
  fst (run_keyFn rec0 t0 w0) = Ok cached ->
  commands_of (kind t0) <> commands_of (kind t) ->
  fst (run_keyFn rec t w) = Ok key ->
  key <> cached
  /\ attempt exec rec ref t w
     = (let* _ := run_task exec rec ref t in
        let* key' := run_keyFn rec t in
        update_task ref (set_cachedKey (Some key'))) (snd (run_keyFn rec t w)).
Proof.
  intros Hc Hk Hcached Hcmd Hkey.
  assert (key <> cached) as Hne.
  { destruct (KeyShapeFacts.run_keyFn_shape rec t w key Hkey) as [hashes ->].
    destruct (KeyShapeFacts.run_keyFn_shape rec0 t0 w0 cached Hcached) as [hashes0 ->].
    intros [= H]. apply KeyShapeFacts.key_parts in H as [H _]. by apply Hcmd. }
  split; [done|].
  pose proof (KeyFacts.run_keyFn_plain rec t w key Hkey) as Hpk.
  pose proof (KeyFacts.run_keyFn_plain rec0 t0 w0 cached Hcached) as Hpc.
  unfold attempt. rewrite Hc, Hk. unfold bind at 1 2.
  destruct (run_keyFn rec t w) as [[key0|e|] w1]; cbn [fst snd] in *; try done.
  injection Hkey as ->. unfold ret.
  destruct (String.eqb_spec (Json.stringify key) (Json.stringify cached)) as [Heq|_]; [|done].
  by apply JsonRoundTrip.stringify_inj in Heq.
Qed.

Lemma changed_command_reruns_witness :
  JArr [command_json ["g++"; "-o"; "app"; "-lm"]; JStr "app:x"]
  <> JArr [command_json ["g++"; "-o"; "app"]; JStr "app:x"].
Proof.
  refine (proj1 (changed_command_reruns Demo.toy_exec
                   (updateTargets Demo.toy_exec 1) (updateTargets Demo.toy_exec 1) 0
                   (mkTask (Link "app" [] ["g++"; "-o"; "app"; "-lm"]) "LINK '' -> 'app'" true
                           (Some (JArr [command_json ["g++"; "-o"; "app"]; JStr "app:x"]))
                           None None)
                   (mkTask (Link "app" [] ["g++"; "-o"; "app"]) "LINK '' -> 'app'" true
                           None None None)
                   (init_maek linux 1 ∅) (init_maek linux 1 ∅) _ _ eq_refl eq_refl _ _ _)).
  - vm_compute. reflexivity.
  - cbn. discriminate.
  - vm_compute. reflexivity.
Defined.
Module CountFacts.

Lemma assign_cache_counts (es : list (string * json)) : forall assigned removed v,
  fst (assign_cache es assigned removed v)
  = Ok ((assigned + length (filter (fun e => is_Some (Json.obj_get (fst e) (tasks v))) es))%nat,
        (removed
         + length (filter (fun e => ¬ is_Some (Json.obj_get (fst e) (tasks v))) es))%nat).
Proof.
  induction es as [|[target value] es IH]; intros assigned removed v.
  - cbn. by rewrite !Nat.add_0_r.
  - rewrite PersistFacts.assign_cache_cons. rewrite !filter_cons. cbn [fst].
    unfold lookup_task.
    destruct (Json.obj_get target (tasks v)) as [ref|] eqn:Hl.
    + rewrite IH. cbn [tasks set_store]. rewrite decide_True by done.
      rewrite decide_False by (intros H; apply H; done).
      cbn [length]. do 2 f_equal; lia.
    + rewrite IH. rewrite decide_False by (by intros [? ?]).
      rewrite decide_True by (by intros [? ?]).
      cbn [length]. do 2 f_equal; lia.
Qed.

End CountFacts.



(** ** What the engine adds to the trace *)

Module TraceFacts.

Section Tracing.

(** A property of lists of events that holds of the empty list and of the
    concatenation of two lists that have it. *)
Variable P : list Event -> Prop.
Hypothesis P_nil : P [].
Hypothesis P_app : forall evs evs', P evs -> P evs' -> P (evs ++ evs').
Hypothesis P_other : forall e, (forall command, e <> Spawn command) -> P [e].
Hypothesis P_run : forall message command,
  P [ConsoleLog message; ConsoleLog ("   " +:+ prettyCommand command); Spawn command].

Lemma tracing_same {A} (m : M A) :
  (forall w, trace (snd (m w)) = trace w) -> tracing P m.
Proof. intros Hm w. exists []. by rewrite app_nil_r. Qed.

Lemma tracing_ret {A} (a : A) : tracing P (ret a).
Proof. by apply tracing_same. Qed.

Lemma tracing_throw {A} (e : Err) : tracing P (throw (A := A) e).
Proof. by apply tracing_same. Qed.

Lemma tracing_gets {A} (f : World -> A) : tracing P (gets f).
Proof. by apply tracing_same. Qed.

Lemma tracing_diverge {A} : tracing P (fun w => (Diverge (A := A), w)).
Proof. by apply tracing_same. Qed.

Lemma tracing_bind {A B} (m : M A) (k : A -> M B) :
  tracing P m -> (forall a, tracing P (k a)) -> tracing P (bind m k).
Proof.
  intros Hm Hk w. unfold bind. destruct (Hm w) as (evs & Htr & Hevs).
  destruct (m w) as [[a|e|] w1]; cbn [fst snd] in *; [|by exists evs..].
  destruct (Hk a w1) as (evs' & Htr' & Hevs').
  exists (evs ++ evs'). split; [by rewrite Htr', Htr, <- app_assoc | by apply P_app].
Qed.

Lemma tracing_emit (e : Event) : (forall command, e <> Spawn command) -> tracing P (emit e).
Proof. intros He w. exists [e]. split; [done | by apply P_other]. Qed.

Lemma tracing_for_each {A} (l : list A) (body : A -> M unit) :
  (forall x, tracing P (body x)) -> tracing P (for_each l body).
Proof.
  intros Hbody. induction l as [|x l IH]; cbn [for_each].
  - apply tracing_ret.
  - apply tracing_bind; [apply Hbody | intros ?; apply IH].
Qed.

Lemma tracing_update_task (ref : nat) (f : Task -> Task) : tracing P (update_task ref f).
Proof. by apply tracing_same. Qed.

Lemma tracing_get_task (ref : nat) : tracing P (get_task ref).
Proof. apply tracing_same. intros w. unfold get_task. by destruct (store w !! ref). Qed.

Lemma tracing_delete_hash (file : string) : tracing P (delete_hash file).
Proof.
  apply tracing_bind; [by apply tracing_emit|]. intros ?. by apply tracing_same.
Qed.

Lemma tracing_hashFiles (targets : list string) : tracing P (hashFiles targets).
Proof.
  apply tracing_same. intros w.
  destruct (HashFilesFacts.hashFiles_records targets w) as (c & -> & _). done.
Qed.

Lemma tracing_console_assert (cond : bool) : tracing P (console_assert cond).
Proof. destruct cond; [apply tracing_ret | by apply tracing_emit]. Qed.

Lemma tracing_loadDeps (depsFile : string) (deps : list string) :
  tracing P (loadDeps depsFile deps).
Proof.
  apply tracing_bind; [apply tracing_gets|]. intros fs.
  destruct (fs !! depsFile) as [[text|]|]; try apply tracing_ret.
  apply tracing_bind; [apply tracing_console_assert|]. intros ?.
  apply tracing_bind; [apply tracing_console_assert|]. intros ?. apply tracing_ret.
Qed.

Lemma tracing_assertNontargets (prerequisites : list string) (ruleName : string) :
  tracing P (assertNontargets prerequisites ruleName).
Proof.
  apply tracing_same. intros w. by rewrite EffectFacts.assertNontargets_effect.
Qed.

Lemma tracing_mkdir (dir : string) : tracing P (mkdir dir).
Proof.
  apply tracing_bind; [by apply tracing_emit|]. intros ?.
  apply tracing_bind; [apply tracing_gets|]. intros fs.
  destruct (fs !! dir) as [[data|]|]; first [apply tracing_throw | by apply tracing_same].
Qed.

Lemma tracing_check_exists (target requester : string) :
  tracing P (check_exists target requester).
Proof.
  apply tracing_bind; [apply tracing_gets|]. intros fs.
  destruct (fs !! target); [apply tracing_ret | apply tracing_throw].
Qed.

Lemma tracing_promise (m : M unit) : tracing P m -> tracing P (promise m).
Proof.
  intros Hm w. unfold promise. destruct (Hm w) as (evs & Htr & Hevs).
  destruct (m w) as [[[]|e|] w1]; cbn [fst snd] in *; by exists evs.
Qed.

Lemma tracing_await_all (handles : list nat) : tracing P (await_all handles).
Proof.
  apply tracing_same. intros w. by rewrite ResolverFacts.await_all_world.
Qed.

Section WithExec.

Variable exec : list string -> gmap string Node -> ChildResult * gmap string Node.

Lemma tracing_runCommand (command : list string) (message : string) :
  tracing P (runCommand exec command message).
Proof.
  intros w. exists [ConsoleLog message; ConsoleLog ("   " +:+ prettyCommand command);
                    Spawn command].
  split; [|apply P_run].
  unfold runCommand, bind, emit, modify, gets. cbn [fst snd files set_trace trace].
  destruct (exec command (files w)) as [[[[|p|p]|]|msg] fs']; cbn;
    by rewrite <- !app_assoc.
Qed.

Lemma tracing_run_recipe (lbl : string) (total : nat) (recipe : list (list string)) :
  forall step, tracing P (run_recipe exec lbl total step recipe).
Proof.
  induction recipe as [|command recipe IH]; intros step; cbn [run_recipe].
  - apply tracing_ret.
  - apply tracing_bind; [apply tracing_runCommand | intros ?; apply IH].
Qed.

Section Step.

Variable rec : list string -> string -> M unit.
Hypothesis tracing_rec : forall targets requester, tracing P (rec targets requester).

Lemma tracing_task_body (t : Task) : tracing P (task_body exec rec t).
Proof.
  unfold task_body. destruct (kind t).
  - apply tracing_bind; [apply tracing_rec|]. intros ?.
    apply tracing_bind; [apply tracing_run_recipe|]. intros ?.
    apply tracing_for_each. intros ?. apply tracing_delete_hash.
  - repeat (apply tracing_bind;
            [first [apply tracing_rec | apply tracing_delete_hash | apply tracing_mkdir
                   | apply tracing_runCommand | apply tracing_loadDeps] | intros ?]).
    apply tracing_assertNontargets.
  - repeat (apply tracing_bind;
            [first [apply tracing_rec | apply tracing_delete_hash | apply tracing_mkdir]
            | intros ?]).
    apply tracing_runCommand.
Qed.

Lemma tracing_run_keyFn (t : Task) : tracing P (run_keyFn rec t).
Proof.
  unfold run_keyFn.
  destruct (kind t);
    repeat (apply tracing_bind;
            [first [apply tracing_rec | apply tracing_hashFiles | apply tracing_loadDeps
                   | apply tracing_assertNontargets] | intros ?]);
    apply tracing_ret.
Qed.

Lemma tracing_attempt (ref : nat) (t : Task) : tracing P (attempt exec rec ref t).
Proof.
  unfold attempt. apply tracing_bind.
  - destruct (cachedKey t), (keyFn t); try apply tracing_ret.
    apply tracing_bind; [apply tracing_run_keyFn | intros ?; apply tracing_ret].
  - intros [|]; [apply tracing_ret|].
    apply tracing_bind.
    + apply tracing_bind; [by apply tracing_emit | intros ?; apply tracing_task_body].
    + intros ?. destruct (keyFn t); [|apply tracing_ret].
      apply tracing_bind; [apply tracing_run_keyFn|]. intros ?. apply tracing_update_task.
Qed.

Lemma tracing_launch (ref : nat) (t : Task) (requester : string) :
  tracing P (launch exec rec ref t requester).
Proof.
  intros w. unfold launch. destruct (tracing_attempt ref t w) as (evs & Htr & Hevs).
  destruct (attempt exec rec ref t w) as [[[]|[message|message]|] w1];
    cbn [fst snd] in *; try by exists evs.
  eexists (evs ++ [_]). split.
  - unfold bind, emit, modify, throw. cbn [fst snd trace set_trace].
    by rewrite Htr, <- app_assoc.
  - apply P_app; [done|]. by apply P_other.
Qed.

Lemma tracing_request (targets : list string) (requester : string) :
  forall handles, tracing P (request exec rec targets requester handles).
Proof.
  induction targets as [|target targets IH]; intros handles; cbn [request].
  - apply tracing_ret.
  - apply tracing_bind; [apply tracing_gets|]. intros w.
    destruct (lookup_task w target) as [ref|].
    + apply tracing_bind; [apply tracing_get_task|]. intros t.
      destruct (pending t) as [h|]; [apply IH|].
      apply tracing_bind; [apply tracing_update_task|]. intros ?.
      apply tracing_bind; [apply tracing_promise, tracing_launch|]. intros h.
      apply tracing_bind; [apply tracing_update_task|]. intros ?.
      apply IH.
    + destruct (is_abstract target); [apply tracing_throw|].
      apply tracing_bind; [apply tracing_promise, tracing_check_exists|]. intros h.
      apply IH.
Qed.

Lemma tracing_updateTargets_body (targets : list string) (requester : string) :
  tracing P (updateTargets_body exec rec targets requester).
Proof.
  apply tracing_bind; [apply tracing_request | intros ?; apply tracing_await_all].
Qed.

End Step.

Lemma tracing_updateTargets (fuel : nat) :
  forall targets requester, tracing P (updateTargets exec fuel targets requester).
Proof.
  induction fuel as [|fuel IH]; intros targets requester; cbn [updateTargets].
  - apply tracing_diverge.
  - by apply tracing_updateTargets_body.
Qed.

End WithExec.

End Tracing.

(** Lists in which every command is announced. *)

Lemma app_eq_cons_split {A} (a b before after : list A) (x : A) :
  a ++ b = before ++ x :: after ->
  (exists k, a = before ++ x :: k /\ after = k ++ b)
  \/ (exists k, before = a ++ k /\ b = k ++ x :: after).
Proof.
  revert before. induction a as [|y a IH]; intros before H.
  - right. by exists before.
  - destruct before as [|z before].
    + cbn in H. injection H as -> H. left. by exists a.
    + cbn in H. injection H as -> H. destruct (IH before H) as [(k & -> & ->)|(k & -> & ->)].
      * left. by exists k.
      * right. by exists k.
Qed.

Lemma announced_nil : announced [].
Proof. intros before command after H. by destruct before. Qed.

Lemma announced_app (evs evs' : list Event) :
  announced evs -> announced evs' -> announced (evs ++ evs').
Proof.
  intros Ha Hb before command after H.
  apply app_eq_cons_split in H as [(k & -> & ->)|(k & -> & ->)].
  - by eapply Ha.
  - destruct (Hb k command after eq_refl) as [k' ->].
    exists (evs ++ k'). by rewrite app_assoc.
Qed.

Lemma announced_other (e : Event) : (forall command, e <> Spawn command) -> announced [e].
Proof.
  intros He before command after H. destruct before as [|e' before].
  - injection H as -> _. by destruct (He command).
  - injection H as _ H. by destruct before.
Qed.

Lemma announced_run (message : string) (command : list string) :
  announced [ConsoleLog message; ConsoleLog ("   " +:+ prettyCommand command); Spawn command].
Proof.
  intros before command' after H.
  destruct before as [|e1 [|e2 [|e3 before]]]; simplify_eq/=.
  - by exists [ConsoleLog message].
  - by destruct before.
Qed.

End TraceFacts.

(** X22.  No command is run behind the user's back: whatever
    [updateTargets] spawns, it spawns right after printing the line that
    shows the command, the tokens quoted as [runCommand] quotes them. *)
Theorem every_command_is_printed
    (exec : list string -> gmap string Node -> ChildResult * gmap string Node)
    (fuel : nat) (targets : list string) (requester : string) (w : World) :
  exists evs,
    trace (snd (updateTargets exec fuel targets requester w)) = trace w ++ evs
    /\ forall before command after,
         evs = before ++ Spawn command :: after ->
         exists before',
           before = before' ++ [ConsoleLog ("   " +:+ prettyCommand command)].
Proof.
  apply (TraceFacts.tracing_updateTargets announced TraceFacts.announced_nil
           TraceFacts.announced_app TraceFacts.announced_other TraceFacts.announced_run).
Qed.
